(** * bangumi-parser: a shallow embedding of [bangumi_parser/core.py]

    The development follows the layout of the Python package:

    - [Py]     the Python built-ins the parser relies on (insertion-ordered
               [dict], [str] methods, [int()], the [02d] format, the stable
               [list.sort], [os.path]);
    - [Re]     a backtracking matcher for the fragment of [re] that the
               configured patterns use ([re.search], [re.match], [re.sub],
               [re.findall]);
    - [Config] [BangumiConfig] and its default rule set ([config.py]);
    - [Core]   [SeriesInfo], [BangumiInfo] and [BangumiParser] ([core.py]);
    - [Spec]   the predicates and example inputs that the statements use.

    The properties follow the definitions, stage by stage: extraction and
    grouping, analysis, vocabulary lookups, the same-season merge and the
    cross-season merge.

    Modelling conventions.

    - A Python [str] is the Rocq [string] that holds its UTF-8 encoding.
      Equality, substring containment and the lexicographic order of
      UTF-8 strings are those of the code-point sequences they encode.
      The classes [\d] and [\s], [str.split], [str.strip] and case folding
      are the ASCII ones; [.] reads one byte.  These readings are Python's
      on ASCII text, and they differ from Python's on other text (digits
      and white space outside ASCII, letters with case outside ASCII), so
      a statement that depends on how a text is read is made for ASCII
      text ([Spec.ascii_text]) and for patterns that Python reads on such
      text as the matcher does ([Spec.plain_config]).  Statements that
      only relate the functions of the parser to each other need neither.
    - A Python [dict] is an association list in insertion order.
    - A Python exception is [None] in the [option] monad.
    - [SeriesInfo] objects are mutable and shared; they live in a heap (a
      list indexed by object identity), and the merge stages, which write
      to them in place, are in heap-passing style.
    - Paths are POSIX paths ([os.sep] is ["/"]).
    - [scan_directory] reads the file system through a value that lists,
      as [os.walk] does, the files and the sub-directories of each
      directory; [parse] and [parse_and_merge] start from the list of
      relative paths that [scan_directory] returns.
    - Printing, the JSON files of [config.py] and the command line are
      outside the embedding. *)

From Stdlib Require Import ZArith Ascii String List Lia.
From stdpp Require Import prelude strings pretty sorting.

Local Open Scope Z_scope.

(* ===================================================================== *)
(** * Python built-ins *)
(* ===================================================================== *)

Module Py.

(** ** [dict] : insertion-ordered mapping.

    A Python [dict] iterates in insertion order; assigning to an existing
    key keeps the key's position and replaces its value, assigning to a new
    key appends it. *)
Definition dict (K V : Type) : Type := list (K * V).

Section dict.
Context {K V : Type} `{EqDecision K}.

(** [d.get(k)] / [d[k]] *)
Fixpoint dict_get (k : K) (d : dict K V) : option V :=
  match d with
  | [] => None
  | (k', v) :: d' => if decide (k = k') then Some v else dict_get k d'
  end.

(** [k in d] *)
Definition dict_has (k : K) (d : dict K V) : bool :=
  match dict_get k d with Some _ => true | None => false end.

(** [d[k] = v] *)
Fixpoint dict_set (k : K) (v : V) (d : dict K V) : dict K V :=
  match d with
  | [] => [(k, v)]
  | (k', v') :: d' =>
      if decide (k = k') then (k, v) :: d' else (k', v') :: dict_set k v d'
  end.

(** [d.update(other)] *)
Definition dict_update (d other : dict K V) : dict K V :=
  foldl (λ acc kv, dict_set kv.1 kv.2 acc) d other.

(** [list(d.keys())] *)
Definition dict_keys (d : dict K V) : list K := d.*1.

(** [len(d)] *)
Definition dict_len (d : dict K V) : Z := Z.of_nat (length d).
End dict.

(** [groups[k].append(x)] on a [defaultdict(list)] *)
Definition dict_append {K V : Type} `{EqDecision K}
    (k : K) (x : V) (d : dict K (list V)) : dict K (list V) :=
  dict_set k (default [] (dict_get k d) ++ [x]) d.

(** ** [str] *)

(** The characters [str.split()], [str.strip()] and [\s] treat as white
    space (ASCII range): TAB, LF, VT, FF, CR, FS, GS, RS, US and SPACE. *)
Definition is_space (c : ascii) : bool :=
  let n := nat_of_ascii c in
  ((9 <=? n) && (n <=? 13) || (28 <=? n) && (n <=? 32))%nat.

Definition is_digit (c : ascii) : bool :=
  let n := nat_of_ascii c in ((48 <=? n) && (n <=? 57))%nat.

Definition is_upper (c : ascii) : bool :=
  let n := nat_of_ascii c in ((65 <=? n) && (n <=? 90))%nat.

Definition is_lower (c : ascii) : bool :=
  let n := nat_of_ascii c in ((97 <=? n) && (n <=? 122))%nat.

Definition to_lower (c : ascii) : ascii :=
  if is_upper c then ascii_of_nat (nat_of_ascii c + 32) else c.

Definition to_upper (c : ascii) : ascii :=
  if is_lower c then ascii_of_nat (nat_of_ascii c - 32) else c.

(** [s.lower()] of an ASCII text: the letters [A] to [Z] are lowered.
    Python also lowers the letters outside ASCII, whose bytes are kept
    here. *)
Fixpoint str_lower (s : string) : string :=
  match s with
  | EmptyString => EmptyString
  | String c s' => String (to_lower c) (str_lower s')
  end.

(** [s.startswith(p)] *)
Fixpoint str_startswith (p s : string) : bool :=
  match p, s with
  | EmptyString, _ => true
  | String a p', String b s' => bool_decide (a = b) && str_startswith p' s'
  | String _ _, EmptyString => false
  end.

(** [sub in s] : substring containment, byte for byte. *)
Fixpoint str_in (sub s : string) : bool :=
  str_startswith sub s ||
  match s with
  | EmptyString => false
  | String _ s' => str_in sub s'
  end.

Fixpoint str_drop (n : nat) (s : string) : string :=
  match n, s with
  | O, _ => s
  | S n', String _ s' => str_drop n' s'
  | S _, EmptyString => EmptyString
  end.

Fixpoint str_take (n : nat) (s : string) : string :=
  match n, s with
  | O, _ => EmptyString
  | S n', String c s' => String c (str_take n' s')
  | S _, EmptyString => EmptyString
  end.

(** [s[b:e]] for [0 <= b], [0 <= e] *)
Definition str_slice (b e : nat) (s : string) : string :=
  str_take (e - b) (str_drop b s).

(** [s.replace(old, new)] for a non-empty [old]: every non-overlapping
    occurrence, left to right.  [skip] counts the bytes of an occurrence
    that are still to be passed over. *)
Fixpoint str_replace_go (old new : string) (skip : nat) (s : string) : string :=
  match s with
  | EmptyString => EmptyString
  | String c s' =>
      match skip with
      | S n => str_replace_go old new n s'
      | O =>
          if str_startswith old s
          then new +:+ str_replace_go old new (String.length old - 1) s'
          else String c (str_replace_go old new 0 s')
      end
  end.

Definition str_replace (old new s : string) : string :=
  str_replace_go old new 0 s.

(** [s.lstrip()], [s.rstrip()], [s.strip()] *)
Fixpoint str_lstrip (s : string) : string :=
  match s with
  | String c s' => if is_space c then str_lstrip s' else s
  | EmptyString => EmptyString
  end.

Fixpoint str_rstrip_with (p : ascii → bool) (s : string) : string :=
  match s with
  | EmptyString => EmptyString
  | String c s' =>
      match str_rstrip_with p s' with
      | EmptyString => if p c then EmptyString else String c EmptyString
      | t => String c t
      end
  end.

Definition str_strip (s : string) : string :=
  str_lstrip (str_rstrip_with is_space s).

(** [s.split()] : maximal runs of non-space characters, the white
    space being that of ASCII ([is_space]); Python also splits at the
    white space outside ASCII. *)
Fixpoint str_split_go (cur : string) (s : string) : list string :=
  match s with
  | EmptyString => match cur with EmptyString => [] | _ => [String.rev cur] end
  | String c s' =>
      if is_space c
      then match cur with
           | EmptyString => str_split_go EmptyString s'
           | _ => String.rev cur :: str_split_go EmptyString s'
           end
      else str_split_go (String c cur) s'
  end.

Definition str_split (s : string) : list string := str_split_go EmptyString s.

(** [s.split(sep)] for a one-character separator: empty fields are kept. *)
Fixpoint str_split_on_go (sep : ascii) (cur : string) (s : string) : list string :=
  match s with
  | EmptyString => [String.rev cur]
  | String c s' =>
      if decide (c = sep)
      then String.rev cur :: str_split_on_go sep EmptyString s'
      else str_split_on_go sep (String c cur) s'
  end.

Definition str_split_on (sep : ascii) (s : string) : list string :=
  str_split_on_go sep EmptyString s.

(** ** [int(s)] and the format specification [02d] *)

Definition digit_val (c : ascii) : option Z :=
  if is_digit c then Some (Z.of_nat (nat_of_ascii c) - 48) else None.

(** Digits after the first one; single underscores may separate digits. *)
Fixpoint int_digits (acc : Z) (after_underscore : bool) (s : string) : option Z :=
  match s with
  | EmptyString => if after_underscore then None else Some acc
  | String c s' =>
      if decide (c = "_"%char)
      then if after_underscore then None else int_digits acc true s'
      else d ← digit_val c; int_digits (10 * acc + d) false s'
  end.

Definition int_unsigned (s : string) : option Z :=
  match s with
  | String c s' => d ← digit_val c; int_digits d false s'
  | EmptyString => None
  end.

(** [int(s)], base 10; [None] stands for [ValueError]. *)
Definition int (s : string) : option Z :=
  match str_strip s with
  | String "+" s' => int_unsigned s'
  | String "-" s' => Z.opp <$> int_unsigned s'
  | s' => int_unsigned s'
  end.

(** [f"{n:02d}"] : decimal, sign-aware zero padding to width two. *)
Definition fmt_02d (n : Z) : string :=
  if decide (0 ≤ n < 10) then "0" +:+ pretty n else pretty n.

(** ** [list.sort]

    Python's sort is stable, so its result is determined by the order
    [leb]; it is what insertion from the right computes.  With
    [reverse=True] equal elements also keep their original order, which is
    the same function at the converse order. *)
Section sort.
Context {A : Type} (leb : A → A → bool).

Fixpoint sort_insert (x : A) (l : list A) : list A :=
  match l with
  | [] => [x]
  | y :: l' => if leb x y then x :: l else y :: sort_insert x l'
  end.

Definition list_sort (l : list A) : list A := foldr sort_insert [] l.
End sort.

(** Order of [(int, str)] tuples: first component, then the strings
    lexicographically. *)
Definition tuple_leb (a b : Z * string) : bool :=
  (a.1 <? b.1) || ((a.1 =? b.1) && String.leb a.2 b.2).

(** ** [os.path] (POSIX flavour, [os.sep = "/"]) *)

(** [(p[:i], p[i:])] with [i = p.rfind("/") + 1] *)
Fixpoint path_cut (p : string) : string * string :=
  match p with
  | EmptyString => (EmptyString, EmptyString)
  | String c p' =>
      let '(h, t) := path_cut p' in
      match h with
      | EmptyString =>
          if decide (c = "/"%char) then (String c EmptyString, p')
          else (EmptyString, String c t)
      | _ => (String c h, t)
      end
  end.

Definition basename (p : string) : string := (path_cut p).2.

Fixpoint all_slashes (s : string) : bool :=
  match s with
  | EmptyString => true
  | String c s' => bool_decide (c = "/"%char) && all_slashes s'
  end.

Definition dirname (p : string) : string :=
  let head := (path_cut p).1 in
  if all_slashes head then head
  else str_rstrip_with (λ c, bool_decide (c = "/"%char)) head.

(** [s.endswith(suffix)] *)
Definition str_endswith (suffix s : string) : bool :=
  (String.length suffix <=? String.length s)%nat
  && bool_decide (str_drop (String.length s - String.length suffix) s = suffix).

(** ** The values that [to_dict] stores: [None], [int], [str], a list of
    [str] and a [dict] with [str] keys. *)
#[warnings="-register-all"] Inductive pyval : Type :=
  | PNone
  | PInt (n : Z)
  | PStr (s : string)
  | PList (l : list string)
  | PDict (d : list (string * pyval)).

End Py.


(* ===================================================================== *)
(** * Regular expressions *)
(* ===================================================================== *)

(** The patterns of [config.py] are written in a small fragment of Python's
    regular-expression language.  A pattern is represented by its syntax
    tree; the matcher below is the usual backtracking one (leftmost match,
    alternatives tried in order, greedy or lazy repetition).  A pattern has
    at most one capturing group, which is all the parser ever reads
    ([match.group(1)], one-group [findall]). *)
Module Re.
Import Py.

Inductive cset : Type :=
  | CChr (c : ascii)             (* a single character *)
  | CRange (lo hi : ascii)       (* [lo-hi] *)
  | CDigit                       (* [\d] *)
  | CSpace.                      (* [\s] *)

Inductive regex : Type :=
  | Empty                                        (* the empty pattern *)
  | Chr (c : ascii)                              (* a literal character *)
  | Any                                          (* [.] *)
  | Class (negated : bool) (items : list cset)   (* [[...]] and [[^...]] *)
  | Seq (r1 r2 : regex)                          (* [r1 r2] *)
  | Alt (r1 r2 : regex)                          (* [r1|r2] *)
  | Rep (r : regex) (lo : nat) (hi : option nat) (greedy : bool)
                                                 (* [r{lo,hi}], [r{lo,hi}?] *)
  | Group (r : regex)                            (* [(r)] *)
  | Bol                                          (* [^] *)
  | Eol.                                         (* [$] *)

(** A literal string, e.g. [Season]. *)
Fixpoint Lit (s : string) : regex :=
  match s with
  | EmptyString => Empty
  | String c EmptyString => Chr c
  | String c s' => Seq (Chr c) (Lit s')
  end.

(** One of several literal strings, e.g. [(?:mkv|mp4)] or a class of
    multi-byte characters such as [[季期]]. *)
Fixpoint OneOf (l : list string) : regex :=
  match l with
  | [] => Class false []
  | [s] => Lit s
  | s :: l' => Alt (Lit s) (OneOf l')
  end.

Definition Star (r : regex) : regex := Rep r 0 None true.
Definition Plus (r : regex) : regex := Rep r 1 None true.
Definition Opt (r : regex) : regex := Rep r 0 (Some 1%nat) true.
Definition Digits (lo hi : nat) : regex := Rep (Class false [CDigit]) lo (Some hi) true.

Fixpoint Seqs (l : list regex) : regex :=
  match l with
  | [] => Empty
  | [r] => r
  | r :: l' => Seq r (Seqs l')
  end.

(** Flags: only [re.IGNORECASE] is used. *)
Definition flags := bool.
Definition IGNORECASE : flags := true.
Definition NOFLAGS : flags := false.

(** A literal against a character of the subject.  With [IGNORECASE]
    the ASCII letters are compared up to case; Python also folds the
    letters outside ASCII. *)
Definition chr_eqb (ic : flags) (a b : ascii) : bool :=
  if ic then bool_decide (to_lower a = to_lower b) else bool_decide (a = b).

(** [\d] and [\s] are the ASCII digits and white space; in Python they
    also hold the decimal digits and the white space outside ASCII. *)
Definition cset_has (it : cset) (c : ascii) : bool :=
  match it with
  | CChr a => bool_decide (a = c)
  | CRange lo hi =>
      ((nat_of_ascii lo <=? nat_of_ascii c) && (nat_of_ascii c <=? nat_of_ascii hi))%nat
  | CDigit => is_digit c
  | CSpace => is_space c
  end.

Definition class_has (ic : flags) (items : list cset) (c : ascii) : bool :=
  existsb (λ it, cset_has it c ||
                 (ic && (cset_has it (to_lower c) || cset_has it (to_upper c))))
          items.

(** The span of group 1, if it took part in the match.  There is one
    slot: for a pattern with one group it is [match.span(1)]; a pattern
    with several groups is outside what the matcher represents. *)
Definition capture := option (nat * nat).

(** A match attempt is in continuation-passing style: [k pos rest cap] is
    what remains to be matched once the current sub-pattern has consumed
    the input up to absolute position [pos], [rest] being the unread
    input.  Failure of the continuation makes the sub-pattern backtrack. *)
Definition cont := nat → string → capture → option (nat * capture).
Definition matcher := nat → string → capture → cont → option (nat * capture).

Definition hi_pred (hi : option nat) : option nat := Nat.pred <$> hi.

(** The [lo] compulsory iterations of a repetition. *)
Fixpoint rep_min (lo : nat) (step : matcher) (tail : cont) : cont :=
  λ pos rest cap,
  match lo with
  | O => tail pos rest cap
  | S n => step pos rest cap (rep_min n step tail)
  end.

(** The optional iterations, at most [hi] of them.  An iteration that
    consumes nothing ends the loop, so at most [length rest] iterations
    take place and [fuel] = [S (length rest)] is never used up. *)
Fixpoint rep_opt (fuel : nat) (step : matcher) (hi : option nat) (greedy : bool)
    (k : cont) : cont :=
  λ pos rest cap,
  match fuel with
  | O => None
  | S f =>
      match hi with
      | Some O => k pos rest cap
      | _ =>
          let more :=
            step pos rest cap (λ p r c,
              if (String.length r <? String.length rest)%nat
              then rep_opt f step (hi_pred hi) greedy k p r c
              else None) in
          if greedy
          then match more with Some x => Some x | None => k pos rest cap end
          else match k pos rest cap with Some x => Some x | None => more end
      end
  end.

Fixpoint mt (ic : flags) (r : regex) : matcher :=
  λ pos rest cap k,
  match r with
  | Empty => k pos rest cap
  | Chr a =>
      match rest with
      | String b rest' => if chr_eqb ic a b then k (S pos) rest' cap else None
      | EmptyString => None
      end
  | Any =>
      match rest with
      | String b rest' =>
          if decide (b = "010"%char) then None else k (S pos) rest' cap
      | EmptyString => None
      end
  | Class neg items =>
      match rest with
      | String b rest' =>
          if xorb neg (class_has ic items b) then k (S pos) rest' cap else None
      | EmptyString => None
      end
  | Seq r1 r2 => mt ic r1 pos rest cap (λ p s c, mt ic r2 p s c k)
  | Alt r1 r2 =>
      match mt ic r1 pos rest cap k with
      | Some x => Some x
      | None => mt ic r2 pos rest cap k
      end
  | Rep r' lo hi greedy =>
      rep_min lo (mt ic r')
        (λ p s c, rep_opt (S (String.length s)) (mt ic r')
                    ((λ h, h - lo)%nat <$> hi) greedy k p s c)
        pos rest cap
  | Group r' => mt ic r' pos rest cap (λ p s _, k p s (Some (pos, p)))
  | Bol => if (pos =? 0)%nat then k pos rest cap else None
  | Eol =>
      match rest with
      | EmptyString => k pos rest cap
      | String "010" EmptyString => k pos rest cap
      | _ => None
      end
  end.

(** A match object: start, end and the span of group 1. *)
Record rmatch : Type := MkMatch { m_start : nat; m_end : nat; m_group : capture }.

(** One attempt at position [pos].  With [must_advance] an empty match is
    not accepted (the matcher backtracks to find a non-empty one). *)
Definition match_here (ic : flags) (r : regex) (must_advance : bool)
    (pos : nat) (rest : string) : option rmatch :=
  '(e, c) ← mt ic r pos rest None
              (λ p _ c, if must_advance && (p =? pos)%nat then None else Some (p, c));
  Some (MkMatch pos e c).

(** Leftmost match at or after [pos]. *)
Fixpoint search_from (ic : flags) (r : regex) (pos : nat) (rest : string) : option rmatch :=
  match match_here ic r false pos rest with
  | Some m => Some m
  | None =>
      match rest with
      | EmptyString => None
      | String _ rest' => search_from ic r (S pos) rest'
      end
  end.

(** [re.search(r, s, flags)] *)
Definition search (r : regex) (s : string) (ic : flags) : option rmatch :=
  search_from ic r 0 s.

(** [re.match(r, s, flags)] *)
Definition match_ (r : regex) (s : string) (ic : flags) : option rmatch :=
  match_here ic r false 0 s.

(** [m.group(0)] and [m.group(1)] on the subject [s]; a group that did not
    take part in the match is [None]. *)
Definition group0 (s : string) (m : rmatch) : string :=
  str_slice (m_start m) (m_end m) s.

Definition group1 (s : string) (m : rmatch) : option string :=
  '(b, e) ← m_group m; Some (str_slice b e s).

(** All non-overlapping matches, left to right, as [re.finditer] yields
    them (Python 3.7 and later): after a non-empty match the scan resumes
    at its end, where an empty match is accepted; after an empty match a
    non-empty one is looked for at the same position before the scan moves
    on by one character.  [skip] counts the characters of the last match
    still to be passed over. *)
Fixpoint finditer_go (ic : flags) (r : regex) (skip : nat) (pos : nat)
    (rest : string) : list rmatch :=
  match skip with
  | S n =>
      match rest with
      | String _ rest' => finditer_go ic r n (S pos) rest'
      | EmptyString => []
      end
  | O =>
      let next (k : nat) : list rmatch :=
        match rest with
        | String _ rest' => finditer_go ic r (k - 1) (S pos) rest'
        | EmptyString => []
        end in
      match match_here ic r false pos rest with
      | Some m =>
          if (m_end m =? pos)%nat
          then m :: match match_here ic r true pos rest with
                    | Some m2 => m2 :: next (m_end m2 - pos)%nat
                    | None => next 1%nat
                    end
          else m :: next (m_end m - pos)%nat
      | None => next 1%nat
      end
  end.

Definition finditer (r : regex) (s : string) (ic : flags) : list rmatch :=
  finditer_go ic r 0 0 s.

(** [s] with the spans of [ms] (ascending, non-overlapping, given from
    absolute position [pos] on) overwritten by [repl]; every character
    outside the spans is copied. *)
Fixpoint splice (repl : string) (ms : list rmatch) (pos : nat) (s : string) : string :=
  match ms with
  | [] => s
  | m :: ms' =>
      str_take (m_start m - pos) s +:+ repl +:+
      splice repl ms' (m_end m) (str_drop (m_end m - pos) s)
  end.

(** [re.sub(r, repl, s, flags=...)] for a replacement text without
    backslashes (the parser passes [" {EP_NUM} "], [" "] and [""]):
    every match found by the scan is replaced. *)
Definition sub (r : regex) (repl : string) (s : string) (ic : flags) : string :=
  splice repl (finditer r s ic) 0 s.

Fixpoint has_group (r : regex) : bool :=
  match r with
  | Group _ => true
  | Seq r1 r2 | Alt r1 r2 => has_group r1 || has_group r2
  | Rep r' _ _ _ => has_group r'
  | _ => false
  end.

(** [re.findall(r, s)] : the text of group 1 of every match (empty when
    the group did not take part), or of the whole match when the pattern
    has no group. *)
Definition findall (r : regex) (s : string) (ic : flags) : list string :=
  (λ m, if has_group r then default EmptyString (group1 s m) else group0 s m)
    <$> finditer r s ic.

End Re.

(* ===================================================================== *)
(** * [config.py] : BangumiConfig *)
(* ===================================================================== *)

Module Config.
Import Py Re.

Record BangumiConfig : Type := {
  known_release_groups : list string;
  common_tags : list string;
  bracket_patterns : list regex;
  episode_patterns : list regex;
  season_patterns : list regex;
  cleanup_patterns : list regex;
  ignore_directory_patterns : list regex
}.

Definition video_exts : regex :=
  OneOf ["mkv"; "mp4"; "avi"; "mov"; "wmv"; "flv"; "webm"].

Definition digit : regex := Class false [CDigit].
Definition space : regex := Class false [CSpace].

(** [(.*?)] *)
Definition lazy_group : regex := Group (Rep Any 0 None false).

(** [_load_default_config] *)
Definition default_config : BangumiConfig := {|
  known_release_groups :=
    ["LoliHouse"; "Sakurato"; "Nekomoe kissaten"; "ANi"; "NC-Raws";
     "Leopard-Raws"; "VCB-Studio"; "SweetSub"; "Lilith-Raws";
     "GM-Team"; "MCE"; "KTXP"; "Crimson"; "Philosophy-Raws"];
  common_tags :=
    ["WebRip"; "BDRip"; "HEVC"; "AVC"; "x264"; "x265";
     "10bit"; "8bit"; "1080p"; "720p"; "480p"; "4K";
     "AAC"; "FLAC"; "AC3"; "DTS"; "SRTx2"; "ASSx2";
     "CHS"; "CHT"; "JP"; "ENG"; "GB"; "BIG5"];
  bracket_patterns :=
    [ Seqs [Chr "["; lazy_group; Chr "]"]            (* \[(.*?)\] *)
    ; Seqs [Chr "("; lazy_group; Chr ")"]            (* \((.*?)\) *)
    ; Seqs [Lit "【"; lazy_group; Lit "】"]          (* 【(.*?)】 *)
    ; Seqs [Lit "『"; lazy_group; Lit "』"]          (* 『(.*?)』 *)
    ; Seqs [Chr "{"; lazy_group; Chr "}"] ];         (* \{(.*?)\} *)
  episode_patterns :=
    [ (* [ \-_\[](\d{1,2})[ \-_\]] *)
      Seqs [ Class false [CChr " "; CChr "-"; CChr "_"; CChr "["]
           ; Group (Digits 1 2)
           ; Class false [CChr " "; CChr "-"; CChr "_"; CChr "]"] ]
      (* [Ee][Pp]?(\d{1,2}) *)
    ; Seqs [ Class false [CChr "E"; CChr "e"]
           ; Opt (Class false [CChr "P"; CChr "p"])
           ; Group (Digits 1 2) ]
      (* 第(\d{1,2})[话話集] *)
    ; Seqs [Lit "第"; Group (Digits 1 2); OneOf ["话"; "話"; "集"]]
      (* (\d{1,2})[话話集] *)
    ; Seqs [Group (Digits 1 2); OneOf ["话"; "話"; "集"]]
      (* - (\d{1,2})\.(?:mkv|mp4|avi|mov|wmv|flv|webm) *)
    ; Seqs [Lit "- "; Group (Digits 1 2); Chr "."; video_exts]
      (* S\d+E(\d{1,2}) *)
    ; Seqs [Chr "S"; Plus digit; Chr "E"; Group (Digits 1 2)]
      (* \.(\d{1,2})\.(?:mkv|mp4|avi|mov|wmv|flv|webm) *)
    ; Seqs [Chr "."; Group (Digits 1 2); Chr "."; video_exts]
      (* _(\d{1,2})_ *)
    ; Seqs [Chr "_"; Group (Digits 1 2); Chr "_"]
      (* \s(\d{1,2})\s *)
    ; Seqs [space; Group (Digits 1 2); space]
      (* (?:第|Episode|Ep)(\d{1,2}) *)
    ; Seqs [OneOf ["第"; "Episode"; "Ep"]; Group (Digits 1 2)] ];
  season_patterns :=
    [ Seqs [Chr "S"; Group (Digits 1 2)]                          (* S(\d{1,2}) *)
    ; Seqs [Lit "Season"; Star space; Group (Digits 1 2)]         (* Season\s*(\d{1,2}) *)
    ; Seqs [Lit "第"; Group (Digits 1 2); OneOf ["季"; "期"]]     (* 第(\d{1,2})[季期] *)
    ; Seqs [Group (Digits 1 2); OneOf ["季"; "期"]] ];            (* (\d{1,2})[季期] *)
  cleanup_patterns :=
    [ (* \.mkv|\.mp4|\.avi|\.mov|\.wmv|\.flv|\.webm *)
      OneOf [".mkv"; ".mp4"; ".avi"; ".mov"; ".wmv"; ".flv"; ".webm"]
    ; Seqs [Chr "("; Digits 4 4; Chr ")"]                         (* \(\d{4}\) *)
    ; Digits 4 4                                                  (* \d{4} *)
    ; Seqs [Lit "Season"; Star space; Plus digit]                 (* Season\s*\d+ *)
    ; Seqs [Lit "第"; Plus digit; OneOf ["季"; "期"]]             (* 第\d+[季期] *)
    ; Seqs [Plus digit; OneOf ["季"; "期"]] ];                    (* \d+[季期] *)
  ignore_directory_patterns :=
    [ Seqs [Bol; Lit "Season"; Star space; Plus digit; Eol]       (* ^Season\s*\d+$ *)
    ; Seqs [Bol; Chr "S"; Plus digit; Eol]                        (* ^S\d+$ *)
    ; Seqs [Bol; Lit "第"; Plus digit; OneOf ["季"; "期"]; Eol]   (* ^第\d+[季期]$ *)
    ; Seqs [Bol; Plus digit; OneOf ["季"; "期"]; Eol] ]           (* ^\d+[季期]$ *)
|}.

(** [self.video_extensions] of [_load_default_config] *)
Definition default_video_extensions : list string :=
  [".mp4"; ".mkv"; ".avi"; ".mov"; ".wmv"; ".flv"; ".webm"].

(** [add_release_group(self, group_name)] *)
Definition add_release_group (cfg : BangumiConfig) (group_name : string)
    : BangumiConfig :=
  if bool_decide (group_name ∈ known_release_groups cfg) then cfg
  else {| known_release_groups := known_release_groups cfg ++ [group_name];
          common_tags := common_tags cfg;
          bracket_patterns := bracket_patterns cfg;
          episode_patterns := episode_patterns cfg;
          season_patterns := season_patterns cfg;
          cleanup_patterns := cleanup_patterns cfg;
          ignore_directory_patterns := ignore_directory_patterns cfg |}.

(** [add_tag(self, tag)] *)
Definition add_tag (cfg : BangumiConfig) (tag : string) : BangumiConfig :=
  if bool_decide (tag ∈ common_tags cfg) then cfg
  else {| known_release_groups := known_release_groups cfg;
          common_tags := common_tags cfg ++ [tag];
          bracket_patterns := bracket_patterns cfg;
          episode_patterns := episode_patterns cfg;
          season_patterns := season_patterns cfg;
          cleanup_patterns := cleanup_patterns cfg;
          ignore_directory_patterns := ignore_directory_patterns cfg |}.

End Config.

(* ===================================================================== *)
(** * [core.py] *)
(* ===================================================================== *)

Module Core.
Import Py Re Config.

(** ** class SeriesInfo *)

Record SeriesInfo : Type := {
  dir_name : string;
  series_name : string;
  season : option Z;
  release_group : option string;
  tags : list string;
  episode_count : Z;
  sample_file : string;
  episodes : dict string string;     (* {"01": "path/to/episode.mkv"} *)
  pattern : string
}.

(** [SeriesInfo()] *)
Definition new_SeriesInfo : SeriesInfo := {|
  dir_name := ""; series_name := ""; season := None; release_group := None;
  tags := []; episode_count := 0; sample_file := ""; episodes := [];
  pattern := ""
|}.

(** Attribute assignments [info.episodes = ...] and the like. *)
Definition set_episodes (eps : dict string string) (i : SeriesInfo) : SeriesInfo :=
  {| dir_name := dir_name i; series_name := series_name i; season := season i;
     release_group := release_group i; tags := tags i;
     episode_count := episode_count i; sample_file := sample_file i;
     episodes := eps; pattern := pattern i |}.

Definition set_episode_count (n : Z) (i : SeriesInfo) : SeriesInfo :=
  {| dir_name := dir_name i; series_name := series_name i; season := season i;
     release_group := release_group i; tags := tags i;
     episode_count := n; sample_file := sample_file i;
     episodes := episodes i; pattern := pattern i |}.

Definition set_tags (ts : list string) (i : SeriesInfo) : SeriesInfo :=
  {| dir_name := dir_name i; series_name := series_name i; season := season i;
     release_group := release_group i; tags := ts;
     episode_count := episode_count i; sample_file := sample_file i;
     episodes := episodes i; pattern := pattern i |}.

Definition set_release_group (g : option string) (i : SeriesInfo) : SeriesInfo :=
  {| dir_name := dir_name i; series_name := series_name i; season := season i;
     release_group := g; tags := tags i;
     episode_count := episode_count i; sample_file := sample_file i;
     episodes := episodes i; pattern := pattern i |}.

(** Truth value of an [Optional[str]]: [None] and [""] are false. *)
Definition truthy (s : option string) : bool :=
  match s with
  | None | Some EmptyString => false
  | Some _ => true
  end.

(** [season or 1] *)
Definition season_or_1 (s : option Z) : Z :=
  match s with
  | Some n => if decide (n = 0) then 1 else n
  | None => 1
  end.

(** [if x not in l: l.append(x)] *)
Definition append_new (l : list string) (x : string) : list string :=
  if bool_decide (x ∈ l) then l else l ++ [x].

(** ** The object store.

    [SeriesInfo] objects are created by [analyze_series] and afterwards
    shared by reference between the mappings the merge stages take and
    return and the [seasons] of the [BangumiInfo] objects.  A reference is
    an index into the heap.  Every [SeriesInfo] owns its [episodes] dict
    and its [tags] list (they are created with the object). *)
Abbreviation ref := nat.
Abbreviation heap := (list SeriesInfo).

(** A left fold whose step may raise. *)
Fixpoint foldM {A B : Type} (f : A → B → option A) (a : A) (l : list B) : option A :=
  match l with
  | [] => Some a
  | x :: l' => a' ← f a x; foldM f a' l'
  end.

(** ** class BangumiInfo *)

Record BangumiInfo : Type := {
  b_series_name : string;
  seasons : dict Z ref;              (* season_number -> SeriesInfo *)
  total_episodes : Z;
  season_count : Z;
  release_groups : list string;
  b_tags : list string
}.

(** [BangumiInfo()] *)
Definition new_BangumiInfo : BangumiInfo := {|
  b_series_name := ""; seasons := []; total_episodes := 0; season_count := 0;
  release_groups := []; b_tags := []
|}.

(** [sum(info.episode_count for info in self.seasons.values())] *)
Definition sum_episode_counts (h : heap) (ss : dict Z ref) : option Z :=
  foldM (λ acc sr, info ← h !! sr.2; Some (acc + episode_count info)) 0 ss.

(** [BangumiInfo.add_season(self, season_info)].  [self] is passed and
    returned by value (a [BangumiInfo] is only reachable through the
    mapping that [merge_multi_season_series] builds); the [SeriesInfo]
    objects are reached through the heap. *)
Definition add_season (h : heap) (self : BangumiInfo) (r : ref)
    : option (heap * BangumiInfo) :=
  season_info ← h !! r;
  let season_num := season_or_1 (season season_info) in
  '(h1, seasons1) ←
    match dict_get season_num (seasons self) with
    | Some e =>
        (* season already exists: merge episodes *)
        existing ← h !! e;
        let eps := dict_update (episodes existing) (episodes season_info) in
        Some (<[e := set_episode_count (dict_len eps) (set_episodes eps existing)]> h,
              seasons self)
    | None => Some (h, dict_set season_num r (seasons self))
    end;
  let groups1 :=
    match release_group season_info with
    | Some g =>
        if truthy (Some g) && negb (bool_decide (g ∈ release_groups self))
        then release_groups self ++ [g] else release_groups self
    | None => release_groups self
    end in
  let tags1 := foldl append_new (b_tags self) (tags season_info) in
  (* update totals *)
  total ← sum_episode_counts h1 seasons1;
  Some (h1,
        {| b_series_name :=
             match b_series_name self with
             | EmptyString => series_name season_info
             | n => n
             end;
           seasons := seasons1;
           total_episodes := total;
           season_count := dict_len seasons1;
           release_groups := groups1;
           b_tags := tags1 |}).

(** ** class BangumiParser *)

Definition EP_NUM : string := " {EP_NUM} ".

(** [extract_series_info(self, filename)] : the loop over the episode
    patterns.  The search runs on the base name, the substitution on the
    whole of [filename]. *)
Fixpoint extract_series_info_loop (patterns : list regex)
    (base_filename filename : string) : option (string * Z) :=
  match patterns with
  | [] => Some (filename, 0)            (* return original if no pattern found *)
  | pattern :: patterns' =>
      match search pattern base_filename IGNORECASE with
      | Some m =>
          g ← group1 base_filename m;
          episode_num ← int g;
          let series_pattern := sub pattern EP_NUM filename IGNORECASE in
          Some (series_pattern, episode_num)
      | None => extract_series_info_loop patterns' base_filename filename
      end
  end.

Definition extract_series_info (cfg : BangumiConfig) (filename : string)
    : option (string * Z) :=
  let base_filename := basename filename in
  extract_series_info_loop (episode_patterns cfg) base_filename filename.

(** [extract_season_info(self, path)].  The outer [option] is the
    exception, the inner one the returned [Optional[int]]. *)
Fixpoint season_in_text (patterns : list regex) (text : string)
    : option (option Z) :=
  match patterns with
  | [] => Some None
  | pattern :: patterns' =>
      match search pattern text IGNORECASE with
      | Some m => g ← group1 text m; n ← int g; Some (Some n)
      | None => season_in_text patterns' text
      end
  end.

Definition extract_season_info (cfg : BangumiConfig) (path : string)
    : option (option Z) :=
  found ← season_in_text (season_patterns cfg) path;
  match found with
  | Some n => Some (Some n)
  | None => season_in_text (season_patterns cfg) (basename path)
  end.

(** [extract_parameters_from_brackets(self, filename)] *)
Definition extract_parameters_from_brackets (cfg : BangumiConfig)
    (filename : string) : list string :=
  flat_map (λ pattern, findall pattern filename NOFLAGS) (bracket_patterns cfg).

(** [identify_release_group(self, parameters)] *)
Fixpoint identify_release_group (cfg : BangumiConfig) (parameters : list string)
    : option string :=
  match parameters with
  | [] => None
  | param :: parameters' =>
      match List.find (λ group, str_in group param) (known_release_groups cfg) with
      | Some group => Some group
      | None => identify_release_group cfg parameters'
      end
  end.

(** [extract_tags(self, parameters)] *)
Definition extract_tags (cfg : BangumiConfig) (parameters : list string)
    : list string :=
  foldl (λ tags param,
           foldl (λ tags word,
                    if existsb (λ tag, str_in tag word) (common_tags cfg)
                    then append_new tags word else tags)
                 tags (str_split param))
        [] parameters.

(** [extract_series_name_from_path(self, file_path, base_name, parameters)] *)
Definition should_ignore (cfg : BangumiConfig) (part : string) : bool :=
  existsb (λ ignore_pattern,
             match match_ ignore_pattern part IGNORECASE with
             | Some _ => true
             | None => false
             end)
          (ignore_directory_patterns cfg).

(** The directory parts, deepest first. *)
Fixpoint first_series_dir (cfg : BangumiConfig) (parts : list string)
    : option string :=
  match parts with
  | [] => None
  | part :: parts' =>
      match part with
      | EmptyString => first_series_dir cfg parts'
      | _ => if should_ignore cfg part then first_series_dir cfg parts'
             else Some part
      end
  end.

Definition strip_parameter (clean_name param : string) : string :=
  let clean_name := str_replace ("[" +:+ param +:+ "]") "" clean_name in
  let clean_name := str_replace ("(" +:+ param +:+ ")") "" clean_name in
  let clean_name := str_replace ("【" +:+ param +:+ "】") "" clean_name in
  let clean_name := str_replace ("『" +:+ param +:+ "』") "" clean_name in
  str_replace ("{" +:+ param +:+ "}") "" clean_name.

(** [[-_\s]+] *)
Definition separators : regex :=
  Plus (Class false [CChr "-"; CChr "_"; CSpace]).

Definition extract_series_name_from_path (cfg : BangumiConfig)
    (file_path base_name : string) (parameters : list string) : string :=
  let dir_path := dirname file_path in
  let path_parts :=
    match dir_path with
    | EmptyString => []
    | _ => str_split_on "/" dir_path
    end in
  match first_series_dir cfg (rev path_parts) with
  | Some series_name => series_name
  | None =>
      (* no good directory name found: extract from the file name *)
      let clean_name :=
        foldl (λ n pattern, sub pattern " " n IGNORECASE) base_name
              (episode_patterns cfg) in
      let clean_name := foldl strip_parameter clean_name parameters in
      let clean_name :=
        foldl (λ n pattern, sub pattern "" n IGNORECASE) clean_name
              (cleanup_patterns cfg) in
      let clean_name := str_strip (sub separators " " clean_name NOFLAGS) in
      match clean_name with
      | EmptyString => "Unknown Series"
      | _ => clean_name
      end
  end.

(** [group_series(self)] on [self.video_files] *)
Definition series_groups_t : Type := dict string (list (Z * string)).

(** The body of [for video in self.video_files]. *)
Definition collect_step (cfg : BangumiConfig) (groups : series_groups_t)
    (video : string) : option series_groups_t :=
  '(series_pattern, episode_num) ← extract_series_info cfg video;
  Some (dict_append series_pattern (episode_num, video) groups).

Definition collect_groups (cfg : BangumiConfig) (video_files : list string)
    : option series_groups_t :=
  foldM (collect_step cfg) [] video_files.

(** [for pattern in self.series_groups: self.series_groups[pattern].sort()] *)
Definition sort_groups (groups : series_groups_t) : series_groups_t :=
  map (λ kv, (kv.1, list_sort tuple_leb kv.2)) groups.

Definition group_series (cfg : BangumiConfig) (video_files : list string)
    : option series_groups_t :=
  groups ← collect_groups cfg video_files;
  (* sort each group by episode number *)
  Some (sort_groups groups).

(** The episode map that [analyze_series] builds from one group. *)
Definition episode_put (episode_map : dict string string) (video : Z * string)
    : dict string string :=
  (* format episode number as two digits *)
  dict_set (fmt_02d video.1) video.2 episode_map.

Definition episode_map (videos : list (Z * string)) : dict string string :=
  foldl episode_put [] videos.

(** The body of the loop of [analyze_series] for one group. *)
Definition analyze_group (cfg : BangumiConfig) (pattern : string)
    (videos : list (Z * string)) : option SeriesInfo :=
  (* take first file as sample *)
  '(_, sample_file) ← head videos;
  let base_name := basename sample_file in
  let dir_name := dirname sample_file in
  let parameters := extract_parameters_from_brackets cfg base_name in
  season ← extract_season_info cfg sample_file;
  Some {| pattern := pattern;
          sample_file := sample_file;
          dir_name := dir_name;
          release_group := identify_release_group cfg parameters;
          tags := extract_tags cfg parameters;
          season := season;
          series_name :=
            extract_series_name_from_path cfg sample_file base_name parameters;
          episodes := episode_map videos;
          episode_count := Z.of_nat (length videos) |}.

(** [analyze_series(self)] on [self.series_groups] *)
Definition analyze_step (cfg : BangumiConfig) (series_info : dict string SeriesInfo)
    (group : string * list (Z * string)) : option (dict string SeriesInfo) :=
  info ← analyze_group cfg group.1 group.2;
  Some (dict_set group.1 info series_info).

Definition analyze_series (cfg : BangumiConfig)
    (series_groups : series_groups_t) : option (dict string SeriesInfo) :=
  foldM (analyze_step cfg) [] series_groups.

(** [parse(self, directory)], given the result of the directory scan. *)
Definition parse (cfg : BangumiConfig) (video_files : list string)
    : option (dict string SeriesInfo) :=
  series_groups ← group_series cfg video_files;
  analyze_series cfg series_groups.

(** ** [merge_same_season_series(self, series_info)] *)

(** [(info.series_name, info.dir_name, info.season or 1)] *)
Definition group_key : Type := string * string * Z.

Definition key_of (info : SeriesInfo) : group_key :=
  (series_name info, dir_name info, season_or_1 (season info)).

Definition same_season_groups : Type := dict group_key (list (string * ref)).

(** The first loop: [groups[key].append((pattern, info))]. *)
Definition group_by_key (h : heap) (series_info : dict string ref)
    : option same_season_groups :=
  foldM (λ (groups : same_season_groups) pr,
           info ← h !! pr.2;
           Some (dict_append (key_of info) pr groups))
        [] series_info.

(** [priority_key(item)] *)
Definition has_specific_episodes (info : SeriesInfo) : bool :=
  existsb (λ ep, negb (bool_decide (ep = "00"))) (dict_keys (episodes info)).

Definition priority_key (info : SeriesInfo) : Z * bool :=
  (episode_count info, has_specific_episodes info).

(** [a >= b] on [(int, bool)] tuples, [False < True]. *)
Definition priority_geb (a b : Z * bool) : bool :=
  (b.1 <? a.1) || ((a.1 =? b.1) && implb b.2 a.2).

(** [series_list.sort(key=priority_key, reverse=True)] : the keys are
    computed once, before the list is rearranged. *)
Definition sort_by_priority (h : heap) (series_list : list (string * ref))
    : option (list (string * ref)) :=
  keyed ← mapM (λ pr : string * ref,
                  info ← h !! pr.2; Some (priority_key info, pr)) series_list;
  Some ((list_sort (λ a b, priority_geb a.1 b.1) keyed).*2).

(** The synthetic key for an episode whose number is unknown. *)
Definition unknown_key (counter : Z) : string := "未知集" +:+ fmt_02d counter.

(** [while new_ep_num in main_info.episodes:
       counter += 1; new_ep_num = f"未知集{counter:02d}"]
    The loop leaves after at most [len(main_info.episodes)] rounds. *)
Fixpoint probe_unknown (fuel : nat) (main_episodes : dict string string)
    (counter : Z) (new_ep_num : string) : option string :=
  if dict_has new_ep_num main_episodes
  then match fuel with
       | O => None
       | S f => probe_unknown f main_episodes (counter + 1) (unknown_key (counter + 1))
       end
  else Some new_ep_num.

Definition next_unknown (main_episodes : dict string string) : option string :=
  probe_unknown (length main_episodes) main_episodes 1 "未知集01".

(** The body of [for ep_num, file_path in info.episodes.items()]. *)
Definition merge_episode (main_episodes : dict string string)
    (item : string * string) : option (dict string string) :=
  let '(ep_num, file_path) := item in
  if decide (ep_num = "00")
  then
    (* rename "00" to the next free synthetic key *)
    new_ep_num ← next_unknown main_episodes;
    Some (dict_set new_ep_num file_path main_episodes)
  else
    (* add episode if not already exists *)
    if dict_has ep_num main_episodes then Some main_episodes
    else Some (dict_set ep_num file_path main_episodes).

(** The body of [for pattern, info in series_list[1:]] : fold the object
    [r] into the object [main_ref].

    When both references denote the same object, the loop iterates over
    the very dict it inserts into: renaming a ["00"] key then raises
    [RuntimeError] (dictionary changed size during iteration), and
    without such a key nothing is written. *)
Definition merge_into (main_ref : ref) (h : heap) (r : ref) : option heap :=
  main_info ← h !! main_ref;
  info ← h !! r;
  if decide (r = main_ref)
  then if dict_has "00" (episodes info) then None else Some h
  else
    eps ← foldM merge_episode (episodes main_info) (episodes info);
    let main_info := set_episodes eps main_info in
    (* merge tags *)
    let main_info := set_tags (foldl append_new (tags main_info) (tags info)) main_info in
    (* update release group if not set *)
    let main_info :=
      if negb (truthy (release_group main_info)) && truthy (release_group info)
      then set_release_group (release_group info) main_info
      else main_info in
    Some (<[main_ref := main_info]> h).

(** The [else] branch of the loop over the groups: several series share
    the key and are merged into the one of highest priority. *)
Definition merge_members (h : heap) (merged_series : dict string ref)
    (series_list : list (string * ref)) : option (heap * dict string ref) :=
  sorted ← sort_by_priority h series_list;
  (* take the highest priority series as base *)
  '(main_pattern, main_ref) ← head sorted;
  (* merge other series into the main one *)
  h ← foldM (merge_into main_ref) h (tail sorted).*2;
  (* update episode count *)
  main_info ← h !! main_ref;
  let h := <[main_ref :=
               set_episode_count (dict_len (episodes main_info)) main_info]> h in
  Some (h, dict_set main_pattern main_ref merged_series).

(** The body of [for key, series_list in groups.items()]. *)
Definition merge_group (st : heap * dict string ref)
    (group : group_key * list (string * ref)) : option (heap * dict string ref) :=
  let '(h, merged_series) := st in
  match group.2 with
  | [(pattern, r)] =>
      (* only one series in this group, keep as is *)
      Some (h, dict_set pattern r merged_series)
  | series_list => merge_members h merged_series series_list
  end.

Definition merge_same_season_series (h : heap) (series_info : dict string ref)
    : option (heap * dict string ref) :=
  groups ← group_by_key h series_info;
  foldM merge_group (h, []) groups.

(** ** [merge_multi_season_series(self, series_info)] *)

Definition bangumi_dict_t : Type := dict string BangumiInfo.

(** The body of [for pattern, info in series_info.items()]. *)
Definition merge_season (st : heap * bangumi_dict_t) (pr : string * ref)
    : option (heap * bangumi_dict_t) :=
  let '(h, bangumi_dict) := st in
  info ← h !! pr.2;
  let series_name := series_name info in
  let bangumi :=
    match dict_get series_name bangumi_dict with
    | Some b => b
    | None =>
        {| b_series_name := series_name; seasons := []; total_episodes := 0;
           season_count := 0; release_groups := []; b_tags := [] |}
    end in
  '(h, bangumi) ← add_season h bangumi pr.2;
  Some (h, dict_set series_name bangumi bangumi_dict).

Definition merge_multi_season_series (h : heap) (series_info : dict string ref)
    : option (heap * bangumi_dict_t) :=
  foldM merge_season (h, []) series_info.

(** ** [parse_and_merge(self, directory)], given the directory scan.

    [analyze_series] creates one object per grouping pattern; they are
    the initial content of the heap. *)
Definition allocate (series_info : dict string SeriesInfo) : heap * dict string ref :=
  (series_info.*2, imap (λ i pv, (pv.1, i)) series_info).

Definition parse_and_merge (cfg : BangumiConfig) (video_files : list string)
    : option (heap * bangumi_dict_t) :=
  series_info ← parse cfg video_files;
  let '(h, series_info) := allocate series_info in
  '(h, merged_same_season) ← merge_same_season_series h series_info;
  merge_multi_season_series h merged_same_season.

(** ** [scan_directory(self, directory)]

    The file system is a value: what [os.walk] reports of a directory,
    top-down, is the list of the names of its non-directory entries and
    the list of its sub-directories, each in listing order.  A path is
    absent, a file or a directory. *)
#[warnings="-register-all"] Inductive dir_tree : Type :=
  | DirTree (files : list string) (dirs : list (string * dir_tree)).

Inductive fs_entry : Type :=
  | NoSuchPath
  | NotADirectory
  | Directory (t : dir_tree).

(** [os.path.relpath(os.path.join(root, name), directory)], [root] being
    given relative to the scanned directory (empty for the directory
    itself). *)
Definition rel_join (root name : string) : string :=
  match root with
  | EmptyString => name
  | _ => root +:+ "/" +:+ name
  end.

(** [os.walk(directory)] : the pairs [(root, files)], a directory before
    its sub-directories. *)
Fixpoint walk (root : string) (t : dir_tree) : list (string * list string) :=
  match t with
  | DirTree files dirs =>
      (root, files) :: flat_map (λ d, walk (rel_join root d.1) d.2) dirs
  end.

(** [any(file.lower().endswith(ext) for ext in self.config.video_extensions)] *)
Definition is_video_file (video_extensions : list string) (file : string) : bool :=
  existsb (λ ext, str_endswith ext (str_lower file)) video_extensions.

(** [None] is [FileNotFoundError]; on a path that is not a directory
    [os.walk] yields nothing. *)
Definition scan_directory (video_extensions : list string) (directory : fs_entry)
    : option (list string) :=
  match directory with
  | NoSuchPath => None
  | NotADirectory => Some []
  | Directory t =>
      Some (flat_map (λ rf : string * list string,
                        rel_join rf.1 <$>
                          List.filter (is_video_file video_extensions) rf.2)
                     (walk "" t))
  end.

(** ** [to_dict] *)

(** [SeriesInfo.to_dict(self)] *)
Definition SeriesInfo_to_dict (self : SeriesInfo) : dict string pyval :=
  [ ("dir_name", PStr (dir_name self));
    ("series_name", PStr (series_name self));
    ("season", match season self with Some n => PInt n | None => PNone end);
    ("release_group",
       match release_group self with Some g => PStr g | None => PNone end);
    ("tags", PList (tags self));
    ("episode_count", PInt (episode_count self));
    ("sample_file", PStr (sample_file self));
    ("episodes", PDict ((λ kv, (kv.1, PStr kv.2)) <$> episodes self));
    ("pattern", PStr (pattern self)) ].

(** [f"season_{season_num}"] *)
Definition season_key (season_num : Z) : string := "season_" +:+ pretty season_num.

(** [for season_num, season_info in self.seasons.items():
       seasons_dict[f"season_{season_num}"] = season_info.to_dict()] *)
Definition seasons_to_dict (h : heap) (seasons : dict Z ref)
    : option (dict string pyval) :=
  foldM (λ seasons_dict sr,
           season_info ← h !! sr.2;
           Some (dict_set (season_key sr.1)
                          (PDict (SeriesInfo_to_dict season_info)) seasons_dict))
        [] seasons.

(** [BangumiInfo.to_dict(self)] *)
Definition BangumiInfo_to_dict (h : heap) (self : BangumiInfo)
    : option (dict string pyval) :=
  seasons_dict ← seasons_to_dict h (seasons self);
  Some [ ("series_name", PStr (b_series_name self));
         ("season_count", PInt (season_count self));
         ("total_episodes", PInt (total_episodes self));
         ("release_groups", PList (release_groups self));
         ("tags", PList (b_tags self));
         ("seasons", PDict seasons_dict) ].

End Core.

(* ===================================================================== *)
(** * Vocabulary of the statements *)
(* ===================================================================== *)

Module Spec.
Import Py Re Config Core.

(** Continuations that agree on every input, and matchers that cannot
    tell such continuations apart. *)
Definition cont_equiv (k1 k2 : cont) : Prop :=
  ∀ pos rest cap, k1 pos rest cap = k2 pos rest cap.

Definition respects_cont (step : matcher) : Prop :=
  ∀ k1 k2, cont_equiv k1 k2 →
    ∀ pos rest cap, step pos rest cap k1 = step pos rest cap k2.

(** The order of [(int, str)] tuples as a relation. *)
Definition tuple_le (a b : Z * string) : Prop :=
  a.1 < b.1 ∨ (a.1 = b.1 ∧ String.le a.2 b.2).

(** The entries [(episode number, path)] of the files whose grouping key
    is [key], in the order of the input file list. *)
Definition entries_for (cfg : BangumiConfig) (key : string)
    (video_files : list string) : list (Z * string) :=
  omap (λ video,
          match extract_series_info cfg video with
          | Some (series_pattern, episode_num) =>
              if decide (series_pattern = key) then Some (episode_num, video)
              else None
          | None => None
          end)
       video_files.

(** In [l], entries with equal episode numbers stand in the order in
    which their files occur in the input file list. *)
Definition ties_in_discovery_order (video_files : list string)
    (l : list (Z * string)) : Prop :=
  ∀ i j a b, (i < j)%nat → l !! i = Some a → l !! j = Some b → a.1 = b.1 →
    ∃ i' j', (i' < j')%nat ∧ video_files !! i' = Some a.2
             ∧ video_files !! j' = Some b.2.

(** [s] with the one span from [b] to [e] overwritten by [repl]. *)
Definition replace_span (b e : nat) (repl s : string) : string :=
  str_take b s +:+ repl +:+ str_drop e s.

(** [sub] occurs in [s], character for character. *)
Definition occurs_in (sub s : string) : Prop :=
  ∃ pre post, s = pre +:+ sub +:+ post.

(** [sub] occurs in [s] up to the case of the letters. *)
Definition occurs_ignoring_case (sub s : string) : Prop :=
  occurs_in (str_lower sub) (str_lower s).

(** No object of the heap [h] loses an episode key or has the path of a
    key changed in [h']. *)
Definition episodes_kept (h h' : heap) : Prop :=
  ∀ r info k v,
    h !! r = Some info → dict_get k (episodes info) = Some v →
    ∃ info', h' !! r = Some info' ∧ dict_get k (episodes info') = Some v.

(** Every binding of the map [d] is a binding of [d']. *)
Definition dict_kept (d d' : dict string string) : Prop :=
  ∀ k v, dict_get k d = Some v → dict_get k d' = Some v.

(** [info'] is [info] with, possibly, more episodes and other metadata:
    same series name, directory and season, and every episode kept. *)
Definition grows (info info' : SeriesInfo) : Prop :=
  key_of info' = key_of info ∧ dict_kept (episodes info) (episodes info').

(** Every object of [h] is in [h'], grown. *)
Definition objects_grow (h h' : heap) : Prop :=
  ∀ r info, h !! r = Some info → ∃ info', h' !! r = Some info' ∧ grows info info'.

(** A well-formed [defaultdict(list)] of groups: the keys are distinct
    and no list is empty. *)
Definition groups_wf (groups : series_groups_t) : Prop :=
  NoDup (dict_keys groups) ∧ ∀ key l, dict_get key groups = Some l → l ≠ [].

(** Every word of [tags] contains an entry of the tag vocabulary. *)
Definition tags_ok (cfg : BangumiConfig) (tags : list string) : Prop :=
  ∀ word, word ∈ tags → ∃ tag, tag ∈ common_tags cfg ∧ occurs_in tag word.

(** The invariant of [merge_multi_season_series]: for every [BangumiInfo]
    of the mapping, [total_episodes] is the sum of the episode counts of
    its seasons as they are in the heap, and each season is a series of
    that name. *)
Definition totals_ok (h : heap) (bangumi_dict : bangumi_dict_t) : Prop :=
  ∀ name b, dict_get name bangumi_dict = Some b →
    sum_episode_counts h (seasons b) = Some (total_episodes b)
    ∧ ∀ sr, sr ∈ seasons b →
        ∃ info, h !! sr.2 = Some info ∧ series_name info = name.

(** Two fragments of season 1 of one series, from two directories, that
    both hold episode ["01"]: the objects that [analyze_series] creates
    for the files [x/A/A - 01.mkv], [y/A/A - 01.mkv] and [y/A/A - 02.mkv]. *)
Definition scenario_two_fragments : heap :=
  [ {| dir_name := "x/A"; series_name := "A"; season := None;
       release_group := None; tags := []; episode_count := 1;
       sample_file := "x/A/A - 01.mkv"; episodes := [("01", "x/A/A - 01.mkv")];
       pattern := "x/A/A  {EP_NUM} " |};
    {| dir_name := "y/A"; series_name := "A"; season := None;
       release_group := None; tags := []; episode_count := 2;
       sample_file := "y/A/A - 01.mkv";
       episodes := [("01", "y/A/A - 01.mkv"); ("02", "y/A/A - 02.mkv")];
       pattern := "y/A/A  {EP_NUM} " |} ].

Definition scenario_two_fragments_series : dict string ref :=
  [("x/A/A  {EP_NUM} ", 0%nat); ("y/A/A  {EP_NUM} ", 1%nat)].

(** Scenario C of the specification: two provisional groups of the series
    ["Show"] in directory ["Show"], season 1, one with the episodes ["01"]
    and ["02"], one with the episode ["00"] only. *)
Definition scenario_c (f1 f2 f0 : string) : heap :=
  [ {| dir_name := "Show"; series_name := "Show"; season := Some 1;
       release_group := None; tags := []; episode_count := 2;
       sample_file := f1; episodes := [("01", f1); ("02", f2)];
       pattern := "numbered" |};
    {| dir_name := "Show"; series_name := "Show"; season := Some 1;
       release_group := None; tags := []; episode_count := 1;
       sample_file := f0; episodes := [("00", f0)];
       pattern := "unnumbered" |} ].

(** Two seasons of one series, each in a directory of its own. *)
Definition scenario_two_seasons (f1 f2 : string) : heap :=
  [ {| dir_name := "A/S1"; series_name := "A"; season := Some 1;
       release_group := None; tags := []; episode_count := 1;
       sample_file := f1; episodes := [("01", f1)];
       pattern := "A/S1/ {EP_NUM} " |};
    {| dir_name := "A/S2"; series_name := "A"; season := Some 2;
       release_group := None; tags := []; episode_count := 1;
       sample_file := f2; episodes := [("01", f2)];
       pattern := "A/S2/ {EP_NUM} " |} ].

Definition scenario_c_series : dict string ref :=
  [("numbered", 0%nat); ("unnumbered", 1%nat)].

(** *** Texts and patterns that are read as Python reads them *)

Definition is_ascii (c : ascii) : bool := (nat_of_ascii c <? 128)%nat.

(** A [str] of ASCII characters.  On such a text [str.lower], [str.split],
    [str.strip], [int] and the classes [\d] and [\s] are the ASCII ones in
    Python too. *)
Fixpoint ascii_text (s : string) : bool :=
  match s with
  | EmptyString => true
  | String c s' => is_ascii c && ascii_text s'
  end.

(** The number of capturing groups of a pattern. *)
Fixpoint group_count (r : regex) : nat :=
  match r with
  | Group r' => S (group_count r')
  | Seq r1 r2 | Alt r1 r2 => (group_count r1 + group_count r2)%nat
  | Rep r' _ _ _ => group_count r'
  | _ => 0%nat
  end.

(** The pattern can match the empty text. *)
Fixpoint nullable (r : regex) : bool :=
  match r with
  | Empty | Bol | Eol => true
  | Chr _ | Any | Class _ _ => false
  | Seq r1 r2 => nullable r1 && nullable r2
  | Alt r1 r2 => nullable r1 || nullable r2
  | Rep r' lo _ _ => (lo =? 0)%nat || nullable r'
  | Group r' => nullable r'
  end.

(** An item of a class, written in ASCII; a range is not empty. *)
Definition plain_item (it : cset) : bool :=
  match it with
  | CChr c => is_ascii c
  | CRange lo hi =>
      is_ascii lo && is_ascii hi && (nat_of_ascii lo <=? nat_of_ascii hi)%nat
  | CDigit | CSpace => true
  end.

(** With [re.IGNORECASE] Python takes four letters outside ASCII for an
    ASCII letter: U+0130 and U+0131 for [i], U+017F for [s] and U+212A for
    [k].  Their encodings start with the bytes 0xC4, 0xC5 and 0xE2; a literal
    byte other than these is part of none of them. *)
Definition plain_byte (c : ascii) : bool :=
  let n := nat_of_ascii c in
  negb ((n =? 196) || (n =? 197) || (n =? 226))%nat.

Fixpoint plain_syntax (r : regex) : bool :=
  match r with
  | Chr c => plain_byte c
  | Class _ items => forallb plain_item items
  | Seq r1 r2 | Alt r1 r2 => plain_syntax r1 && plain_syntax r2
  | Rep r' lo hi _ =>
      plain_syntax r' && negb (nullable r')
      && match hi with Some h => (lo <=? h)%nat | None => true end
  | Group r' => plain_syntax r'
  | Empty | Any | Bol | Eol => true
  end.

(** A pattern that Python's [re] reads on ASCII text as the matcher of
    [Re] does: it has at most one group (the matcher keeps one capture,
    and [findall] returns strings), its classes are written in ASCII, none
    of its literals is one of the four letters above, and what it repeats
    cannot match the empty text. *)
Definition plain_pattern (r : regex) : bool :=
  plain_syntax r && (group_count r <=? 1)%nat.

(** Every pattern of the configuration is of this kind, as those of the
    default configuration are. *)
Definition plain_config (cfg : BangumiConfig) : bool :=
  forallb plain_pattern
    (bracket_patterns cfg ++ episode_patterns cfg ++ season_patterns cfg
     ++ cleanup_patterns cfg ++ ignore_directory_patterns cfg).

(** *** Patterns that capture a number *)

(** One or two ASCII digits. *)
Definition digits12 (t : string) : bool :=
  match t with
  | String a EmptyString => is_digit a
  | String a (String b EmptyString) => is_digit a && is_digit b
  | _ => false
  end.

(** Every group of the pattern is [(\d{1,2})]. *)
Fixpoint groups_capture_digits (r : regex) : Prop :=
  match r with
  | Group r' => r' = Digits 1 2
  | Seq r1 r2 | Alt r1 r2 => groups_capture_digits r1 ∧ groups_capture_digits r2
  | Rep r' _ _ _ => groups_capture_digits r'
  | _ => True
  end.

(** A group takes part in every match of the pattern. *)
Fixpoint sets_group (r : regex) : bool :=
  match r with
  | Group _ => true
  | Seq r1 r2 => sets_group r1 || sets_group r2
  | Alt r1 r2 => sets_group r1 && sets_group r2
  | _ => false
  end.

(** The capture is set, and spans one or two digits of [s]. *)
Definition digit_span (s : string) (c : capture) : Prop :=
  ∃ b e, c = Some (b, e) ∧ digits12 (str_slice b e s) = true.

(** A matcher that, when it succeeds on the subject [s], has called its
    continuation further on in [s], with the capture it was given or with
    a span of digits. *)
Definition step_inv (s : string) (step : matcher) : Prop :=
  ∀ pos cap k res, step pos (str_drop pos s) cap k = Some res →
    ∃ p' c', k p' (str_drop p' s) c' = Some res ∧ (pos ≤ p')%nat
             ∧ (c' = cap ∨ digit_span s c').



(** *** Patterns without [^] match wherever the text stands *)






(** A pattern that reads the text between an opening and a closing
    bracket: [opening(.*?)closing]. *)
Definition bracket_pattern (opening closing : string) : regex :=
  Seqs [Lit opening; lazy_group; Lit closing].

(** *** File names *)

(** [s] holds an upper-case ASCII letter. *)
Definition has_upper (s : string) : Prop :=
  ∃ pre c post, s = pre +:+ String c post ∧ is_upper c = true.

Fixpoint slash_free (s : string) : bool :=
  match s with
  | EmptyString => true
  | String c s' => negb (bool_decide (c = "/"%char)) && slash_free s'
  end.

(** The name of a directory entry: not empty, and without [/]. *)
Definition plain_name (name : string) : Prop :=
  name ≠ "" ∧ slash_free name = true.

#[warnings="-register-all"] Inductive tree_names_plain : dir_tree → Prop :=
  | names_plain files dirs :
      Forall plain_name files →
      Forall (λ d, plain_name d.1) dirs →
      Forall (λ d, tree_names_plain d.2) dirs →
      tree_names_plain (DirTree files dirs).

(** A walk root: empty, or ending in a character other than [/]. *)
Definition ends_plain (root : string) : Prop :=
  root = "" ∨ ∃ pre c, root = pre +:+ String c "" ∧ c ≠ "/"%char.

(** A directory with one video and one other file, and a sub-directory
    with a video whose extension is in upper case. *)
Definition scenario_tree : dir_tree :=
  DirTree ["movie.mkv"; "notes.txt"] [("Show", DirTree ["Show - 01.MKV"] [])].

(** *** Grouping and vocabulary *)

(** The grouping patterns of the files, in the order of the file list. *)
Definition discovered_patterns (cfg : BangumiConfig) (video_files : list string)
    : list string :=
  omap (λ video, fst <$> extract_series_info cfg video) video_files.

(** [word] contains an entry of the tag vocabulary. *)
Definition tag_word (cfg : BangumiConfig) (word : string) : Prop :=
  ∃ tag, tag ∈ common_tags cfg ∧ occurs_in tag word.

(** Two files of one group with the same episode number. *)
Definition scenario_repeated_number : list string :=
  ["Show - 1.mkv"; "Show - 01.mkv"].

(** *** The same-season merge *)

(** [base] holds what [info] held: every numbered episode key, the file of
    the unnumbered episode under some key, and every tag. *)
Definition absorbs (base info : SeriesInfo) : Prop :=
  (∀ k, k ∈ dict_keys (episodes info) → k ≠ "00" → k ∈ dict_keys (episodes base))
  ∧ (∀ p, dict_get "00" (episodes info) = Some p →
          ∃ k, dict_get k (episodes base) = Some p)
  ∧ (∀ t, t ∈ tags info → t ∈ tags base).

(** [info'] is [info] grown, and with at least its tags. *)
Definition extends (info info' : SeriesInfo) : Prop :=
  grows info info' ∧ ∀ t, t ∈ tags info → t ∈ tags info'.

(** What the merge has made of one group of series with the same key: one
    member, [pick], is in the result; it had the highest priority of the
    group, it has absorbed every member, and its episode count has been
    set anew if the group had several members. *)
Definition group_outcome (h h' : heap) (merged' : dict string ref)
    (members : list (string * ref)) : Prop :=
  ∃ pick base base',
    pick ∈ members ∧ pick ∈ merged'
    ∧ h !! pick.2 = Some base ∧ h' !! pick.2 = Some base'
    ∧ extends base base'
    ∧ ((1 < length members)%nat → episode_count base' = dict_len (episodes base'))
    ∧ ∀ pr, pr ∈ members →
        ∃ info, h !! pr.2 = Some info
                ∧ priority_geb (priority_key base) (priority_key info) = true
                ∧ absorbs base' info.

(** One series whose only episode has no number. *)
Definition scenario_unnumbered : heap :=
  [ {| dir_name := "Show"; series_name := "Show"; season := None;
       release_group := None; tags := []; episode_count := 1;
       sample_file := "Show/extra.mkv"; episodes := [("00", "Show/extra.mkv")];
       pattern := "Show/extra.mkv" |} ].

(** *** The cross-season merge *)

(** [info'] is [info] with, possibly, further episode keys; paths may
    have changed. *)
Definition refreshed (info info' : SeriesInfo) : Prop :=
  series_name info' = series_name info
  ∧ season info' = season info
  ∧ release_group info' = release_group info
  ∧ tags info' = tags info
  ∧ ∀ k, k ∈ dict_keys (episodes info) → k ∈ dict_keys (episodes info').

Definition heap_refreshed (h h' : heap) : Prop :=
  ∀ r info, h !! r = Some info → ∃ info', h' !! r = Some info' ∧ refreshed info info'.

(** A [BangumiInfo] in good order: it carries the name it is filed
    under, its season count is the number of its seasons, no season
    number, release group or tag occurs twice, no release group is empty,
    and every season is a series of that name and of that season. *)
Definition bangumi_wf (h : heap) (name : string) (b : BangumiInfo) : Prop :=
  b_series_name b = name
  ∧ season_count b = dict_len (seasons b)
  ∧ NoDup (dict_keys (seasons b))
  ∧ NoDup (release_groups b) ∧ ("" ∉ release_groups b) ∧ NoDup (b_tags b)
  ∧ ∀ n r, dict_get n (seasons b) = Some r →
      ∃ info, h !! r = Some info ∧ series_name info = name
              ∧ season_or_1 (season info) = n.

(** The series [info] has found its place: the [BangumiInfo] of its name
    has a season of its number that holds every episode key of [info],
    and lists its release group and its tags. *)
Definition represented (h' : heap) (bangumi_dict : bangumi_dict_t)
    (info : SeriesInfo) : Prop :=
  ∃ b e season_info,
    dict_get (series_name info) bangumi_dict = Some b
    ∧ dict_get (season_or_1 (season info)) (seasons b) = Some e
    ∧ h' !! e = Some season_info
    ∧ (∀ k, k ∈ dict_keys (episodes info) → k ∈ dict_keys (episodes season_info))
    ∧ (∀ g, release_group info = Some g → g ≠ "" → g ∈ release_groups b)
    ∧ (∀ t, t ∈ tags info → t ∈ b_tags b).

Definition filed (h : heap) (bangumi_dict : bangumi_dict_t) : Prop :=
  NoDup (dict_keys bangumi_dict)
  ∧ ∀ name b, dict_get name bangumi_dict = Some b →
      bangumi_wf h name b ∧ seasons b ≠ [].

(** Every path of every episode map of the heap is one of [files]. *)
Definition paths_from (files : list string) (h : heap) : Prop :=
  ∀ r info kp, h !! r = Some info → kp ∈ episodes info → kp.2 ∈ files.

(** *** Example inputs of the merge stages *)

(** Scenario C with its files, and what the same-season merge returns
    for it. *)
Definition scenario_c_files : heap :=
  scenario_c "Show/Show - 01.mkv" "Show/Show - 02.mkv" "Show/Show special.mkv".

Definition scenario_c_merged : heap * dict string ref :=
  default ([], []) (merge_same_season_series scenario_c_files scenario_c_series).

(** What the cross-season merge returns for the two fragments. *)
Definition scenario_two_fragments_merged : heap * bangumi_dict_t :=
  default ([], [])
    (merge_multi_season_series scenario_two_fragments scenario_two_fragments_series).

End Spec.

(* ===================================================================== *)
(** * Properties of the built-ins *)
(* ===================================================================== *)

Import Py Re Config Core Spec.

(** ** The fuel of a repetition is never used up *)

Lemma rep_opt_respects fuel step hi greedy k1 k2 :
  respects_cont step → cont_equiv k1 k2 →
  cont_equiv (rep_opt fuel step hi greedy k1) (rep_opt fuel step hi greedy k2).
Proof.
  intros Hstep Hk. revert hi.
  induction fuel as [|fuel IH]; intros hi pos rest cap; [done|].
  cbn [rep_opt].
  assert (step pos rest cap
            (λ p r c, if (String.length r <? String.length rest)%nat
                      then rep_opt fuel step (hi_pred hi) greedy k1 p r c
                      else None)
          = step pos rest cap
              (λ p r c, if (String.length r <? String.length rest)%nat
                        then rep_opt fuel step (hi_pred hi) greedy k2 p r c
                        else None)) as ->.
  { apply Hstep. intros p r c. destruct (_ <? _)%nat; [apply IH|done]. }
  rewrite (Hk pos rest cap). done.
Qed.

Lemma rep_min_respects lo step t1 t2 :
  respects_cont step → cont_equiv t1 t2 →
  cont_equiv (rep_min lo step t1) (rep_min lo step t2).
Proof.
  intros Hstep Ht. induction lo as [|lo IH]; intros pos rest cap; cbn [rep_min].
  - apply Ht.
  - by apply Hstep.
Qed.

Lemma mt_respects ic r : respects_cont (mt ic r).
Proof.
  induction r as [|a| |neg items|r1 IH1 r2 IH2|r1 IH1 r2 IH2|r IH lo hi greedy|r IH| |];
    intros k1 k2 Hk pos rest cap; cbn [mt].
  - apply Hk.
  - destruct rest as [|b rest]; [done|]. destruct (chr_eqb ic a b); [apply Hk|done].
  - destruct rest as [|b rest]; [done|]. case_decide; [done|apply Hk].
  - destruct rest as [|b rest]; [done|]. destruct (xorb _ _); [apply Hk|done].
  - apply IH1. intros p s c. by apply IH2.
  - by rewrite (IH1 k1 k2 Hk), (IH2 k1 k2 Hk).
  - apply rep_min_respects; [done|]. intros p s c.
    by apply rep_opt_respects.
  - apply IH. intros p s c. apply Hk.
  - destruct (pos =? 0)%nat; [apply Hk|done].
  - destruct rest as [|b [|??]]; [apply Hk| |done].
    destruct b as [[] [] [] [] [] [] [] []]; first [done | apply Hk].
Qed.

(** Any two amounts of fuel above the length of the unread input give the
    same result: the optional iterations of a repetition come to an end
    before the fuel does. *)
Lemma rep_opt_fuel step hi greedy k f1 f2 pos rest cap :
  respects_cont step →
  (String.length rest < f1)%nat → (String.length rest < f2)%nat →
  rep_opt f1 step hi greedy k pos rest cap
  = rep_opt f2 step hi greedy k pos rest cap.
Proof.
  intros Hstep. revert f2 hi pos rest cap.
  induction f1 as [|f1 IH]; intros [|f2] hi pos rest cap Hf1 Hf2; [lia..|].
  cbn [rep_opt].
  assert (step pos rest cap
            (λ p r c, if (String.length r <? String.length rest)%nat
                      then rep_opt f1 step (hi_pred hi) greedy k p r c
                      else None)
          = step pos rest cap
              (λ p r c, if (String.length r <? String.length rest)%nat
                        then rep_opt f2 step (hi_pred hi) greedy k p r c
                        else None)) as ->; [|done].
  apply Hstep. intros p r c.
  destruct (_ <? _)%nat eqn:Hlt; [|done].
  apply Nat.ltb_lt in Hlt. apply IH; lia.
Qed.

Lemma repetition_fuel ic r hi greedy k fuel pos rest cap :
  (String.length rest < fuel)%nat →
  rep_opt fuel (mt ic r) hi greedy k pos rest cap
  = rep_opt (S (String.length rest)) (mt ic r) hi greedy k pos rest cap.
Proof. intros. apply rep_opt_fuel; [apply mt_respects|lia..]. Qed.

(** ** [str] and the [02d] format *)

Lemma str_app_cons c s t : String c s +:+ t = String c (s +:+ t).
Proof. reflexivity. Qed.

Lemma str_app_nil_l s : "" +:+ s = s.
Proof. reflexivity. Qed.

(** [f"{n:02d}"] prints different numbers differently. *)

Lemma pretty_N_go_head_nonzero x s t :
  (0 < x)%N → pretty_N_go x s ≠ String "0" t.
Proof.
  revert s. induction (N.lt_wf_0 x) as [x _ IH]; intros s Hx.
  rewrite pretty_N_go_step by done.
  destruct (decide (x `div` 10 = 0)%N) as [Hdiv|Hdiv].
  - (* a single digit, and not zero *)
    assert (x < 10)%N as Hlt by (apply N.div_small_iff; [done|lia]).
    rewrite Hdiv, pretty_N_go_0, (N.mod_small x 10 Hlt).
    intros [= Hchar]. revert Hchar.
    rewrite <-(N2Nat.id x).
    assert (0 < N.to_nat x < 10)%nat as Hrange by lia.
    destruct (N.to_nat x) as [|[|[|[|[|[|[|[|[|[|n]]]]]]]]]];
      first [lia | by vm_compute].
  - apply IH; [by apply N.div_lt|]. by apply N.neq_0_lt_0.
Qed.

Lemma pretty_Z_head_nonzero n t : n < 0 ∨ 10 ≤ n → pretty n ≠ String "0" t.
Proof.
  destruct n as [|p|p]; [lia| |by intros _].
  intros _. unfold pretty, pretty_Z, pretty, pretty_positive, pretty, pretty_N.
  case_decide; [done|]. by apply pretty_N_go_head_nonzero.
Qed.

Global Instance fmt_02d_inj : Inj (=) (=) fmt_02d.
Proof.
  intros a b. unfold fmt_02d. repeat case_decide.
  - intros Heq. rewrite !str_app_cons, !str_app_nil_l in Heq.
    simplify_eq. by apply (inj pretty).
  - intros Heq. rewrite str_app_cons, str_app_nil_l in Heq.
    symmetry in Heq. apply pretty_Z_head_nonzero in Heq; [done|lia].
  - intros Heq. rewrite str_app_cons, str_app_nil_l in Heq.
    apply pretty_Z_head_nonzero in Heq; [done|lia].
  - apply (inj pretty).
Qed.

(** ** [dict] *)

Section dict_facts.
Context {K V : Type} `{EqDecision K}.
Implicit Types (d : dict K V) (k : K) (v : V).

Lemma dict_get_Some_elem k v d : dict_get k d = Some v → (k, v) ∈ d.
Proof.
  induction d as [|[k' v'] d IH]; simpl; [done|].
  case_decide; intros ?; simplify_eq; [left | right; auto].
Qed.

Lemma dict_get_None k d : dict_get k d = None ↔ k ∉ dict_keys d.
Proof.
  unfold dict_keys. induction d as [|[k' v'] d IH]; simpl.
  - split; [intros _; apply not_elem_of_nil | done].
  - rewrite not_elem_of_cons. case_decide; [|tauto].
    split; [done | intros [? _]; done].
Qed.

Lemma dict_get_is_Some k d : is_Some (dict_get k d) ↔ k ∈ dict_keys d.
Proof.
  rewrite <-not_eq_None_Some, dict_get_None.
  destruct (decide (k ∈ dict_keys d)); naive_solver.
Qed.

Lemma dict_has_true k d : dict_has k d = true ↔ k ∈ dict_keys d.
Proof.
  rewrite <-dict_get_is_Some. unfold dict_has.
  destruct (dict_get k d); split; intros Hx;
    first [done | by eauto | by destruct Hx].
Qed.

Lemma dict_has_false k d : dict_has k d = false ↔ k ∉ dict_keys d.
Proof. rewrite <-dict_has_true. destruct (dict_has k d); naive_solver. Qed.

Lemma dict_get_elem_NoDup k v d :
  NoDup (dict_keys d) → (k, v) ∈ d → dict_get k d = Some v.
Proof.
  unfold dict_keys. induction d as [|[k' v'] d IH]; simpl.
  - intros _ ?%elem_of_nil. done.
  - intros [Hk Hd]%NoDup_cons [?|Hin]%elem_of_cons; simplify_eq.
    + by case_decide.
    + case_decide; [|auto]. subst. destruct Hk.
      apply list_elem_of_fmap. by exists (k', v).
Qed.

Lemma dict_get_set_eq k v d : dict_get k (dict_set k v d) = Some v.
Proof.
  induction d as [|[k' v'] d IH]; simpl; repeat (case_decide; simpl); done.
Qed.

Lemma dict_get_set_ne k k' v d :
  k ≠ k' → dict_get k' (dict_set k v d) = dict_get k' d.
Proof.
  intros ?. induction d as [|[k0 v0] d IH]; simpl.
  - by case_decide.
  - case_decide; simpl; case_decide; simplify_eq; try done.
    by case_decide.
Qed.

Lemma dict_set_fresh k v d : k ∉ dict_keys d → dict_set k v d = d ++ [(k, v)].
Proof.
  unfold dict_keys. induction d as [|[k' v'] d IH]; simpl; [done|].
  intros [??]%not_elem_of_cons. case_decide; [done|]. by rewrite IH.
Qed.

Lemma dict_keys_set k v d :
  dict_keys (dict_set k v d)
  = if dict_has k d then dict_keys d else dict_keys d ++ [k].
Proof.
  unfold dict_keys, dict_has. induction d as [|[k' v'] d IH]; simpl; [done|].
  case_decide; simplify_eq; simpl; [done|].
  destruct (dict_get k d); simpl; f_equal; exact IH.
Qed.

Lemma dict_set_NoDup k v d : NoDup (dict_keys d) → NoDup (dict_keys (dict_set k v d)).
Proof.
  intros Hd. rewrite dict_keys_set.
  destruct (dict_has k d) eqn:Hk; [done|].
  apply dict_has_false in Hk. apply NoDup_app. split_and!; [done| |].
  - intros x ? ->%list_elem_of_singleton. done.
  - apply NoDup_singleton.
Qed.

End dict_facts.

Section sort_facts.
Context {A : Type} (leb : A → A → bool).

Lemma sort_insert_perm x l : sort_insert leb x l ≡ₚ x :: l.
Proof.
  induction l as [|y l IH]; simpl; [done|].
  destruct (leb x y); [done|]. rewrite IH. apply Permutation_swap.
Qed.

Lemma list_sort_perm l : list_sort leb l ≡ₚ l.
Proof.
  induction l as [|x l IH]; [done|].
  change (list_sort leb (x :: l)) with (sort_insert leb x (list_sort leb l)).
  by rewrite sort_insert_perm, IH.
Qed.

Lemma list_sort_nil_inv l : list_sort leb l = [] → l = [].
Proof.
  intros Hl. apply Permutation_nil_r. rewrite <-Hl. symmetry. apply list_sort_perm.
Qed.

(** Whenever [leb] is total, insertion keeps a list sorted. *)
Context (leb_total : ∀ a b, leb a b = false → leb b a = true).

Lemma sort_insert_HdRel y x l :
  leb y x → HdRel (λ a b, leb a b) y l → HdRel (λ a b, leb a b) y (sort_insert leb x l).
Proof.
  intros Hyx Hl. destruct l as [|z l]; simpl; [by constructor|].
  destruct (leb x z); constructor; [done|]. by inversion Hl.
Qed.

Lemma sort_insert_Sorted x l :
  Sorted (λ a b, leb a b) l → Sorted (λ a b, leb a b) (sort_insert leb x l).
Proof.
  induction 1 as [|y l Hl IH Hy]; simpl; [by repeat constructor|].
  destruct (leb x y) eqn:Hxy.
  - constructor; [by constructor|]. constructor. by rewrite Hxy.
  - constructor; [done|]. apply sort_insert_HdRel; [|done].
    by rewrite (leb_total _ _ Hxy).
Qed.

Lemma list_sort_Sorted l : Sorted (λ a b, leb a b) (list_sort leb l).
Proof.
  induction l as [|x l IH]; [constructor|]. by apply sort_insert_Sorted.
Qed.
End sort_facts.

Lemma tuple_leb_le a b : tuple_leb a b ↔ tuple_le a b.
Proof.
  unfold tuple_leb, tuple_le, String.le.
  rewrite orb_True, andb_True, !Is_true_true, Z.ltb_lt, Z.eqb_eq. done.
Qed.

Lemma tuple_leb_total a b : tuple_leb a b = false → tuple_leb b a = true.
Proof.
  unfold tuple_leb. intros [H1 H2]%orb_false_iff.
  apply Z.ltb_ge in H1. apply orb_true_iff.
  destruct (decide (a.1 = b.1)) as [Heq|]; [|left; apply Z.ltb_lt; lia].
  right. rewrite Heq, Z.eqb_refl in *. simpl in *.
  destruct (String.leb_total a.2 b.2); congruence.
Qed.

Global Instance tuple_le_trans : Transitive tuple_le.
Proof.
  intros a b c [?|[? Hab]] [?|[? Hbc]]; unfold tuple_le; [left; lia..|].
  right. split; [lia|]. by etrans.
Qed.

Lemma list_sort_tuple_StronglySorted l :
  StronglySorted tuple_le (list_sort tuple_leb l).
Proof.
  apply Sorted_StronglySorted; [apply _|].
  eapply Sorted_ind with (P := Sorted tuple_le);
    [constructor| |apply (list_sort_Sorted tuple_leb tuple_leb_total l)].
  intros x l' _ IH Hhd. constructor; [done|].
  destruct Hhd; constructor. by apply tuple_leb_le.
Qed.

(* ===================================================================== *)
(** * Properties of the analysis stage *)
(* ===================================================================== *)

Lemma foldM_cons_inv {A B : Type} (f : A → B → option A) a x l r :
  foldM f a (x :: l) = Some r → ∃ a', f a x = Some a' ∧ foldM f a' l = Some r.
Proof. simpl. destruct (f a x) as [a'|]; [eauto | done]. Qed.

Lemma foldM_app {A B : Type} (f : A → B → option A) a l1 l2 :
  foldM f a (l1 ++ l2) = a' ← foldM f a l1; foldM f a' l2.
Proof.
  revert a. induction l1 as [|x l1 IH]; intros a; simpl; [done|].
  destruct (f a x); simpl; [apply IH | done].
Qed.

Section analysis_facts.
Variable cfg : BangumiConfig.


Lemma extract_series_info_loop_first pre pat post base filename m :
  Forall (λ p, search p base IGNORECASE = None) pre →
  search pat base IGNORECASE = Some m →
  extract_series_info_loop (pre ++ pat :: post) base filename
  = (g ← group1 base m; n ← int g;
     Some (sub pat EP_NUM filename IGNORECASE, n)).
Proof.
  intros Hpre Hm. induction Hpre as [|p ps Hp _ IH]; simpl.
  - by rewrite Hm.
  - by rewrite Hp.
Qed.

(** *** [group_series] *)

Lemma dict_get_append {V : Type} (key p : string) (x : V) (d : dict string (list V)) :
  dict_get key (dict_append p x d)
  = if decide (p = key) then Some (default [] (dict_get key d) ++ [x])
    else dict_get key d.
Proof.
  unfold dict_append. case_decide as Hp.
  - subst. apply dict_get_set_eq.
  - by apply dict_get_set_ne.
Qed.

Lemma collect_step_entries groups video groups' key :
  collect_step cfg groups video = Some groups' →
  default [] (dict_get key groups')
  = default [] (dict_get key groups) ++ entries_for cfg key [video].
Proof.
  unfold collect_step, entries_for. simpl.
  destruct (extract_series_info cfg video) as [[p ep]|]; simpl; [|done].
  intros [= <-]. rewrite dict_get_append.
  case_decide; simpl; [done|]. by rewrite app_nil_r.
Qed.

Lemma entries_for_cons key video files :
  entries_for cfg key (video :: files)
  = entries_for cfg key [video] ++ entries_for cfg key files.
Proof.
  unfold entries_for. simpl.
  by destruct (extract_series_info cfg video) as [[p ep]|]; simpl;
    [case_decide|].
Qed.

Lemma collect_entries acc files groups key :
  foldM (collect_step cfg) acc files = Some groups →
  default [] (dict_get key groups)
  = default [] (dict_get key acc) ++ entries_for cfg key files.
Proof.
  revert acc. induction files as [|video files IH]; intros acc.
  - intros [= <-]. by rewrite app_nil_r.
  - intros (acc' & Hstep & Hrest)%foldM_cons_inv.
    rewrite (IH _ Hrest), (collect_step_entries _ _ _ _ Hstep).
    by rewrite (entries_for_cons key video files), (assoc_L (++)).
Qed.

Lemma collect_wf acc files groups :
  groups_wf acc → foldM (collect_step cfg) acc files = Some groups → groups_wf groups.
Proof.
  revert acc. induction files as [|video files IH]; intros acc Hacc.
  - by intros [= <-].
  - intros (acc' & Hstep & Hrest)%foldM_cons_inv. apply (IH acc'); [|done].
    unfold collect_step in Hstep.
    destruct (extract_series_info cfg video) as [[p ep]|]; simplify_eq/=.
    destruct Hacc as [Hnd Hne]. split; [by apply dict_set_NoDup|].
    intros key l. rewrite dict_get_append. case_decide.
    + intros [= <-]. by destruct (default [] (dict_get key acc)).
    + apply Hne.
Qed.

Lemma dict_get_sort_groups key groups :
  dict_get key (sort_groups groups) = list_sort tuple_leb <$> dict_get key groups.
Proof.
  induction groups as [|[k l] groups IH]; simpl; [done|]. by case_decide.
Qed.

Lemma dict_keys_sort_groups groups :
  dict_keys (sort_groups groups) = dict_keys groups.
Proof.
  unfold dict_keys, sort_groups.
  induction groups as [|[k l] groups IH]; simpl; [done|]. f_equal. exact IH.
Qed.

(** What [group_series] returns for a key: the entries of that key, taken
    in the order of the file list and then sorted as tuples. *)
Lemma group_series_get files groups key l :
  group_series cfg files = Some groups →
  dict_get key groups = Some l →
  l = list_sort tuple_leb (entries_for cfg key files) ∧ l ≠ [].
Proof.
  unfold group_series, collect_groups. intros Hg Hl.
  destruct (foldM _ _ _) as [groups0|] eqn:Hcollect; simplify_eq/=.
  rewrite dict_get_sort_groups in Hl.
  destruct (dict_get key groups0) as [l0|] eqn:Hl0; simplify_eq/=.
  pose proof (collect_entries _ _ _ key Hcollect) as Hentries.
  rewrite Hl0 in Hentries. simpl in Hentries. subst l0.
  split; [done|]. intros Hnil%list_sort_nil_inv.
  assert (groups_wf groups0) as [_ Hne].
  { eapply collect_wf; [|done]. split; [constructor|done]. }
  by apply (Hne _ _ Hl0).
Qed.

Lemma group_series_wf files groups :
  group_series cfg files = Some groups → groups_wf groups.
Proof.
  unfold group_series, collect_groups. intros Hg.
  destruct (foldM _ _ _) as [groups0|] eqn:Hcollect; simplify_eq/=.
  assert (groups_wf groups0) as [Hnd Hne].
  { eapply collect_wf; [|done]. split; [constructor|done]. }
  split; [by rewrite dict_keys_sort_groups|].
  intros key l Hl. rewrite dict_get_sort_groups in Hl.
  destruct (dict_get key groups0) as [l0|] eqn:Hl0; simplify_eq/=.
  intros Hnil%list_sort_nil_inv. by apply (Hne _ _ Hl0).
Qed.

Lemma entries_for_elem key files ep video :
  (ep, video) ∈ entries_for cfg key files ↔
  video ∈ files ∧ extract_series_info cfg video = Some (key, ep).
Proof.
  unfold entries_for. rewrite list_elem_of_omap. split.
  - intros (v & Hv & Hx).
    destruct (extract_series_info cfg v) as [[p n]|] eqn:Hxv; [|done].
    case_decide; simplify_eq. done.
  - intros [Hv Hx]. exists video. split; [done|]. rewrite Hx. by case_decide.
Qed.

Lemma group_series_has files video key ep :
  video ∈ files →
  extract_series_info cfg video = Some (key, ep) →
  ∀ groups, group_series cfg files = Some groups →
  ∃ l, dict_get key groups = Some l ∧ (ep, video) ∈ l.
Proof.
  intros Hv Hx groups Hg.
  assert ((ep, video) ∈ entries_for cfg key files) as Hin
    by by apply entries_for_elem.
  unfold group_series, collect_groups in Hg.
  destruct (foldM _ _ _) as [groups0|] eqn:Hcollect; simplify_eq/=.
  pose proof (collect_entries _ _ _ key Hcollect) as Hentries. simpl in Hentries.
  rewrite dict_get_sort_groups.
  destruct (dict_get key groups0) as [l0|]; simpl in *; subst.
  - eexists; split; [done|]. by rewrite list_sort_perm.
  - rewrite <-Hentries in Hin. by apply elem_of_nil in Hin.
Qed.
End analysis_facts.

Section episode_map_facts.
Implicit Types (acc : dict string string) (videos : list (Z * string)).

Lemma episode_fold_NoDup acc videos :
  NoDup (dict_keys acc) → NoDup (dict_keys (foldl episode_put acc videos)).
Proof.
  revert acc. induction videos as [|v videos IH]; intros acc Hacc; simpl; [done|].
  by apply IH, dict_set_NoDup.
Qed.

Lemma episode_map_NoDup videos : NoDup (dict_keys (episode_map videos)).
Proof. apply episode_fold_NoDup. constructor. Qed.

Lemma episode_fold_get acc videos k p :
  dict_get k (foldl episode_put acc videos) = Some p →
  dict_get k acc = Some p ∨ ∃ n, (n, p) ∈ videos ∧ k = fmt_02d n.
Proof.
  revert acc. induction videos as [|[n q] videos IH]; intros acc; simpl; [by left|].
  intros [Hacc|(m & Hin & ->)]%IH.
  - unfold episode_put in Hacc. simpl in Hacc.
    destruct (decide (fmt_02d n = k)) as [<-|Hne].
    + rewrite dict_get_set_eq in Hacc. simplify_eq. right. exists n.
      split; [left|done].
    + rewrite dict_get_set_ne in Hacc by done. by left.
  - right. exists m. split; [by right|done].
Qed.

Lemma episode_map_get videos k p :
  dict_get k (episode_map videos) = Some p → ∃ n, (n, p) ∈ videos ∧ k = fmt_02d n.
Proof. intros [?|?]%episode_fold_get; [done|done]. Qed.

Lemma episode_fold_keys_mono acc videos k :
  k ∈ dict_keys acc → k ∈ dict_keys (foldl episode_put acc videos).
Proof.
  revert acc. induction videos as [|[n q] videos IH]; intros acc Hk; simpl; [done|].
  apply IH. unfold episode_put. rewrite dict_keys_set.
  destruct (dict_has _ acc); [done|]. apply elem_of_app. by left.
Qed.

Lemma episode_fold_has acc videos n p :
  (n, p) ∈ videos → fmt_02d n ∈ dict_keys (foldl episode_put acc videos).
Proof.
  revert acc. induction videos as [|[m q] videos IH]; intros acc.
  - by intros ?%elem_of_nil.
  - intros [?|Hin]%elem_of_cons; simplify_eq/=; [|by apply IH].
    apply episode_fold_keys_mono, dict_get_is_Some. unfold episode_put.
    rewrite dict_get_set_eq. eauto.
Qed.

Lemma episode_map_has videos n p :
  (n, p) ∈ videos → dict_has (fmt_02d n) (episode_map videos) = true.
Proof. intros Hin. apply dict_has_true. by eapply episode_fold_has. Qed.

Lemma dict_set_length {K V : Type} `{EqDecision K} (k : K) (v : V) d :
  (length (dict_set k v d) ≤ S (length d))%nat.
Proof.
  induction d as [|[k' v'] d IH]; simpl; [lia|]. case_decide; simpl; lia.
Qed.

Lemma episode_fold_length acc videos :
  (length (foldl episode_put acc videos) ≤ length acc + length videos)%nat.
Proof.
  revert acc. induction videos as [|v videos IH]; intros acc; simpl; [lia|].
  etrans; [apply IH|]. unfold episode_put.
  pose proof (dict_set_length (fmt_02d v.1) v.2 acc). lia.
Qed.

Lemma episode_map_length videos :
  (length (episode_map videos) ≤ length videos)%nat.
Proof. apply (episode_fold_length [] videos). Qed.
Lemma episode_fold_length_distinct acc videos :
  NoDup (videos.*1) →
  (∀ v, v ∈ videos → fmt_02d v.1 ∉ dict_keys acc) →
  length (foldl episode_put acc videos) = (length acc + length videos)%nat.
Proof.
  revert acc. induction videos as [|v videos IH]; intros acc Hnd Hfresh.
  - simpl. lia.
  - rewrite fmap_cons in Hnd. apply NoDup_cons in Hnd as [Hv Hnd].
    cbn [foldl]. unfold episode_put at 2.
    rewrite dict_set_fresh by (apply Hfresh; left).
    rewrite IH; [rewrite length_app; simpl; lia|done|].
    intros v' Hv'. unfold dict_keys. rewrite fmap_app.
    intros [Hin|Heq%list_elem_of_singleton]%elem_of_app.
    + by apply (Hfresh v'); [right|].
    + cbn [fmap list_fmap fst] in Heq. apply (inj fmt_02d) in Heq.
      apply Hv. rewrite <-Heq. by apply list_elem_of_fmap_2.
Qed.

(** When the episode numbers of a group are pairwise distinct, the map
    has one entry per file. *)
Lemma episode_map_length_distinct videos :
  NoDup (videos.*1) → length (episode_map videos) = length videos.
Proof.
  intros Hnd. unfold episode_map.
  rewrite episode_fold_length_distinct; [done..|]. by intros ? _ ?%elem_of_nil.
Qed.
End episode_map_facts.

Section analyze_facts.
Variable cfg : BangumiConfig.

Lemma analyze_series_get_from acc groups infos key :
  NoDup (dict_keys groups) →
  foldM (analyze_step cfg) acc groups = Some infos →
  dict_get key infos
  = match dict_get key groups with
    | Some videos => analyze_group cfg key videos
    | None => dict_get key acc
    end.
Proof.
  revert acc. induction groups as [|[k vs] groups IH]; intros acc Hnd.
  - by intros [= <-].
  - intros (acc' & Hstep & Hrest)%foldM_cons_inv.
    apply NoDup_cons in Hnd as [Hk Hnd].
    rewrite (IH _ Hnd Hrest). unfold analyze_step in Hstep. simpl in *.
    destruct (analyze_group cfg k vs) as [info|] eqn:Hinfo; simplify_eq/=.
    case_decide as Hkey.
    + subst k. apply dict_get_None in Hk. rewrite Hk.
      by rewrite dict_get_set_eq.
    + destruct (dict_get key groups); [done|]. by apply dict_get_set_ne.
Qed.

(** Every [SeriesInfo] of the result was built from the group of its key. *)
Lemma analyze_series_get groups infos key info :
  NoDup (dict_keys groups) →
  analyze_series cfg groups = Some infos →
  dict_get key infos = Some info →
  ∃ videos, dict_get key groups = Some videos
            ∧ analyze_group cfg key videos = Some info.
Proof.
  intros Hnd Ha Hi.
  rewrite (analyze_series_get_from [] groups infos key Hnd Ha) in Hi.
  destruct (dict_get key groups) as [videos|]; [eauto|done].
Qed.

Lemma analyze_group_episodes key videos info :
  analyze_group cfg key videos = Some info →
  episodes info = episode_map videos
  ∧ episode_count info = Z.of_nat (length videos).
Proof.
  unfold analyze_group. destruct (head videos) as [[? sample]|]; [|done].
  simpl. destruct (extract_season_info cfg sample); [|done].
  by intros [= <-].
Qed.

(** What [analyze_series] guarantees about the episode map and the
    count: the keys are distinct, the count is the number of files of the
    group, and the map is no larger than that. *)
Lemma analyze_series_episode_count files groups infos key info :
  group_series cfg files = Some groups →
  analyze_series cfg groups = Some infos →
  dict_get key infos = Some info →
  NoDup (dict_keys (episodes info))
  ∧ episode_count info
    = Z.of_nat (length (entries_for cfg key files))
  ∧ dict_len (episodes info) ≤ episode_count info.
Proof.
  intros Hg Ha Hi.
  destruct (group_series_wf cfg _ _ Hg) as [Hnd _].
  destruct (analyze_series_get _ _ _ _ Hnd Ha Hi) as (videos & Hv & Hinfo).
  destruct (analyze_group_episodes _ _ _ Hinfo) as [-> ->].
  destruct (group_series_get cfg _ _ _ _ Hg Hv) as [-> _].
  split_and!.
  - apply episode_map_NoDup.
  - by rewrite list_sort_perm.
  - unfold dict_len. apply inj_le, episode_map_length.
Qed.
(** The count agrees with the size of the map on every group whose files
    carry pairwise distinct episode numbers. *)
Lemma analyze_series_count_when_distinct files groups infos key info :
  group_series cfg files = Some groups →
  analyze_series cfg groups = Some infos →
  dict_get key infos = Some info →
  NoDup ((entries_for cfg key files).*1) →
  episode_count info = dict_len (episodes info).
Proof.
  intros Hg Ha Hi Hdistinct.
  destruct (group_series_wf cfg _ _ Hg) as [Hnd _].
  destruct (analyze_series_get _ _ _ _ Hnd Ha Hi) as (videos & Hv & Hinfo).
  destruct (analyze_group_episodes _ _ _ Hinfo) as [-> ->].
  destruct (group_series_get cfg _ _ _ _ Hg Hv) as [-> _].
  unfold dict_len. f_equal. symmetry. apply episode_map_length_distinct.
  by rewrite list_sort_perm.
Qed.
End analyze_facts.

(* ===================================================================== *)
(** * The claims about the analysis stage *)
(* ===================================================================== *)

(** C1 (episode count of [analyze_series]).  The episode map has distinct
    keys, but [analyze_series] stores [len(videos)], the number of files
    of the group, as the episode count.  On two files of one group that
    carry the same episode number the map has one entry and the count is
    two, so the count differs from the size of the map. *)
Theorem analyze_series_count_on_repeated_number :
  ∃ info,
    parse default_config ["Show - 1.mkv"; "Show - 01.mkv"]
    = Some [("Show  {EP_NUM} ", info)]
    ∧ episodes info = [("01", "Show - 1.mkv")]
    ∧ dict_len (episodes info) = 1
    ∧ episode_count info = 2.
Proof. eexists. split; [vm_compute; reflexivity|]. by vm_compute. Qed.

(** *** The scenarios of the specification, run on the embedding *)

(** Scenario A: two numbered files of one series. *)
Example scenario_a :
  parse default_config ["Show/Show - 01.mkv"; "Show/Show - 02.mkv"]
  = Some [("Show/Show  {EP_NUM} ",
           {| dir_name := "Show"; series_name := "Show"; season := None;
              release_group := None; tags := []; episode_count := 2;
              sample_file := "Show/Show - 01.mkv";
              episodes := [("01", "Show/Show - 01.mkv");
                           ("02", "Show/Show - 02.mkv")];
              pattern := "Show/Show  {EP_NUM} " |})].
Proof. by vm_compute. Qed.

(** Scenario B: ["GroupX"] is not in the vocabulary of release groups,
    ["1080p"] is a tag. *)
Example scenario_b :
  ∃ info,
    parse default_config ["Show/[GroupX][1080p] Show - 01.mkv"]
    = Some [("Show/[GroupX][1080p] Show  {EP_NUM} ", info)]
    ∧ release_group info = None ∧ tags info = ["1080p"].
Proof. eexists. split; [vm_compute; reflexivity|]. by vm_compute. Qed.

(** Scenario D: the season directory gives the season and is skipped in
    the title. *)
Example scenario_d_season :
  ∃ info,
    parse default_config ["Show/Season 2/Show - 01.mkv"]
    = Some [("Show/Season 2/Show  {EP_NUM} ", info)]
    ∧ series_name info = "Show" ∧ season info = Some 2.
Proof. eexists. split; [vm_compute; reflexivity|]. by vm_compute. Qed.

(** Scenario E: no episode pattern matches; the title comes from the file
    name. *)
Example scenario_e :
  ∃ info,
    parse default_config ["movie.mkv"] = Some [("movie.mkv", info)]
    ∧ series_name info = "movie" ∧ episodes info = [("00", "movie.mkv")].
Proof. eexists. split; [vm_compute; reflexivity|]. by vm_compute. Qed.

(** C6 as stated fails: on two files of one group with the same episode
    number, [group_series] puts the file that was discovered second
    first. *)
Lemma group_series_breaks_discovery_order :
  ¬ (∀ cfg files groups key l,
       group_series cfg files = Some groups →
       dict_get key groups = Some l →
       ties_in_discovery_order files l).
Proof.
  intros Hspec.
  destruct (Hspec default_config ["Show - 1.mkv"; "Show - 01.mkv"]
              [("Show  {EP_NUM} ", [(1, "Show - 01.mkv"); (1, "Show - 1.mkv")])]
              "Show  {EP_NUM} " [(1, "Show - 01.mkv"); (1, "Show - 1.mkv")]
              ltac:(by vm_compute) ltac:(by vm_compute)
              0%nat 1%nat (1, "Show - 01.mkv") (1, "Show - 1.mkv")
              ltac:(lia) eq_refl eq_refl eq_refl)
    as (i' & j' & Hlt & Hi & Hj).
  destruct i' as [|[|i']]; simplify_eq/=.
  destruct j' as [|[|j']]; simplify_eq/=. lia.
Qed.

Lemma StronglySorted_impl {A : Type} (R1 R2 : relation A) l :
  (∀ a b, R1 a b → R2 a b) → StronglySorted R1 l → StronglySorted R2 l.
Proof.
  intros HR. induction 1 as [|x l _ IH Hx]; constructor; [done|].
  eapply Forall_impl; [done|]. eauto.
Qed.

Lemma StronglySorted_lookup {A : Type} (R : relation A) l i j a b :
  StronglySorted R l → (i < j)%nat → l !! i = Some a → l !! j = Some b → R a b.
Proof.
  intros Hl. revert i j. induction Hl as [|x l _ IH Hx]; intros i j Hij.
  - by rewrite lookup_nil.
  - destruct j as [|j]; [lia|]. destruct i as [|i]; simpl.
    + intros [= <-] Hb. rewrite Forall_forall in Hx.
      by apply Hx, list_elem_of_lookup_2 with j.
    + apply IH. lia.
Qed.

(** C6, amended.  [group_series] sorts the [(episode number, path)]
    tuples of a key as tuples: the list of a key is a rearrangement of the
    key's entries, ascending in the episode number, and entries with equal
    episode numbers are in ascending order of their paths. *)
Theorem group_series_sorted_as_tuples cfg files groups key l :
  group_series cfg files = Some groups →
  dict_get key groups = Some l →
  l ≡ₚ entries_for cfg key files
  ∧ StronglySorted tuple_le l
  ∧ StronglySorted (λ a b, a.1 ≤ b.1) l
  ∧ ∀ i j a b, (i < j)%nat → l !! i = Some a → l !! j = Some b →
      a.1 = b.1 → String.le a.2 b.2.
Proof.
  intros Hg Hl. destruct (group_series_get cfg _ _ _ _ Hg Hl) as [-> _].
  pose proof (list_sort_tuple_StronglySorted (entries_for cfg key files)) as Hs.
  split_and!; [apply list_sort_perm|done|..].
  - eapply StronglySorted_impl; [|done]. intros a b [?|[? _]]; lia.
  - intros i j a b Hij Ha Hb Heq.
    destruct (StronglySorted_lookup _ _ _ _ _ _ Hs Hij Ha Hb) as [?|[_ ?]];
      [lia|done].
Qed.

Lemma group_series_sorted_as_tuples_witness :
  [(1, "Show - 01.mkv"); (1, "Show - 1.mkv")]
    ≡ₚ entries_for default_config "Show  {EP_NUM} " ["Show - 1.mkv"; "Show - 01.mkv"]
  ∧ StronglySorted tuple_le [(1, "Show - 01.mkv"); (1, "Show - 1.mkv")].
Proof.
  destruct (group_series_sorted_as_tuples default_config
              ["Show - 1.mkv"; "Show - 01.mkv"]
              [("Show  {EP_NUM} ", [(1, "Show - 01.mkv"); (1, "Show - 1.mkv")])]
              "Show  {EP_NUM} " [(1, "Show - 01.mkv"); (1, "Show - 1.mkv")])
    as (Hperm & Hsorted & _).
  - by vm_compute.
  - by vm_compute.
  - by split.
Defined.

(** C5 (what is replaced).  The comment in the code says that the
    episode number is replaced by a placeholder, and the specification
    that the matched span, and only that span, is replaced.  The pattern
    is searched in the base name, but [re.sub] then runs over the whole
    path and without a count.  On ["Vol_1_/Show_02_.mkv"] the first
    pattern matches [_02_] in the base name; replacing that span gives
    ["Vol_1_/Show {EP_NUM} .mkv"], while the code also rewrites [_1_] in
    the directory name. *)
Theorem extract_series_info_rewrites_the_directory :
  ∃ pat rest m,
    episode_patterns default_config = pat :: rest
    ∧ search pat (basename "Vol_1_/Show_02_.mkv") IGNORECASE = Some m
    ∧ group0 (basename "Vol_1_/Show_02_.mkv") m = "_02_"
    ∧ group1 (basename "Vol_1_/Show_02_.mkv") m = Some "02"
    ∧ replace_span (7 + m_start m) (7 + m_end m) EP_NUM "Vol_1_/Show_02_.mkv"
      = "Vol_1_/Show {EP_NUM} .mkv"
    ∧ extract_series_info default_config "Vol_1_/Show_02_.mkv"
      = Some ("Vol {EP_NUM} /Show {EP_NUM} .mkv", 2).
Proof.
  eexists _, _, (MkMatch 4 8 (Some (5, 7)%nat)).
  split; [reflexivity|]. by vm_compute.
Qed.

(** Stated for every configuration and path, the replacement of the
    matched span alone is refuted by the same input. *)
Lemma extract_series_info_replaces_more_than_the_span :
  ¬ (∀ cfg filename pre pat post m g n,
       episode_patterns cfg = pre ++ pat :: post →
       Forall (λ p, search p (basename filename) IGNORECASE = None) pre →
       search pat (basename filename) IGNORECASE = Some m →
       group1 (basename filename) m = Some g →
       int g = Some n →
       let off := (String.length filename - String.length (basename filename))%nat in
       extract_series_info cfg filename
       = Some (replace_span (off + m_start m) (off + m_end m) EP_NUM filename, n)).
Proof.
  intros Hspec.
  specialize (Hspec default_config "Vol_1_/Show_02_.mkv" []
                _ _ (MkMatch 4 8 (Some (5, 7)%nat)) "02" 2
                eq_refl ltac:(constructor)
                ltac:(by vm_compute) ltac:(by vm_compute) ltac:(by vm_compute)).
  vm_compute in Hspec. discriminate Hspec.
Qed.

(** A match in a directory name alone does not count: the search runs on
    the base name. *)
Example extract_series_info_ignores_directory_matches :
  search (Seqs [Chr "_"; Group (Digits 1 2); Chr "_"]) "Show_01_/movie.mkv" IGNORECASE
  = Some (MkMatch 4 8 (Some (5, 7)%nat))
  ∧ extract_series_info default_config "Show_01_/movie.mkv"
    = Some ("Show_01_/movie.mkv", 0).
Proof. split; by vm_compute. Qed.

(** What the function computes: when some episode pattern matches the
    base name, the integer parsed from group 1 of the first such pattern
    in list order, together with the full path in which [re.sub] has
    replaced the matches of that pattern by the placeholder. *)
Lemma extract_series_info_first_match cfg filename pre pat post m g n :
  episode_patterns cfg = pre ++ pat :: post →
  Forall (λ p, search p (basename filename) IGNORECASE = None) pre →
  search pat (basename filename) IGNORECASE = Some m →
  group1 (basename filename) m = Some g →
  int g = Some n →
  extract_series_info cfg filename
  = Some (splice " {EP_NUM} " (finditer pat filename IGNORECASE) 0 filename, n).
Proof.
  intros Hpats Hpre Hm Hg Hn. unfold extract_series_info.
  rewrite Hpats, (extract_series_info_loop_first _ _ _ _ _ m Hpre Hm), Hg.
  simpl. by rewrite Hn.
Qed.

Lemma extract_series_info_first_match_witness :
  extract_series_info default_config "Vol_1_/Show_02_.mkv"
  = Some ("Vol {EP_NUM} /Show {EP_NUM} .mkv", 2).
Proof.
  rewrite (extract_series_info_first_match default_config "Vol_1_/Show_02_.mkv" []
             _ _ (MkMatch 4 8 (Some (5, 7)%nat)) "02" 2
             eq_refl ltac:(constructor)
             ltac:(by vm_compute) ltac:(by vm_compute) ltac:(by vm_compute)).
  by vm_compute.
Defined.

(* ===================================================================== *)
(** * Vocabulary lookups *)
(* ===================================================================== *)

Lemma str_startswith_spec p s :
  str_startswith p s = true ↔ ∃ post, s = p +:+ post.
Proof.
  revert s. induction p as [|a p IH]; intros s; simpl.
  - split; [by exists s|done].
  - destruct s as [|b s]; [split; [done|by intros [? ?]]|].
    rewrite andb_true_iff, bool_decide_eq_true, IH. split.
    + intros [-> [post ->]]. by exists post.
    + intros [post Hpost]. rewrite str_app_cons in Hpost. simplify_eq. eauto.
Qed.

(** Python's [sub in s] holds exactly when [sub] occurs in [s]. *)
Lemma str_in_spec sub s : str_in sub s = true ↔ occurs_in sub s.
Proof.
  unfold occurs_in. induction s as [|c s IH]; simpl.
  - rewrite orb_false_r, str_startswith_spec. split.
    + intros [post Hpost]. by exists "", post.
    + intros ([|??] & post & Hpost); [by exists post|done].
  - rewrite orb_true_iff, str_startswith_spec, IH. split.
    + intros [[post Hpost]|(pre & post & ->)].
      * by exists "", post.
      * by exists (String c pre), post.
    + intros ([|c' pre] & post & Hpost).
      * left. by exists post.
      * right. rewrite str_app_cons in Hpost. simplify_eq. eauto.
Qed.

Lemma str_in_false sub s : str_in sub s = false ↔ ¬ occurs_in sub s.
Proof. rewrite <-str_in_spec. by destruct (str_in sub s). Qed.

Section vocabulary_facts.
Variable cfg : BangumiConfig.

Lemma find_none_intro {A : Type} (f : A → bool) l :
  (∀ x, x ∈ l → f x = false) → List.find f l = None.
Proof.
  induction l as [|x l IH]; simpl; [done|]. intros Hf.
  rewrite (Hf x) by left. apply IH. intros y Hy. apply Hf. by right.
Qed.

Lemma identify_release_group_Some parameters group :
  identify_release_group cfg parameters = Some group →
  group ∈ known_release_groups cfg ∧ ∃ param, param ∈ parameters ∧ occurs_in group param.
Proof.
  induction parameters as [|param parameters IH]; simpl; [done|].
  destruct (List.find _ _) as [g|] eqn:Hfind.
  - intros [= ->]. apply find_some in Hfind as [Hin Hg].
    split; [by apply list_elem_of_In|].
    exists param. split; [left|by apply str_in_spec].
  - intros [? (p & ? & ?)]%IH. split; [done|]. exists p. split; [by right|done].
Qed.

Lemma extract_tags_words_ok tags words :
  tags_ok cfg tags →
  tags_ok cfg (foldl (λ tags word,
                    if existsb (λ tag, str_in tag word) (common_tags cfg)
                    then append_new tags word else tags) tags words).
Proof.
  revert tags. induction words as [|w words IH]; intros tags Hok; simpl; [done|].
  apply IH. destruct (existsb _ _) eqn:Hex; [|done].
  unfold append_new. case_bool_decide; [done|].
  intros word [?| ->%list_elem_of_singleton]%elem_of_app; [by apply Hok|].
  apply existsb_exists in Hex as (tag & Hin & Htag).
  exists tag. split; [by apply list_elem_of_In|by apply str_in_spec].
Qed.

Lemma extract_tags_ok parameters : tags_ok cfg (extract_tags cfg parameters).
Proof.
  unfold extract_tags.
  assert (tags_ok cfg []) as Hnil by (by intros ? ?%elem_of_nil).
  revert Hnil. generalize (@nil string).
  induction parameters as [|param parameters IH]; intros tags Hok; simpl.
  - done.
  - by apply IH, extract_tags_words_ok.
Qed.
End vocabulary_facts.

(** C10 (vocabulary lookups are case-sensitive).  Release groups and tags
    are recognised by exact substring containment.  When no configured
    release group occurs character for character in any bracket token,
    [identify_release_group] returns [None], and a word in which no
    configured tag occurs character for character is not among the tags
    that [extract_tags] returns -- whether or not an entry occurs up to
    letter case. *)
Theorem vocabulary_lookup_is_case_sensitive cfg parameters word :
  (∀ group param, group ∈ known_release_groups cfg → param ∈ parameters →
     ¬ occurs_in group param) →
  (∀ tag, tag ∈ common_tags cfg → ¬ occurs_in tag word) →
  identify_release_group cfg parameters = None
  ∧ word ∉ extract_tags cfg parameters.
Proof.
  intros Hgroups Htags. split.
  - destruct (identify_release_group cfg parameters) as [group|] eqn:Hid; [|done].
    apply identify_release_group_Some in Hid as (Hg & param & Hp & Hocc).
    by destruct (Hgroups group param).
  - intros (tag & Htag & Hocc)%extract_tags_ok. by destruct (Htags tag).
Qed.

(** ["lolihouse hevc"] contains the release group ["LoliHouse"] and the
    tag ["HEVC"] up to letter case only, and neither is recognised; the
    episode patterns, in contrast, match in either case. *)
Lemma vocabulary_lookup_is_case_sensitive_witness :
  occurs_ignoring_case "LoliHouse" "lolihouse hevc"
  ∧ occurs_ignoring_case "HEVC" "hevc"
  ∧ identify_release_group default_config ["lolihouse hevc"] = None
  ∧ ("hevc" ∉ extract_tags default_config ["lolihouse hevc"])
  ∧ extract_series_info default_config "Show EP07.mkv"
    = Some ("Show  {EP_NUM} .mkv", 7)
  ∧ extract_series_info default_config "Show ep07.mkv"
    = Some ("Show  {EP_NUM} .mkv", 7).
Proof.
  split_and!.
  - by apply str_in_spec.
  - by apply str_in_spec.
  - apply (vocabulary_lookup_is_case_sensitive default_config
             ["lolihouse hevc"] "hevc").
    + intros group param Hg ->%list_elem_of_singleton. apply str_in_false.
      revert group Hg. apply Forall_forall.
      repeat (constructor; [by vm_compute|]). constructor.
    + intros tag Htag. apply str_in_false.
      revert tag Htag. apply Forall_forall.
      repeat (constructor; [by vm_compute|]). constructor.
  - apply (vocabulary_lookup_is_case_sensitive default_config
             ["lolihouse hevc"] "hevc").
    + intros group param Hg ->%list_elem_of_singleton. apply str_in_false.
      revert group Hg. apply Forall_forall.
      repeat (constructor; [by vm_compute|]). constructor.
    + intros tag Htag. apply str_in_false.
      revert tag Htag. apply Forall_forall.
      repeat (constructor; [by vm_compute|]). constructor.
  - by vm_compute.
  - by vm_compute.
Defined.

(* ===================================================================== *)
(** * Synthetic episode keys *)
(* ===================================================================== *)

Global Instance unknown_key_inj : Inj (=) (=) unknown_key.
Proof. intros a b Heq. unfold unknown_key in Heq. by apply (inj _), (inj fmt_02d) in Heq. Qed.

(** A map that holds the keys numbered [1] to [c] has at least [c]
    entries. *)
Lemma unknown_keys_bound (eps : dict string string) c :
  0 ≤ c →
  (∀ j, 1 ≤ j ≤ c → unknown_key j ∈ dict_keys eps) →
  (Z.to_nat c ≤ length eps)%nat.
Proof.
  intros Hc Hkeys.
  assert (unknown_key <$> seqZ 1 c ⊆+ dict_keys eps) as Hsub.
  { apply NoDup_submseteq.
    - apply (NoDup_fmap_2 _), NoDup_seqZ.
    - intros k (j & -> & Hj)%list_elem_of_fmap. apply Hkeys.
      apply elem_of_seqZ in Hj. lia. }
  apply submseteq_length in Hsub.
  unfold dict_keys in Hsub. by rewrite !length_fmap, length_seqZ in Hsub.
Qed.

Lemma probe_unknown_spec fuel (eps : dict string string) counter :
  1 ≤ counter →
  (∀ j, 1 ≤ j < counter → unknown_key j ∈ dict_keys eps) →
  (length eps ≤ Z.to_nat (counter - 1) + fuel)%nat →
  ∃ n, counter ≤ n
       ∧ probe_unknown fuel eps counter (unknown_key counter) = Some (unknown_key n)
       ∧ (unknown_key n ∉ dict_keys eps)
       ∧ ∀ j, 1 ≤ j < n → unknown_key j ∈ dict_keys eps.
Proof.
  revert counter. induction fuel as [|fuel IH]; intros counter Hc Hbelow Hfuel.
  - simpl. destruct (dict_has _ eps) eqn:Hhas.
    + apply dict_has_true in Hhas.
      assert (Z.to_nat counter ≤ length eps)%nat.
      { apply unknown_keys_bound; [lia|]. intros j Hj.
        destruct (decide (j = counter)) as [->|]; [done|]. apply Hbelow. lia. }
      lia.
    + apply dict_has_false in Hhas. exists counter. split_and!; [lia|done..].
  - simpl. destruct (dict_has _ eps) eqn:Hhas.
    + apply dict_has_true in Hhas.
      destruct (IH (counter + 1)) as (n & ? & ? & ? & ?); [lia| |lia|].
      * intros j Hj. destruct (decide (j = counter)) as [->|]; [done|].
        apply Hbelow. lia.
      * exists n. split_and!; [lia|done..].
    + apply dict_has_false in Hhas. exists counter. split_and!; [lia|done..].
Qed.

Lemma unknown_key_1 : unknown_key 1 = "未知集01".
Proof. reflexivity. Qed.

(** The probing loop ends, on the least positive number whose key is free. *)
Lemma next_unknown_spec (eps : dict string string) :
  ∃ n, 1 ≤ n
       ∧ next_unknown eps = Some (unknown_key n)
       ∧ (unknown_key n ∉ dict_keys eps)
       ∧ ∀ j, 1 ≤ j < n → unknown_key j ∈ dict_keys eps.
Proof.
  unfold next_unknown. rewrite <-unknown_key_1.
  apply probe_unknown_spec; [lia| intros; lia | simpl; lia].
Qed.

Lemma merge_episode_zero (main_episodes : dict string string) file_path :
  ∃ n, 1 ≤ n
       ∧ merge_episode main_episodes ("00", file_path)
         = Some (main_episodes ++ [(unknown_key n, file_path)])
       ∧ (unknown_key n ∉ dict_keys main_episodes)
       ∧ ∀ j, 1 ≤ j < n → unknown_key j ∈ dict_keys main_episodes.
Proof.
  destruct (next_unknown_spec main_episodes) as (n & Hn & Hnext & Hfree & Hmin).
  exists n. split_and!; [done| |done..].
  unfold merge_episode. case_decide; [|done]. rewrite Hnext. simpl.
  by rewrite dict_set_fresh.
Qed.

(** C7 as stated fails on the spelling of the synthetic key: in
    scenario C the merged map has no key ["unknown-01"]. *)
Lemma scenario_c_has_no_key_unknown_01 :
  ¬ (∀ f1 f2 f0 h' merged base,
       merge_same_season_series (scenario_c f1 f2 f0) scenario_c_series
       = Some (h', merged) →
       h' !! 0%nat = Some base →
       dict_keys (episodes base) = ["01"; "02"; "unknown-01"]).
Proof.
  intros Hspec.
  specialize (Hspec "Show/Show - 01.mkv" "Show/Show - 02.mkv" "Show/Show special.mkv"
                _ _ _ eq_refl eq_refl).
  vm_compute in Hspec. discriminate Hspec.
Qed.

(** C7, amended.  In a fold of [merge_same_season_series] an incoming
    episode keyed ["00"] is appended to the base map under the synthetic
    key ["未知集"] followed by [N] printed with at least two digits, where
    [N] is the least positive integer whose key is not yet in the base
    map; no entry of the base map is overwritten.  In scenario C the
    merged map has the keys ["01"], ["02"] and ["未知集01"]. *)
Theorem zero_episode_takes_next_synthetic_key :
  (∀ (main_episodes : dict string string) file_path,
     ∃ n, 1 ≤ n
          ∧ merge_episode main_episodes ("00", file_path)
            = Some (main_episodes ++ [("未知集" +:+ fmt_02d n, file_path)])
          ∧ ("未知集" +:+ fmt_02d n ∉ dict_keys main_episodes)
          ∧ ∀ j, 1 ≤ j < n → "未知集" +:+ fmt_02d j ∈ dict_keys main_episodes)
  ∧ (∀ f1 f2 f0,
       ∃ h' base,
         merge_same_season_series (scenario_c f1 f2 f0) scenario_c_series
         = Some (h', [("numbered", 0%nat)])
         ∧ h' !! 0%nat = Some base
         ∧ episodes base = [("01", f1); ("02", f2); ("未知集01", f0)]
         ∧ episode_count base = 3).
Proof.
  split.
  - intros main_episodes file_path. apply merge_episode_zero.
  - intros f1 f2 f0. by eexists _, _.
Qed.

(** Scenario C as it arises from a directory: two numbered files and one
    file without a number. *)
Example scenario_c_from_parse :
  ∃ h bangumi base,
    parse_and_merge default_config
      ["Show/Show - 01.mkv"; "Show/Show - 02.mkv"; "Show/Show special.mkv"]
    = Some (h, [("Show", bangumi)])
    ∧ seasons bangumi = [(1, 0%nat)]
    ∧ total_episodes bangumi = 3
    ∧ h !! 0%nat = Some base
    ∧ episodes base = [("01", "Show/Show - 01.mkv"); ("02", "Show/Show - 02.mkv");
                       ("未知集01", "Show/Show special.mkv")].
Proof. eexists _, _, _. split; [vm_compute; reflexivity|]. by vm_compute. Qed.

Lemma zero_episode_takes_next_synthetic_key_witness :
  ∃ n, 1 ≤ n
       ∧ merge_episode [("01", "A/01.mkv"); ("未知集01", "A/sp1.mkv")] ("00", "A/sp2.mkv")
         = Some ([("01", "A/01.mkv"); ("未知集01", "A/sp1.mkv")]
                 ++ [("未知集" +:+ fmt_02d n, "A/sp2.mkv")])
       ∧ merge_episode [("01", "A/01.mkv"); ("未知集01", "A/sp1.mkv")] ("00", "A/sp2.mkv")
         = Some [("01", "A/01.mkv"); ("未知集01", "A/sp1.mkv"); ("未知集02", "A/sp2.mkv")].
Proof.
  destruct (proj1 zero_episode_takes_next_synthetic_key
              [("01", "A/01.mkv"); ("未知集01", "A/sp1.mkv")] "A/sp2.mkv")
    as (n & Hn & Hmerge & _).
  exists n. split_and!; [exact Hn|exact Hmerge|reflexivity].
Defined.

(* ===================================================================== *)
(** * Properties of [merge_same_season_series] *)
(* ===================================================================== *)

Lemma grows_refl info : grows info info.
Proof. split; [done|]. by intros ??. Qed.

Lemma objects_grow_refl h : objects_grow h h.
Proof. intros r info ?. exists info. split; [done|apply grows_refl]. Qed.

Lemma objects_grow_trans h1 h2 h3 :
  objects_grow h1 h2 → objects_grow h2 h3 → objects_grow h1 h3.
Proof.
  intros H12 H23 r info Hr.
  destruct (H12 _ _ Hr) as (info2 & Hr2 & Hkey2 & Heps2).
  destruct (H23 _ _ Hr2) as (info3 & Hr3 & Hkey3 & Heps3).
  exists info3. split; [done|]. split; [congruence|].
  intros k v ?. auto.
Qed.

Lemma dict_set_fresh_kept k v (d : dict string string) :
  k ∉ dict_keys d → dict_kept d (dict_set k v d).
Proof.
  intros Hk k' v' Hget. rewrite dict_get_set_ne; [done|].
  intros ->. apply dict_get_None in Hk. congruence.
Qed.

Lemma merge_episode_kept eps item eps' :
  merge_episode eps item = Some eps' → dict_kept eps eps'.
Proof.
  destruct item as [ep_num file_path]. unfold merge_episode.
  case_decide.
  - destruct (next_unknown_spec eps) as (n & _ & -> & Hfree & _). simpl.
    intros [= <-]. by apply dict_set_fresh_kept.
  - destruct (dict_has ep_num eps) eqn:Hhas; intros [= <-]; [by intros ??|].
    by apply dict_set_fresh_kept, dict_has_false.
Qed.

Lemma merge_episodes_kept eps items eps' :
  foldM merge_episode eps items = Some eps' → dict_kept eps eps'.
Proof.
  revert eps. induction items as [|item items IH]; intros eps.
  - intros [= <-]. by intros ??.
  - intros (eps1 & H1%merge_episode_kept & H2%IH)%foldM_cons_inv.
    intros k v ?. auto.
Qed.

Lemma insert_grows (h : heap) r info info' :
  h !! r = Some info → grows info info' → objects_grow h (<[r := info']> h).
Proof.
  intros Hr Hgrows r' i Hr'.
  destruct (decide (r' = r)) as [->|Hne].
  - exists info'. rewrite list_lookup_insert_eq by by eapply lookup_lt_Some.
    by simplify_eq.
  - exists i. rewrite list_lookup_insert_ne by done. split; [done|apply grows_refl].
Qed.

Lemma merge_into_grows main_ref h r h' :
  merge_into main_ref h r = Some h' → objects_grow h h'.
Proof.
  unfold merge_into. intros Hm.
  destruct (h !! main_ref) as [main_info|] eqn:Hmain; simplify_eq/=.
  destruct (h !! r) as [info|] eqn:Hr; simplify_eq/=.
  case_decide.
  - destruct (dict_has _ _); simplify_eq. apply objects_grow_refl.
  - destruct (foldM merge_episode _ _) as [eps|] eqn:Heps; simplify_eq/=.
    apply merge_episodes_kept in Heps.
    eapply insert_grows; [done|].
    by destruct (_ && _); split.
Qed.

Lemma merge_all_into_grows main_ref h refs h' :
  foldM (merge_into main_ref) h refs = Some h' → objects_grow h h'.
Proof.
  revert h. induction refs as [|r refs IH]; intros h.
  - intros [= <-]. apply objects_grow_refl.
  - intros (h1 & H1%merge_into_grows & H2%IH)%foldM_cons_inv.
    by eapply objects_grow_trans.
Qed.

Lemma merge_members_grows h merged series_list h' merged' :
  merge_members h merged series_list = Some (h', merged') → objects_grow h h'.
Proof.
  unfold merge_members. intros Hm.
  destruct (sort_by_priority h series_list) as [sorted|]; simplify_eq/=.
  destruct (head sorted) as [[main_pattern main_ref]|]; simplify_eq/=.
  destruct (foldM _ _ _) as [h1|] eqn:Hfold; simplify_eq/=.
  destruct (h1 !! main_ref) as [main_info|] eqn:Hmain; simplify_eq/=.
  eapply objects_grow_trans; [by eapply merge_all_into_grows|].
  eapply insert_grows; [done|]. split; [done|]. by intros ??.
Qed.

Lemma merge_group_grows h merged group h' merged' :
  merge_group (h, merged) group = Some (h', merged') → objects_grow h h'.
Proof.
  unfold merge_group.
  destruct group as [key [|[pattern r] [|pr series_list]]];
    [apply merge_members_grows| |apply merge_members_grows].
  intros [= <- <-]. apply objects_grow_refl.
Qed.

Lemma merge_groups_grows h merged groups h' merged' :
  foldM merge_group (h, merged) groups = Some (h', merged') → objects_grow h h'.
Proof.
  revert h merged. induction groups as [|group groups IH]; intros h merged.
  - intros [= <- <-]. apply objects_grow_refl.
  - intros ([h1 merged1] & H1%merge_group_grows & H2%IH)%foldM_cons_inv.
    by eapply objects_grow_trans.
Qed.

(** [merge_same_season_series] only adds to the objects: none changes its
    series name, directory or season, and none loses an episode key or
    has the path of a key changed. *)
Lemma merge_same_season_series_grows h series_info h' merged :
  merge_same_season_series h series_info = Some (h', merged) → objects_grow h h'.
Proof.
  unfold merge_same_season_series. intros Hm.
  destruct (group_by_key h series_info) as [groups|]; simplify_eq/=.
  by eapply merge_groups_grows.
Qed.

Lemma merge_same_season_series_kept h series_info h' merged :
  merge_same_season_series h series_info = Some (h', merged) → episodes_kept h h'.
Proof.
  intros Hgrow%merge_same_season_series_grows r info k v Hr Hk.
  destruct (Hgrow _ _ Hr) as (info' & ? & _ & Hkept). eauto.
Qed.

(** C3 (the merge base is never overwritten).  Every key that the base of
    a merge holds before [merge_same_season_series] is held by it
    afterwards, with the same path, whatever keys the members folded into
    it contain. *)
Theorem merge_same_season_keeps_base_episodes h series_info h' merged :
  merge_same_season_series h series_info = Some (h', merged) →
  ∀ pattern base_ref base k v,
    dict_get pattern merged = Some base_ref →
    h !! base_ref = Some base →
    dict_get k (episodes base) = Some v →
    ∃ base', h' !! base_ref = Some base'
             ∧ dict_get k (episodes base') = Some v.
Proof.
  intros Hm pattern base_ref base k v _ Hbase Hk.
  by eapply merge_same_season_series_kept.
Qed.

Lemma merge_same_season_keeps_base_episodes_witness :
  ∃ base',
    (default ([], []) (merge_same_season_series
                         (scenario_c "Show/01.mkv" "Show/02.mkv" "Show/sp.mkv")
                         scenario_c_series)).1 !! 0%nat = Some base'
    ∧ dict_get "02" (episodes base') = Some "Show/02.mkv".
Proof.
  eapply (merge_same_season_keeps_base_episodes
            (scenario_c "Show/01.mkv" "Show/02.mkv" "Show/sp.mkv")
            scenario_c_series _ _ eq_refl "numbered" 0%nat _ "02" "Show/02.mkv").
  - reflexivity.
  - reflexivity.
  - reflexivity.
Defined.

(** *** Input in which every key is held by one series *)

(** The groups of such an input: one singleton list per series. *)
Lemma group_by_key_singletons (h : heap) items infos (acc : same_season_groups) :
  Forall2 (λ pr info, h !! pr.2 = Some info) items infos →
  NoDup (key_of <$> infos) →
  (∀ info, info ∈ infos → key_of info ∉ dict_keys acc) →
  foldM (λ (groups : same_season_groups) pr,
           info ← h !! pr.2; Some (dict_append (key_of info) pr groups))
        acc items
  = Some (acc ++ zip_with (λ pr info, (key_of info, [pr])) items infos).
Proof.
  intros Hinfos. revert acc.
  induction Hinfos as [|pr info items infos Hpr _ IH]; intros acc Hnd Hacc.
  - simpl. by rewrite app_nil_r.
  - rewrite fmap_cons in Hnd. apply NoDup_cons in Hnd as [Hinfo Hnd].
    assert (key_of info ∉ dict_keys acc) as Hfresh by (apply Hacc; left).
    cbn [foldM zip_with]. rewrite Hpr. cbn [mbind option_bind].
    unfold dict_append.
    rewrite (proj2 (dict_get_None _ _) Hfresh). cbn [default app].
    rewrite dict_set_fresh by done.
    rewrite IH; [by rewrite <-(assoc_L (++))|done|].
    intros info' Hin. unfold dict_keys. rewrite fmap_app.
    intros [?|Heq%list_elem_of_singleton]%elem_of_app.
    + by eapply Hacc; [right|].
    + apply Hinfo. cbn [fmap list_fmap fst] in Heq. rewrite <-Heq.
      by apply list_elem_of_fmap_2.
Qed.

(** Singleton groups are passed on as they are. *)
Lemma merge_group_singletons (h : heap) (items : list (string * ref))
    (infos : list SeriesInfo) (merged : dict string ref) :
  length items = length infos →
  NoDup (items.*1) →
  (∀ pr, pr ∈ items → pr.1 ∉ dict_keys merged) →
  foldM merge_group (h, merged)
        (zip_with (λ pr info, (key_of info, [pr])) items infos)
  = Some (h, merged ++ items).
Proof.
  revert infos merged.
  induction items as [|[pattern r] items IH]; intros [|info infos] merged Hlen Hnd Hfresh;
    simplify_eq/=; [by rewrite app_nil_r|].
  apply NoDup_cons in Hnd as [Hp Hnd].
  rewrite dict_set_fresh by (by apply (Hfresh (pattern, r)); left).
  rewrite IH; [by rewrite <-(assoc_L (++))|done..|].
  intros pr Hin. unfold dict_keys. rewrite fmap_app. simpl.
  intros [?| Heq%list_elem_of_singleton]%elem_of_app.
  - by eapply Hfresh; [right|].
  - apply Hp. rewrite <-Heq. by apply list_elem_of_fmap_2.
Qed.

(** C8 (idempotence).  On an input in which every key (series name,
    directory, season or 1) is held by exactly one [SeriesInfo],
    [merge_same_season_series] returns the mapping it was given, with the
    same keys in the same order, and leaves every object as it was. *)
Theorem merge_same_season_series_idempotent (h : heap) series_info infos :
  NoDup (dict_keys series_info) →
  Forall2 (λ pr info, h !! pr.2 = Some info) series_info infos →
  NoDup (key_of <$> infos) →
  merge_same_season_series h series_info = Some (h, series_info).
Proof.
  intros Hpatterns Hinfos Hkeys. unfold merge_same_season_series, group_by_key.
  rewrite (group_by_key_singletons h series_info infos []); [|done..|].
  - simpl. by rewrite merge_group_singletons;
      [|by eapply Forall2_length|done|by intros ?? ?%elem_of_nil].
  - by intros ?? ?%elem_of_nil.
Qed.

Lemma merge_same_season_series_idempotent_witness :
  merge_same_season_series (scenario_two_seasons "A/S1/01.mkv" "A/S2/01.mkv")
    [("A/S1/ {EP_NUM} ", 0%nat); ("A/S2/ {EP_NUM} ", 1%nat)]
  = Some (scenario_two_seasons "A/S1/01.mkv" "A/S2/01.mkv",
          [("A/S1/ {EP_NUM} ", 0%nat); ("A/S2/ {EP_NUM} ", 1%nat)]).
Proof.
  eapply merge_same_season_series_idempotent.
  - compute_done.
  - repeat constructor.
  - compute_done.
Defined.

(* ===================================================================== *)
(** * Properties of [add_season] and [merge_multi_season_series] *)
(* ===================================================================== *)

Lemma dict_update_cons (d other : dict string string) k v :
  dict_update d ((k, v) :: other) = dict_update (dict_set k v d) other.
Proof. reflexivity. Qed.

Lemma dict_update_get_other (d other : dict string string) k :
  k ∉ dict_keys other → dict_get k (dict_update d other) = dict_get k d.
Proof.
  revert d. induction other as [|[k0 v0] other IH]; intros d; [done|].
  unfold dict_keys. rewrite fmap_cons. intros [Hne Hk]%not_elem_of_cons.
  rewrite dict_update_cons, IH by done. by apply dict_get_set_ne.
Qed.

Lemma dict_update_get_new (d other : dict string string) k v :
  NoDup (dict_keys other) → dict_get k other = Some v →
  dict_get k (dict_update d other) = Some v.
Proof.
  revert d. induction other as [|[k0 v0] other IH]; intros d; [done|].
  unfold dict_keys. rewrite fmap_cons. intros [Hk0 Hnd]%NoDup_cons.
  rewrite dict_update_cons. cbn [dict_get]. case_decide as Hk.
  - intros [= ->]. subst k0.
    rewrite (dict_update_get_other _ other k Hk0). apply dict_get_set_eq.
  - by apply IH.
Qed.

Lemma sum_episode_counts_agree (h h' : heap) (ss : dict Z ref) :
  (∀ sr, sr ∈ ss → h !! sr.2 = h' !! sr.2) →
  sum_episode_counts h ss = sum_episode_counts h' ss.
Proof.
  unfold sum_episode_counts. generalize 0.
  induction ss as [|sr ss IH]; intros acc Hagree; [done|].
  cbn [foldM]. rewrite (Hagree sr) by left.
  destruct (h' !! sr.2) as [info|]; [|done]. cbn [mbind option_bind].
  apply IH. intros sr' ?. apply Hagree. by right.
Qed.

Lemma sum_episode_counts_total (h : heap) (ss : dict Z ref) :
  (∀ sr, sr ∈ ss → is_Some (h !! sr.2)) → is_Some (sum_episode_counts h ss).
Proof.
  unfold sum_episode_counts. generalize 0.
  induction ss as [|sr ss IH]; intros acc Hvalid; [by eexists|].
  cbn [foldM]. destruct (Hvalid sr) as [info ->]; [left|].
  cbn [mbind option_bind]. apply IH. intros sr' ?. apply Hvalid. by right.
Qed.

(** What a successful call of [add_season] has done. *)
Lemma add_season_inv (h : heap) self r h' self' :
  add_season h self r = Some (h', self') →
  ∃ season_info,
    h !! r = Some season_info
    ∧ sum_episode_counts h' (seasons self') = Some (total_episodes self')
    ∧ match dict_get (season_or_1 (season season_info)) (seasons self) with
      | Some e =>
          ∃ existing,
            h !! e = Some existing
            ∧ h' = <[e := set_episode_count
                             (dict_len (dict_update (episodes existing)
                                                    (episodes season_info)))
                             (set_episodes (dict_update (episodes existing)
                                                        (episodes season_info))
                                           existing)]> h
            ∧ seasons self' = seasons self
      | None =>
          h' = h
          ∧ seasons self'
            = dict_set (season_or_1 (season season_info)) r (seasons self)
      end.
Proof.
  unfold add_season. intros Ha.
  destruct (h !! r) as [season_info|] eqn:Hr; simplify_eq/=.
  exists season_info. split; [done|].
  destruct (dict_get _ (seasons self)) as [e|] eqn:Hslot.
  - destruct (h !! e) as [existing|] eqn:He; simplify_eq/=.
    destruct (sum_episode_counts _ _) as [total|] eqn:Hsum; simplify_eq/=.
    split; [done|]. by exists existing.
  - simpl in Ha.
    destruct (sum_episode_counts _ _) as [total|] eqn:Hsum; simplify_eq/=.
    done.
Qed.

(** [add_season] returns whenever the references at hand are live. *)
Lemma add_season_total (h : heap) self r :
  is_Some (h !! r) →
  (∀ sr, sr ∈ seasons self → is_Some (h !! sr.2)) →
  is_Some (add_season h self r).
Proof.
  intros [season_info Hr] Hvalid. unfold add_season. rewrite Hr.
  cbn [mbind option_bind].
  destruct (dict_get _ (seasons self)) as [e|] eqn:Hslot.
  - destruct (Hvalid (season_or_1 (season season_info), e)) as [existing He];
      [by apply dict_get_Some_elem|].
    simpl in He. rewrite He. cbn [mbind option_bind].
    match goal with
    | |- context [sum_episode_counts ?h1 ?ss] =>
        destruct (sum_episode_counts_total h1 ss) as [total ->]
    end; [|by eexists].
    intros sr Hsr. destruct (Hvalid sr Hsr) as [info Hinfo].
    destruct (decide (sr.2 = e)) as [->|].
    + rewrite list_lookup_insert_eq by (by eapply lookup_lt_Some). by eexists.
    + rewrite list_lookup_insert_ne by done. by eexists.
  - cbn [mbind option_bind].
    match goal with
    | |- context [sum_episode_counts ?h1 ?ss] =>
        destruct (sum_episode_counts_total h1 ss) as [total ->]
    end; [|by eexists].
    intros sr Hsr. apply dict_get_None in Hslot.
    rewrite dict_set_fresh in Hsr by done.
    apply elem_of_app in Hsr as [?| ->%list_elem_of_singleton]; [by apply Hvalid|].
    by eexists.
Qed.

(** The two fragments are what [parse] returns for the three files, and
    both survive the same-season merge, their directories being
    different. *)
Example two_fragments_from_parse :
  allocate <$> parse default_config
                 ["x/A/A - 01.mkv"; "y/A/A - 01.mkv"; "y/A/A - 02.mkv"]
  = Some (scenario_two_fragments, scenario_two_fragments_series)
  ∧ merge_same_season_series scenario_two_fragments scenario_two_fragments_series
    = Some (scenario_two_fragments, scenario_two_fragments_series).
Proof. split; by vm_compute. Qed.

(** C2 as stated fails: when the slot is occupied, [dict.update] lets the
    incoming entry replace the one of the occupying season. *)
Lemma add_season_overwrites_existing_episode :
  ¬ (∀ (h : heap) self r incoming e existing h' self' k v,
       h !! r = Some incoming →
       dict_get (season_or_1 (season incoming)) (seasons self) = Some e →
       h !! e = Some existing →
       add_season h self r = Some (h', self') →
       dict_get k (episodes existing) = Some v →
       is_Some (dict_get k (episodes incoming)) →
       ∃ existing', h' !! e = Some existing'
                    ∧ dict_get k (episodes existing') = Some v).
Proof.
  intros Hspec.
  destruct (Hspec scenario_two_fragments
              {| b_series_name := "A"; seasons := [(1, 0%nat)];
                 total_episodes := 1; season_count := 1;
                 release_groups := []; b_tags := [] |}
              1%nat _ 0%nat _ _ _ "01" "x/A/A - 01.mkv"
              eq_refl eq_refl eq_refl eq_refl eq_refl ltac:(by eexists))
    as (existing' & Hlookup & Hget).
  vm_compute in Hlookup. injection Hlookup as <-.
  vm_compute in Hget. discriminate Hget.
Qed.

(** C2, amended.  When [add_season] inserts a series whose season slot is
    occupied, the episode map of the occupying season is updated with the
    incoming map, the incoming entries winning on key collision: every
    key of the incoming series has the incoming path afterwards, every
    other key of the occupying season is unchanged, and the episode count
    of the season is the size of the merged map. *)
Theorem add_season_occupied_slot_incoming_wins (h : heap) self r incoming e existing :
  h !! r = Some incoming →
  dict_get (season_or_1 (season incoming)) (seasons self) = Some e →
  h !! e = Some existing →
  NoDup (dict_keys (episodes incoming)) →
  (∀ sr, sr ∈ seasons self → is_Some (h !! sr.2)) →
  ∃ h' self' existing',
    add_season h self r = Some (h', self')
    ∧ h' !! e = Some existing'
    ∧ (∀ k v, dict_get k (episodes incoming) = Some v →
              dict_get k (episodes existing') = Some v)
    ∧ (∀ k, dict_get k (episodes incoming) = None →
            dict_get k (episodes existing') = dict_get k (episodes existing))
    ∧ episode_count existing' = dict_len (episodes existing').
Proof.
  intros Hr Hslot He Hnd Hvalid.
  destruct (add_season_total h self r) as [[h' self'] Ha]; [by eexists|done|].
  destruct (add_season_inv _ _ _ _ _ Ha) as (season_info & Hr' & _ & Hcase).
  simplify_eq. rewrite Hslot in Hcase.
  destruct Hcase as (existing0 & He' & -> & _). simplify_eq.
  eexists _, _, _. split; [done|].
  rewrite list_lookup_insert_eq by (by eapply lookup_lt_Some).
  split; [done|]. simpl. split_and!; [|
    |done].
  - intros k v Hk. by apply dict_update_get_new.
  - intros k Hk. by apply dict_update_get_other, dict_get_None.
Qed.

Lemma add_season_occupied_slot_incoming_wins_witness :
  ∃ h' self' existing',
    add_season scenario_two_fragments
      {| b_series_name := "A"; seasons := [(1, 0%nat)];
         total_episodes := 1; season_count := 1;
         release_groups := []; b_tags := [] |} 1%nat
    = Some (h', self')
    ∧ h' !! 0%nat = Some existing'
    ∧ dict_get "01" (episodes existing') = Some "y/A/A - 01.mkv"
    ∧ episode_count existing' = 2.
Proof.
  destruct (add_season_occupied_slot_incoming_wins scenario_two_fragments
              {| b_series_name := "A"; seasons := [(1, 0%nat)];
                 total_episodes := 1; season_count := 1;
                 release_groups := []; b_tags := [] |}
              1%nat _ 0%nat _ eq_refl eq_refl eq_refl)
    as (h' & self' & existing' & Ha & He & Hnew & _ & Hcount).
  - compute_done.
  - intros sr ->%list_elem_of_singleton. by eexists.
  - exists h', self', existing'. split_and!; [done|done|by apply Hnew|].
    rewrite Hcount. vm_compute in Ha. simplify_eq. by vm_compute in He; simplify_eq.
Defined.

(** *** The totals of [merge_multi_season_series] *)

Lemma merge_season_totals_ok (h : heap) bangumi_dict pr h' bangumi_dict' :
  totals_ok h bangumi_dict →
  merge_season (h, bangumi_dict) pr = Some (h', bangumi_dict') →
  totals_ok h' bangumi_dict'.
Proof.
  intros Hok Hm. unfold merge_season in Hm.
  destruct (h !! pr.2) as [info|] eqn:Hinfo; simplify_eq/=.
  (* the receiver, found in the mapping or new *)
  set (bangumi := match dict_get (series_name info) bangumi_dict with
                  | Some b => b
                  | None => _
                  end) in Hm.
  assert (∀ sr, sr ∈ seasons bangumi →
            ∃ i, h !! sr.2 = Some i ∧ series_name i = series_name info) as Hrecv.
  { subst bangumi. destruct (dict_get _ bangumi_dict) as [b|] eqn:Hb.
    - by apply Hok.
    - by intros ? ?%elem_of_nil. }
  destruct (add_season h bangumi pr.2) as [[h1 b1]|] eqn:Ha; simplify_eq/=.
  destruct (add_season_inv _ _ _ _ _ Ha) as (season_info & Hr & Hsum & Hcase).
  simplify_eq.
  (* the heap changes at most at the occupying season, a series of this name *)
  assert (∀ r i, h !! r = Some i → series_name i ≠ series_name info →
            h' !! r = Some i) as Hframe.
  { intros r i Hi Hname.
    destruct (dict_get _ (seasons bangumi)) as [e|] eqn:Hslot.
    - destruct Hcase as (existing & He & -> & _).
      rewrite list_lookup_insert_ne; [done|]. intros ->.
      destruct (Hrecv _ (dict_get_Some_elem _ _ _ Hslot)) as (i' & Hi' & ?).
      simpl in Hi'. congruence.
    - by destruct Hcase as [-> _]. }
  assert (∀ r i, h !! r = Some i →
            ∃ i', h' !! r = Some i' ∧ series_name i' = series_name i) as Hname.
  { intros r i Hi.
    destruct (dict_get _ (seasons bangumi)) as [e|] eqn:Hslot.
    - destruct Hcase as (existing & He & -> & _).
      destruct (decide (r = e)) as [->|].
      + rewrite list_lookup_insert_eq by (by eapply lookup_lt_Some).
        eexists; split; [done|]. simpl. congruence.
      + rewrite list_lookup_insert_ne by done. eauto.
    - destruct Hcase as [-> _]. eauto. }
  intros name b. destruct (decide (name = series_name info)) as [->|Hne].
  - rewrite dict_get_set_eq. intros [= <-]. split; [done|].
    intros sr Hsr.
    destruct (dict_get _ (seasons bangumi)) as [e|] eqn:Hslot.
    + destruct Hcase as (existing & He & _ & Hseasons).
      rewrite Hseasons in Hsr.
      destruct (Hrecv _ Hsr) as (i & Hi & Hn).
      destruct (Hname _ _ Hi) as (i' & ? & ?). exists i'. split; [done|congruence].
    + destruct Hcase as [-> Hseasons]. rewrite Hseasons in Hsr.
      apply dict_get_None in Hslot. rewrite dict_set_fresh in Hsr by done.
      apply elem_of_app in Hsr as [?| ->%list_elem_of_singleton]; [by apply Hrecv|].
      by exists info.
  - rewrite dict_get_set_ne by done. intros Hb.
    destruct (Hok _ _ Hb) as [Hsum_b Hnames_b].
    assert (∀ sr, sr ∈ seasons b → h !! sr.2 = h' !! sr.2) as Hagree.
    { intros sr Hsr. destruct (Hnames_b _ Hsr) as (i & Hi & Hn).
      rewrite Hi. symmetry. apply Hframe; [done|congruence]. }
    split.
    + by rewrite <-(sum_episode_counts_agree h h' _ Hagree).
    + intros sr Hsr. destruct (Hnames_b _ Hsr) as (i & Hi & Hn).
      exists i. by rewrite <-Hagree.
Qed.

Lemma merge_multi_totals_ok (h : heap) bangumi_dict series_info h' bangumi_dict' :
  totals_ok h bangumi_dict →
  foldM merge_season (h, bangumi_dict) series_info = Some (h', bangumi_dict') →
  totals_ok h' bangumi_dict'.
Proof.
  revert h bangumi_dict.
  induction series_info as [|pr series_info IH]; intros h bangumi_dict Hok.
  - by intros [= <- <-].
  - intros ([h1 bd1] & Hstep & Hrest)%foldM_cons_inv.
    eapply IH; [|done]. by eapply merge_season_totals_ok.
Qed.

(** The invariant holds after every insertion of a run, not only at its
    end: the state after any initial part of the input satisfies it. *)
Lemma totals_ok_after_every_insertion (h : heap) inserted rest h' bangumi_dict :
  merge_multi_season_series h (inserted ++ rest) = Some (h', bangumi_dict) →
  ∃ h1 bangumi_dict1,
    merge_multi_season_series h inserted = Some (h1, bangumi_dict1)
    ∧ totals_ok h1 bangumi_dict1.
Proof.
  unfold merge_multi_season_series. rewrite foldM_app. intros Hm.
  destruct (foldM merge_season (h, []) inserted) as [[h1 bd1]|] eqn:H1;
    simplify_eq/=.
  exists h1, bd1. split; [done|].
  eapply (merge_multi_totals_ok h [] inserted); [|done]. by intros ?? [=].
Qed.



(** *** [merge_multi_season_series] returns *)

Lemma add_season_length (h : heap) self r h' self' :
  add_season h self r = Some (h', self') → length h' = length h.
Proof.
  intros (season_info & _ & _ & Hcase)%add_season_inv.
  destruct (dict_get _ (seasons self)).
  - destruct Hcase as (? & _ & -> & _). apply length_insert.
  - by destruct Hcase as [-> _].
Qed.

Lemma merge_season_inv (h : heap) bangumi_dict pr h' bangumi_dict' :
  merge_season (h, bangumi_dict) pr = Some (h', bangumi_dict') →
  length h' = length h.
Proof.
  unfold merge_season. intros Hm.
  destruct (h !! pr.2) as [info|]; simplify_eq/=.
  destruct (add_season h _ pr.2) as [[h1 b1]|] eqn:Ha; simplify_eq/=.
  by eapply add_season_length.
Qed.

Lemma merge_season_total (h : heap) bangumi_dict pr :
  totals_ok h bangumi_dict → is_Some (h !! pr.2) →
  is_Some (merge_season (h, bangumi_dict) pr).
Proof.
  intros Hok [info Hinfo]. unfold merge_season. rewrite Hinfo.
  cbn [mbind option_bind].
  match goal with
  | |- context [add_season h ?b ?r] =>
      destruct (add_season_total h b r) as [[h1 b1] ->]
  end; [by eexists| |by eexists].
  intros sr Hsr. destruct (dict_get _ bangumi_dict) as [b|] eqn:Hb.
  - destruct (Hok _ _ Hb) as [_ Hnames].
    destruct (Hnames _ Hsr) as (i & -> & _). by eexists.
  - by apply elem_of_nil in Hsr.
Qed.

Lemma merge_seasons_total (h : heap) (bangumi_dict : bangumi_dict_t) series_info :
  totals_ok h bangumi_dict →
  (∀ pr, pr ∈ series_info → is_Some (h !! pr.2)) →
  is_Some (foldM merge_season (h, bangumi_dict) series_info).
Proof.
  revert h bangumi_dict.
  induction series_info as [|pr series_info IH]; intros h bd Hok Hvalid.
  - by eexists.
  - cbn [foldM].
    destruct (merge_season_total h bd pr) as [[h1 bd1] Hstep];
      [done|by apply Hvalid; left|].
    rewrite Hstep. cbn [mbind option_bind]. apply IH.
    + by eapply merge_season_totals_ok.
    + intros pr' Hpr'. apply lookup_lt_is_Some.
      rewrite (merge_season_inv _ _ _ _ _ Hstep).
      apply lookup_lt_is_Some, Hvalid. by right.
Qed.

(** The cross-season merge returns for every input whose references are
    live. *)
Lemma merge_multi_season_series_total (h : heap) series_info :
  (∀ pr, pr ∈ series_info → is_Some (h !! pr.2)) →
  is_Some (merge_multi_season_series h series_info).
Proof.
  intros Hvalid. apply merge_seasons_total; [|done]. by intros ?? [=].
Qed.

(* ===================================================================== *)
(** * [merge_same_season_series] returns *)
(* ===================================================================== *)

(** The same-season merge raises only on a dangling reference or when one
    object is listed twice.  On the mappings that [analyze_series]
    produces, whose objects are distinct, it returns. *)

Lemma merge_episode_total eps item : is_Some (merge_episode eps item).
Proof.
  destruct item as [ep_num file_path]. unfold merge_episode. case_decide.
  - destruct (next_unknown_spec eps) as (n & _ & -> & _). by eexists.
  - destruct (dict_has ep_num eps); by eexists.
Qed.

Lemma merge_episodes_total eps items : is_Some (foldM merge_episode eps items).
Proof.
  revert eps. induction items as [|item items IH]; intros eps; [by eexists|].
  cbn [foldM]. destruct (merge_episode_total eps item) as [eps1 ->].
  apply IH.
Qed.

Lemma merge_into_total (h : heap) main_ref r :
  is_Some (h !! main_ref) → is_Some (h !! r) → r ≠ main_ref →
  ∃ h', merge_into main_ref h r = Some h' ∧ length h' = length h.
Proof.
  intros [main_info Hmain] [info Hr] Hne. unfold merge_into.
  rewrite Hmain, Hr. cbn [mbind option_bind]. case_decide; [done|].
  destruct (merge_episodes_total (episodes main_info) (episodes info)) as [eps ->].
  cbn [mbind option_bind]. eexists. split; [done|]. apply length_insert.
Qed.

Lemma merge_all_into_total (h : heap) main_ref refs :
  is_Some (h !! main_ref) →
  (∀ r, r ∈ refs → is_Some (h !! r) ∧ r ≠ main_ref) →
  ∃ h', foldM (merge_into main_ref) h refs = Some h' ∧ length h' = length h.
Proof.
  revert h. induction refs as [|r refs IH]; intros h Hmain Hrefs.
  - by exists h.
  - destruct (Hrefs r) as [Hr Hne]; [left|].
    destruct (merge_into_total h main_ref r Hmain Hr Hne) as (h1 & Hstep & Hlen).
    destruct (IH h1) as (h' & Hrest & Hlen').
    + apply lookup_lt_is_Some. rewrite Hlen. by apply lookup_lt_is_Some.
    + intros r' Hr'. destruct (Hrefs r') as [? ?]; [by right|].
      split; [|done]. apply lookup_lt_is_Some. rewrite Hlen.
      by apply lookup_lt_is_Some.
    + exists h'. cbn [foldM]. rewrite Hstep. split; [done|congruence].
Qed.

Lemma sort_by_priority_total (h : heap) (series_list : list (string * ref)) :
  (∀ pr, pr ∈ series_list → is_Some (h !! pr.2)) →
  ∃ sorted, sort_by_priority h series_list = Some sorted
            ∧ sorted ≡ₚ series_list.
Proof.
  intros Hvalid. unfold sort_by_priority.
  destruct (mapM (λ pr : string * ref,
                    info ← h !! pr.2; Some (priority_key info, pr))
                 series_list) as [keyed|] eqn:Hkeyed.
  - cbn [mbind option_bind]. eexists. split; [done|].
    apply mapM_Some in Hkeyed.
    assert (keyed.*2 = series_list) as <-.
    { induction Hkeyed as [|pr y l k Hy _ IH]; [done|].
      rewrite fmap_cons. f_equal.
      - destruct (h !! pr.2); by simplify_eq/=.
      - apply IH. intros pr' ?. apply Hvalid. by right. }
    apply fmap_Permutation, list_sort_perm.
  - exfalso. apply eq_None_not_Some in Hkeyed. apply Hkeyed, mapM_is_Some.
    apply Forall_forall. intros pr Hpr. destruct (Hvalid pr Hpr) as [info Hinfo].
    simpl. rewrite Hinfo. by eexists.
Qed.

Lemma merge_members_total (h : heap) merged series_list :
  series_list ≠ [] →
  NoDup (series_list.*2) →
  (∀ pr, pr ∈ series_list → is_Some (h !! pr.2)) →
  ∃ h' merged', merge_members h merged series_list = Some (h', merged')
                ∧ length h' = length h.
Proof.
  intros Hne Hnd Hvalid. unfold merge_members.
  destruct (sort_by_priority_total h series_list Hvalid) as (sorted & -> & Hperm).
  cbn [mbind option_bind].
  destruct sorted as [|[main_pattern main_ref] others].
  { by apply Permutation_nil_l in Hperm. }
  cbn [head tail mbind option_bind].
  assert (NoDup (main_ref :: others.*2)) as [Hmain Hothers]%NoDup_cons.
  { change (NoDup (((main_pattern, main_ref) :: others).*2)). by rewrite Hperm. }
  assert (∀ pr, pr ∈ (main_pattern, main_ref) :: others → is_Some (h !! pr.2))
    as Hvalid'.
  { intros pr Hpr. apply Hvalid. by rewrite <-Hperm. }
  destruct (merge_all_into_total h main_ref (others.*2)) as (h1 & -> & Hlen).
  - apply (Hvalid' (main_pattern, main_ref)). left.
  - intros r Hr. split; [|by intros ->].
    apply list_elem_of_fmap in Hr as (pr & -> & Hpr). apply Hvalid'. by right.
  - cbn [mbind option_bind].
    assert (is_Some (h1 !! main_ref)) as [main_info ->].
    { apply lookup_lt_is_Some. rewrite Hlen.
      apply lookup_lt_is_Some, (Hvalid' (main_pattern, main_ref)). left. }
    cbn [mbind option_bind]. eexists _, _. split; [done|].
    by rewrite length_insert.
Qed.

Lemma merge_group_total (h : heap) (merged : dict string ref)
    (group : group_key * list (string * ref)) :
  group.2 ≠ [] →
  NoDup (group.2.*2) →
  (∀ pr, pr ∈ group.2 → is_Some (h !! pr.2)) →
  ∃ h' merged', merge_group (h, merged) group = Some (h', merged')
                ∧ length h' = length h.
Proof.
  intros Hne Hnd Hvalid. unfold merge_group.
  destruct group as [key series_list]. cbn [snd] in *.
  destruct series_list as [|[pattern r] [|pr series_list]];
    [done|by eexists _, _|].
  by apply merge_members_total.
Qed.

Lemma merge_groups_total (h : heap) (merged : dict string ref)
    (groups : same_season_groups) :
  (∀ g, g ∈ groups →
     g.2 ≠ [] ∧ NoDup (g.2.*2) ∧ ∀ pr, pr ∈ g.2 → is_Some (h !! pr.2)) →
  is_Some (foldM merge_group (h, merged) groups).
Proof.
  revert h merged. induction groups as [|g groups IH]; intros h merged Hok.
  - by eexists.
  - destruct (Hok g) as (Hne & Hnd & Hvalid); [left|].
    destruct (merge_group_total h merged g Hne Hnd Hvalid)
      as (h1 & merged1 & Hstep & Hlen).
    cbn [foldM]. rewrite Hstep. cbn [mbind option_bind]. apply IH.
    intros g' Hg'. destruct (Hok g') as (? & ? & Hvalid'); [by right|].
    split_and!; [done..|]. intros pr Hpr. apply lookup_lt_is_Some.
    rewrite Hlen. by apply lookup_lt_is_Some, Hvalid'.
Qed.

Lemma dict_append_members {K V : Type} `{EqDecision K} (k : K) (x : V)
    (d : dict K (list V)) :
  concat ((dict_append k x d).*2) ≡ₚ x :: concat (d.*2).
Proof.
  unfold dict_append. induction d as [|[k' l'] d IH].
  - done.
  - cbn [dict_get dict_set]. case_decide.
    + cbn [default]. rewrite !fmap_cons. cbn [snd concat]. unfold id.
      rewrite <-(assoc_L (++)). symmetry. apply Permutation_middle.
    + rewrite !fmap_cons. cbn [snd concat]. rewrite IH.
      symmetry. apply Permutation_middle.
Qed.

Lemma dict_append_nonempty {K V : Type} `{EqDecision K} (k : K) (x : V)
    (d : dict K (list V)) (g : K * list V) :
  (∀ g', g' ∈ d → g'.2 ≠ []) → g ∈ dict_append k x d → g.2 ≠ [].
Proof.
  unfold dict_append. generalize (default [] (dict_get k d)). intros old.
  induction d as [|[k' l'] d IH]; intros Hd.
  - intros ->%list_elem_of_singleton. by destruct old.
  - cbn [dict_set]. case_decide.
    + intros [->|?]%elem_of_cons; [by destruct old|]. apply Hd. by right.
    + intros [->|?]%elem_of_cons; [apply (Hd (k', l')); left|].
      apply IH; [|done]. intros g' ?. apply Hd. by right.
Qed.

Lemma group_by_key_total (h : heap) items (acc : same_season_groups) :
  (∀ pr, pr ∈ items → is_Some (h !! pr.2)) →
  (∀ g, g ∈ acc → g.2 ≠ []) →
  ∃ groups : same_season_groups,
    foldM (λ (groups : same_season_groups) pr,
             info ← h !! pr.2; Some (dict_append (key_of info) pr groups))
          acc items = Some groups
    ∧ concat (groups.*2) ≡ₚ concat (acc.*2) ++ items
    ∧ ∀ g, g ∈ groups → g.2 ≠ [].
Proof.
  revert acc. induction items as [|pr items IH]; intros acc Hvalid Hacc.
  - exists acc. by rewrite app_nil_r.
  - destruct (Hvalid pr) as [info Hinfo]; [left|].
    destruct (IH (dict_append (key_of info) pr acc)) as (groups & Hg & Hperm & Hne).
    + intros pr' ?. apply Hvalid. by right.
    + intros g. by apply dict_append_nonempty.
    + exists groups. cbn [foldM]. rewrite Hinfo. cbn [mbind option_bind].
      split_and!; [done| |done].
      rewrite Hperm, dict_append_members. apply Permutation_middle.
Qed.

Lemma NoDup_concat_member {A B : Type} (f : A → B) (ls : list (list A)) l :
  NoDup (f <$> concat ls) → l ∈ ls → NoDup (f <$> l).
Proof.
  induction ls as [|l' ls IH]; [by intros _ ?%elem_of_nil|].
  cbn [concat]. rewrite fmap_app. intros (Hl' & _ & Hls)%NoDup_app.
  intros [->|?]%elem_of_cons; auto.
Qed.

Lemma elem_of_concat_member {A : Type} (x : A) l (ls : list (list A)) :
  x ∈ l → l ∈ ls → x ∈ concat ls.
Proof.
  intros Hx. induction ls as [|l' ls IH]; [by intros ?%elem_of_nil|].
  cbn [concat]. rewrite elem_of_app.
  intros [->|?]%elem_of_cons; [by left|right; auto].
Qed.

(** On distinct live objects the same-season merge returns. *)
Lemma merge_same_season_series_total (h : heap) series_info :
  (∀ pr, pr ∈ series_info → is_Some (h !! pr.2)) →
  NoDup (series_info.*2) →
  is_Some (merge_same_season_series h series_info).
Proof.
  intros Hvalid Hnd. unfold merge_same_season_series, group_by_key.
  destruct (group_by_key_total h series_info [] Hvalid)
    as (groups & -> & Hperm & Hne); [by intros ? ?%elem_of_nil|].
  cbn [mbind option_bind]. simpl in Hperm. apply merge_groups_total.
  intros g Hg. split_and!; [by apply Hne| |].
  - apply (NoDup_concat_member snd (groups.*2)); [by rewrite Hperm|].
    by apply list_elem_of_fmap_2.
  - intros pr Hpr. apply Hvalid. rewrite <-Hperm.
    apply (elem_of_concat_member pr g.2); [done|].
    by apply list_elem_of_fmap_2.
Qed.

(* ===================================================================== *)
(** * The merge stages never raise on the output of [parse] *)
(* ===================================================================== *)

Lemma dict_set_elem {K V : Type} `{EqDecision K} (k : K) (v : V)
    (d : dict K V) (kv : K * V) :
  kv ∈ dict_set k v d → kv = (k, v) ∨ kv ∈ d.
Proof.
  induction d as [|[k' v'] d IH]; cbn [dict_set].
  - intros ->%list_elem_of_singleton. by left.
  - case_decide.
    + intros [->|?]%elem_of_cons; [by left|]. right. by right.
    + intros [->|[->|?]%IH]%elem_of_cons; [right; left|by left|right; by right].
Qed.

Lemma sort_by_priority_perm (h : heap) (series_list sorted : list (string * ref)) :
  sort_by_priority h series_list = Some sorted → sorted ≡ₚ series_list.
Proof.
  unfold sort_by_priority. intros Hs.
  destruct (mapM _ series_list) as [keyed|] eqn:Hkeyed; simplify_eq/=.
  apply mapM_Some in Hkeyed.
  assert (keyed.*2 = series_list) as <-.
  { induction Hkeyed as [|pr y l k Hy _ IH]; [done|].
    rewrite fmap_cons. f_equal; [|done].
    destruct (h !! pr.2); by simplify_eq/=. }
  apply fmap_Permutation, list_sort_perm.
Qed.

Lemma merge_group_result (h : heap) (merged : dict string ref)
    (group : group_key * list (string * ref)) h' merged' :
  merge_group (h, merged) group = Some (h', merged') →
  ∀ pr, pr ∈ merged' → pr ∈ merged ∨ pr ∈ group.2.
Proof.
  unfold merge_group. destruct group as [key series_list]. cbn [snd].
  assert (merge_members h merged series_list = Some (h', merged') →
          ∀ pr, pr ∈ merged' → pr ∈ merged ∨ pr ∈ series_list) as Hmulti.
  { unfold merge_members. intros Hm.
    destruct (sort_by_priority h series_list) as [sorted|] eqn:Hs; simplify_eq/=.
    apply sort_by_priority_perm in Hs.
    destruct sorted as [|[main_pattern main_ref] others]; simplify_eq/=.
    destruct (foldM _ _ _) as [h1|]; simplify_eq/=.
    destruct (h1 !! main_ref); simplify_eq/=.
    intros pr [->|?]%dict_set_elem; [|by left].
    right. rewrite <-Hs. left. }
  destruct series_list as [|[pattern r] [|pr0 series_list]]; [done| |done].
  intros [= <- <-] pr [->|?]%dict_set_elem; [right; left|by left].
Qed.

Lemma merge_groups_result (h : heap) (merged : dict string ref)
    (groups : same_season_groups) h' merged' :
  foldM merge_group (h, merged) groups = Some (h', merged') →
  ∀ pr, pr ∈ merged' → pr ∈ merged ∨ pr ∈ concat (groups.*2).
Proof.
  revert h merged. induction groups as [|g groups IH]; intros h merged.
  - intros [= <- <-] pr ?. by left.
  - intros ([h1 merged1] & Hstep & Hrest)%foldM_cons_inv pr Hpr.
    rewrite fmap_cons. cbn [concat]. rewrite elem_of_app.
    destruct (IH _ _ Hrest pr Hpr) as [Hin|?]; [|by right; right].
    destruct (merge_group_result _ _ _ _ _ Hstep pr Hin); [by left|by right; left].
Qed.

Lemma merge_into_length main_ref (h : heap) r h' :
  merge_into main_ref h r = Some h' → length h' = length h.
Proof.
  unfold merge_into. intros Hm.
  destruct (h !! main_ref) as [main_info|]; simplify_eq/=.
  destruct (h !! r) as [info|]; simplify_eq/=.
  case_decide.
  - by destruct (dict_has _ _); simplify_eq.
  - destruct (foldM merge_episode _ _); simplify_eq/=. apply length_insert.
Qed.

Lemma merge_groups_length (h : heap) (merged : dict string ref)
    (groups : same_season_groups) h' merged' :
  foldM merge_group (h, merged) groups = Some (h', merged') →
  length h' = length h.
Proof.
  revert h merged. induction groups as [|g groups IH]; intros h merged.
  - by intros [= <- <-].
  - intros ([h1 merged1] & Hstep & Hrest)%foldM_cons_inv.
    rewrite (IH _ _ Hrest). clear IH Hrest.
    unfold merge_group in Hstep. destruct g as [key series_list]. cbn [snd] in Hstep.
    assert (merge_members h merged series_list = Some (h1, merged1) →
            length h1 = length h) as Hmulti.
    { unfold merge_members. intros Hm.
      destruct (sort_by_priority h series_list) as [sorted|]; simplify_eq/=.
      destruct (head sorted) as [[main_pattern main_ref]|]; simplify_eq/=.
      destruct (foldM _ _ _) as [h2|] eqn:Hfold; simplify_eq/=.
      destruct (h2 !! main_ref); simplify_eq/=.
      rewrite length_insert. clear -Hfold. revert h Hfold.
      induction ((tail sorted).*2) as [|r refs IH]; intros h.
      - by intros [= <-].
      - intros (h3 & H1%merge_into_length & H2%IH)%foldM_cons_inv. congruence. }
    destruct series_list as [|[pattern r] [|pr0 series_list]]; [auto| |auto].
    by simplify_eq.
Qed.

(** The same-season merge, on distinct live objects, returns a mapping
    whose entries are entries of its input, and the heap keeps its size. *)
Lemma merge_same_season_series_result (h : heap) series_info :
  (∀ pr, pr ∈ series_info → is_Some (h !! pr.2)) →
  NoDup (series_info.*2) →
  ∃ h' merged,
    merge_same_season_series h series_info = Some (h', merged)
    ∧ length h' = length h
    ∧ ∀ pr, pr ∈ merged → pr ∈ series_info.
Proof.
  intros Hvalid Hnd.
  destruct (merge_same_season_series_total h series_info Hvalid Hnd)
    as [[h' merged] Hm].
  exists h', merged. split; [done|].
  unfold merge_same_season_series, group_by_key in Hm.
  destruct (group_by_key_total h series_info [] Hvalid)
    as (groups & Hg & Hperm & _); [by intros ? ?%elem_of_nil|].
  rewrite Hg in Hm. cbn [mbind option_bind] in Hm. simpl in Hperm. split.
  - by eapply merge_groups_length.
  - intros pr Hpr.
    destruct (merge_groups_result _ _ _ _ _ Hm pr Hpr) as [?%elem_of_nil|Hin];
      [done|].
    by rewrite Hperm in Hin.
Qed.



(* ===================================================================== *)
(** * Merging twice is merging once *)
(* ===================================================================== *)

(** The groups of the first loop: distinct keys, the members of a group
    have the key of the group, and together the groups hold the entries
    of the input. *)
Lemma group_by_key_inv (h : heap) items (acc groups : same_season_groups) :
  foldM (λ (groups : same_season_groups) pr,
           info ← h !! pr.2; Some (dict_append (key_of info) pr groups))
        acc items = Some groups →
  NoDup (dict_keys acc) →
  (∀ g pr, g ∈ acc → pr ∈ g.2 →
     ∃ info, h !! pr.2 = Some info ∧ key_of info = g.1) →
  NoDup (dict_keys groups)
  ∧ concat (groups.*2) ≡ₚ concat (acc.*2) ++ items
  ∧ ∀ g pr, g ∈ groups → pr ∈ g.2 →
      ∃ info, h !! pr.2 = Some info ∧ key_of info = g.1.
Proof.
  revert acc. induction items as [|pr items IH]; intros acc Hfold Hnd Hacc.
  - simplify_eq/=. by rewrite app_nil_r.
  - apply foldM_cons_inv in Hfold as (acc' & Hstep & Hrest).
    destruct (h !! pr.2) as [info|] eqn:Hinfo; simplify_eq/=.
    destruct (IH _ Hrest) as (Hnd' & Hperm & Hmem).
    + by apply dict_set_NoDup.
    + intros g pr' [->|Hg]%dict_set_elem; [|by apply Hacc].
      cbn [fst snd]. intros [Hold| ->%list_elem_of_singleton]%elem_of_app;
        [|by exists info].
      destruct (dict_get (key_of info) acc) as [old|] eqn:Hget;
        [|by apply elem_of_nil in Hold].
      apply (Hacc (key_of info, old)); [|done]. by apply dict_get_Some_elem.
    + split_and!; [done| |done].
      rewrite Hperm, dict_append_members. apply Permutation_middle.
Qed.

(** Each group contributes one of its members to the result. *)
Lemma merge_group_pick (h : heap) (merged : dict string ref)
    (group : group_key * list (string * ref)) h' merged' :
  merge_group (h, merged) group = Some (h', merged') →
  ∃ pick, pick ∈ group.2 ∧ merged' = dict_set pick.1 pick.2 merged.
Proof.
  unfold merge_group. destruct group as [key series_list]. cbn [snd].
  assert (merge_members h merged series_list = Some (h', merged') →
          ∃ pick, pick ∈ series_list ∧ merged' = dict_set pick.1 pick.2 merged)
    as Hmulti.
  { unfold merge_members. intros Hm.
    destruct (sort_by_priority h series_list) as [sorted|] eqn:Hs; simplify_eq/=.
    apply sort_by_priority_perm in Hs.
    destruct sorted as [|[main_pattern main_ref] others]; simplify_eq/=.
    destruct (foldM _ _ _) as [h1|]; simplify_eq/=.
    destruct (h1 !! main_ref); simplify_eq/=.
    exists (main_pattern, main_ref). split; [|done]. rewrite <-Hs. left. }
  destruct series_list as [|[pattern r] [|pr0 series_list]]; [done| |done].
  intros [= <- <-]. exists (pattern, r). split; [left|done].
Qed.

Lemma merge_groups_picks (h : heap) (merged : dict string ref)
    (groups : same_season_groups) h' merged' :
  foldM merge_group (h, merged) groups = Some (h', merged') →
  NoDup (dict_keys merged ++ (concat (groups.*2)).*1) →
  ∃ picks, merged' = merged ++ picks
           ∧ Forall2 (λ g pick, pick ∈ g.2) groups picks.
Proof.
  revert h merged. induction groups as [|g groups IH]; intros h merged.
  - intros [= <- <-] _. exists []. by rewrite app_nil_r.
  - intros ([h1 merged1] & Hstep & Hrest)%foldM_cons_inv Hnd.
    destruct (merge_group_pick _ _ _ _ _ Hstep) as ([pattern r] & Hpick & ->).
    cbn [fst snd] in Hrest.
    rewrite fmap_cons in Hnd. cbn [concat] in Hnd. rewrite fmap_app in Hnd.
    apply NoDup_app in Hnd as (Hm & Hdisj & Hrest_nd).
    apply NoDup_app in Hrest_nd as (Hg & Hdisj' & Hgs).
    assert (pattern ∉ dict_keys merged) as Hfresh.
    { intros Hin. apply (Hdisj _ Hin), elem_of_app. left.
      by apply (list_elem_of_fmap_2 fst _ (pattern, r)). }
    rewrite dict_set_fresh in Hrest by done.
    destruct (IH _ _ Hrest) as (picks & -> & Hpicks).
    + unfold dict_keys. rewrite fmap_app. apply NoDup_app. split_and!; [|
        |done].
      * apply NoDup_app. split_and!; [done| |apply NoDup_singleton].
        by intros ? ? ->%list_elem_of_singleton.
      * intros p [Hin| ->%list_elem_of_singleton]%elem_of_app Hp.
        -- apply (Hdisj _ Hin), elem_of_app. by right.
        -- apply (Hdisj' pattern); [|done].
           by apply (list_elem_of_fmap_2 fst _ (pattern, r)).
    + exists ((pattern, r) :: picks). split; [by rewrite <-(assoc_L (++))|].
      by constructor.
Qed.

Lemma picks_NoDup {A B C : Type} (f : B → C) (member : A → list B)
    (groups : list A) (picks : list B) :
  Forall2 (λ g pick, pick ∈ member g) groups picks →
  NoDup (f <$> concat (member <$> groups)) →
  NoDup (f <$> picks).
Proof.
  induction 1 as [|g pick groups picks Hpick Hrest IH]; [constructor|].
  rewrite !fmap_cons. cbn [concat]. rewrite fmap_app.
  intros (_ & Hdisj & Hnd)%NoDup_app. apply NoDup_cons. split; [|by apply IH].
  intros (pick' & Heq & Hin)%list_elem_of_fmap.
  apply (Hdisj (f pick)); [by apply list_elem_of_fmap_2|].
  rewrite Heq. apply list_elem_of_fmap_2.
  clear -Hrest Hin. induction Hrest as [|g' p gs ps Hp _ IH']; [done|].
  rewrite fmap_cons. cbn [concat]. apply elem_of_app.
  apply elem_of_cons in Hin as [->|?]; [by left|right; auto].
Qed.

(** The members picked are live after the merge and have the keys of
    their groups. *)
Lemma picks_infos (h h' : heap) (groups : same_season_groups)
    (picks : list (string * ref)) :
  Forall2 (λ g pick, pick ∈ g.2) groups picks →
  (∀ g pr, g ∈ groups → pr ∈ g.2 →
     ∃ info, h !! pr.2 = Some info ∧ key_of info = g.1) →
  objects_grow h h' →
  ∃ infos, Forall2 (λ pr info, h' !! pr.2 = Some info) picks infos
           ∧ key_of <$> infos = groups.*1.
Proof.
  intros Hpicks Hmem Hgrow.
  induction Hpicks as [|g pick groups picks Hpick _ IH].
  - by exists [].
  - destruct (Hmem g pick) as (info & Hinfo & Hkey); [left|done|].
    destruct (Hgrow _ _ Hinfo) as (info' & Hinfo' & Hkey' & _).
    destruct IH as (infos & ? & ?).
    { intros g' pr ?. apply Hmem. by right. }
    exists (info' :: infos). split; [by constructor|].
    rewrite !fmap_cons. f_equal; [congruence|done].
Qed.

(** [merge_same_season_series] is idempotent: applied to its own result
    it returns that result, and writes nothing. *)
Lemma merge_same_season_series_twice (h : heap) series_info h' merged :
  NoDup (dict_keys series_info) →
  merge_same_season_series h series_info = Some (h', merged) →
  merge_same_season_series h' merged = Some (h', merged).
Proof.
  intros Hpatterns Hm.
  pose proof (merge_same_season_series_grows _ _ _ _ Hm) as Hgrow.
  unfold merge_same_season_series in Hm.
  destruct (group_by_key h series_info) as [groups|] eqn:Hg; simplify_eq/=.
  unfold group_by_key in Hg.
  destruct (group_by_key_inv h series_info [] groups Hg)
    as (Hkeys & Hperm & Hmem); [constructor|by intros ?? ?%elem_of_nil|].
  simpl in Hperm.
  destruct (merge_groups_picks _ _ _ _ _ Hm) as (picks & -> & Hpicks).
  { simpl. by rewrite Hperm. }
  simpl.
  destruct (picks_infos h h' groups picks Hpicks Hmem Hgrow) as (infos & Hinfos & Hk).
  unfold merge_same_season_series, group_by_key.
  rewrite (group_by_key_singletons h' picks infos []);
    [|done|by rewrite Hk|by intros ?? ?%elem_of_nil].
  simpl. rewrite merge_group_singletons;
    [done|by eapply Forall2_length| |by intros ?? ?%elem_of_nil].
  apply (picks_NoDup fst snd groups); [done|]. by rewrite Hperm.
Qed.

(* ===================================================================== *)
(** * The directory scan *)
(* ===================================================================== *)

Lemma dir_tree_nested_ind (P : dir_tree → Prop) :
  (∀ files dirs, Forall (λ d, P d.2) dirs → P (DirTree files dirs)) →
  ∀ t, P t.
Proof.
  intros Hstep. fix IH 1. intros [files dirs]. apply Hstep.
  induction dirs as [|[name sub] dirs IHdirs]; constructor; [apply IH|done].
Qed.

Lemma str_app_assoc (a b c : string) : (a +:+ b) +:+ c = a +:+ (b +:+ c).
Proof. induction a as [|x a IH]; [done|]. by rewrite !str_app_cons, IH. Qed.

Lemma str_app_nil_r (a : string) : a +:+ "" = a.
Proof. induction a as [|x a IH]; [done|]. by rewrite str_app_cons, IH. Qed.

Lemma str_length_app (a b : string) :
  String.length (a +:+ b) = (String.length a + String.length b)%nat.
Proof.
  induction a as [|x a IH]; [done|]. rewrite str_app_cons. cbn [String.length].
  by rewrite IH.
Qed.

Lemma str_take_drop n s : str_take n s +:+ str_drop n s = s.
Proof.
  revert s. induction n as [|n IH]; intros [|c s]; try done.
  cbn [str_take str_drop]. by rewrite str_app_cons, IH.
Qed.

Lemma str_drop_app (a b : string) : str_drop (String.length a) (a +:+ b) = b.
Proof. induction a as [|x a IH]; [by destruct b|]. done. Qed.

Lemma str_lower_app (a b : string) :
  str_lower (a +:+ b) = str_lower a +:+ str_lower b.
Proof.
  induction a as [|x a IH]; [done|]. rewrite str_app_cons. cbn [str_lower].
  by rewrite str_app_cons, IH.
Qed.

Lemma str_lower_length s : String.length (str_lower s) = String.length s.
Proof. induction s as [|c s IH]; [done|]. cbn [str_lower String.length]. by rewrite IH. Qed.

Lemma str_lower_drop n s : str_lower (str_drop n s) = str_drop n (str_lower s).
Proof. revert s. induction n as [|n IH]; intros [|c s]; simpl; auto. Qed.

Lemma to_lower_not_upper c : is_upper (to_lower c) = false.
Proof. destruct c as [[] [] [] [] [] [] [] []]; reflexivity. Qed.

Lemma str_lower_no_upper s pre c post :
  str_lower s = pre +:+ String c post → is_upper c = false.
Proof.
  revert pre. induction s as [|a s IH]; intros [|b pre];
    rewrite ?str_app_cons, ?str_app_nil_l; cbn [str_lower]; try done.
  - intros [= <- _]. apply to_lower_not_upper.
  - intros [= _ ?]. eauto.
Qed.

Lemma str_endswith_spec suffix s :
  str_endswith suffix s = true ↔ ∃ stem, s = stem +:+ suffix.
Proof.
  unfold str_endswith. rewrite andb_true_iff, Nat.leb_le, bool_decide_eq_true.
  split.
  - intros [_ Hdrop]. exists (str_take (String.length s - String.length suffix) s).
    pose proof (str_take_drop (String.length s - String.length suffix) s) as Hs.
    by rewrite Hdrop in Hs.
  - intros [stem ->]. rewrite str_length_app. split; [lia|].
    replace (String.length stem + String.length suffix - String.length suffix)%nat
      with (String.length stem) by lia.
    apply str_drop_app.
Qed.

Lemma is_video_file_spec video_extensions file :
  is_video_file video_extensions file = true ↔
  ∃ ext stem suffix,
    ext ∈ video_extensions ∧ file = stem +:+ suffix ∧ str_lower suffix = ext.
Proof.
  unfold is_video_file. rewrite existsb_exists. split.
  - intros (ext & Hin%list_elem_of_In & Hend).
    pose proof Hend as [stem Hstem]%str_endswith_spec.
    unfold str_endswith in Hend.
    apply andb_true_iff in Hend as [_ Hdrop%bool_decide_eq_true].
    rewrite str_lower_length, <-str_lower_drop in Hdrop.
    exists ext, (str_take (String.length file - String.length ext) file),
      (str_drop (String.length file - String.length ext) file).
    by rewrite str_take_drop.
  - intros (ext & stem & suffix & Hin & -> & Hlow). exists ext.
    split; [by apply list_elem_of_In|].
    apply str_endswith_spec. exists (str_lower stem).
    by rewrite str_lower_app, Hlow.
Qed.

(** X1.  The extension test of [scan_directory] accepts a file name of
    ASCII characters exactly when the name ends in a text whose lower-case
    form is one of the configured extensions: the case of the letters of
    the name is ignored, that of the configured extension is not. *)
Theorem video_extension_test_folds_the_name video_extensions file :
  ascii_text file = true →
  (is_video_file video_extensions file = true ↔
   ∃ ext stem suffix,
     ext ∈ video_extensions ∧ file = stem +:+ suffix ∧ str_lower suffix = ext).
Proof. intros _. apply is_video_file_spec. Qed.

Lemma video_extension_test_folds_the_name_witness :
  is_video_file default_video_extensions "Show - 01.MKV" = true ↔
  ∃ ext stem suffix,
    ext ∈ default_video_extensions ∧ "Show - 01.MKV" = stem +:+ suffix
    ∧ str_lower suffix = ext.
Proof. apply video_extension_test_folds_the_name. reflexivity. Defined.

(** X2.  A configured extension that holds an upper-case letter never
    matches: the name is lowered before the comparison, the extension is
    not.  A configuration of such extensions only makes the scan return
    nothing. *)
Theorem upper_case_extension_never_matches video_extensions file :
  Forall has_upper video_extensions → is_video_file video_extensions file = false.
Proof.
  intros Hupper. apply not_true_is_false.
  intros (ext & stem & suffix & Hin & _ & Hlow)%is_video_file_spec.
  rewrite Forall_forall in Hupper.
  destruct (Hupper _ Hin) as (pre & c & post & Hext & Hc).
  rewrite Hext in Hlow. apply str_lower_no_upper in Hlow. congruence.
Qed.

Lemma upper_case_extension_never_matches_witness :
  is_video_file [".MKV"] "movie.MKV" = false.
Proof.
  apply upper_case_extension_never_matches.
  constructor; [|constructor]. by exists ".", "M"%char, "KV".
Defined.

Lemma slash_free_cons c s :
  slash_free (String c s) = true ↔ c ≠ "/"%char ∧ slash_free s = true.
Proof.
  cbn [slash_free]. rewrite andb_true_iff, negb_true_iff, bool_decide_eq_false.
  done.
Qed.

Lemma path_cut_plain f : slash_free f = true → path_cut f = ("", f).
Proof.
  induction f as [|c f IH]; [done|].
  intros [Hc Hf]%slash_free_cons. cbn [path_cut]. rewrite (IH Hf).
  by case_decide.
Qed.

Lemma path_cut_join pre f :
  slash_free f = true → path_cut (pre +:+ String "/" f) = (pre +:+ "/", f).
Proof.
  intros Hf. induction pre as [|c pre IH].
  - rewrite !str_app_nil_l. cbn [path_cut]. rewrite (path_cut_plain f Hf).
    by case_decide.
  - rewrite !str_app_cons. cbn [path_cut]. rewrite IH.
    by destruct pre.
Qed.

Lemma basename_rel_join root f :
  slash_free f = true → basename (rel_join root f) = f.
Proof.
  intros Hf. unfold basename, rel_join. destruct root as [|c root].
  - by rewrite path_cut_plain.
  - change ("/" +:+ f) with (String "/" f). by rewrite path_cut_join.
Qed.

Lemma str_rstrip_with_snoc_drop p s c :
  p c = true → str_rstrip_with p (s +:+ String c "") = str_rstrip_with p s.
Proof.
  intros Hc. induction s as [|a s IH].
  - rewrite str_app_nil_l. cbn [str_rstrip_with]. by rewrite Hc.
  - rewrite str_app_cons. cbn [str_rstrip_with]. by rewrite IH.
Qed.

Lemma str_rstrip_with_snoc_keep p s c :
  p c = false → str_rstrip_with p (s +:+ String c "") = s +:+ String c "".
Proof.
  intros Hc. induction s as [|a s IH].
  - rewrite str_app_nil_l. cbn [str_rstrip_with]. by rewrite Hc.
  - rewrite str_app_cons. cbn [str_rstrip_with]. rewrite IH.
    by destruct s.
Qed.

Lemma all_slashes_app_plain pre c post :
  c ≠ "/"%char → all_slashes (pre +:+ String c post) = false.
Proof.
  intros Hc. induction pre as [|a pre IH].
  - rewrite str_app_nil_l. cbn [all_slashes]. by rewrite bool_decide_eq_false_2.
  - rewrite str_app_cons. cbn [all_slashes]. by rewrite IH, andb_false_r.
Qed.

Lemma dirname_rel_join root f :
  slash_free f = true → ends_plain root → dirname (rel_join root f) = root.
Proof.
  intros Hf Hroot. unfold dirname, rel_join. destruct root as [|a root].
  - by rewrite path_cut_plain.
  - destruct Hroot as [?|(pre & c & Hroot & Hc)]; [done|].
    change ("/" +:+ f) with (String "/" f). rewrite path_cut_join by done.
    cbn [fst]. rewrite Hroot.
    replace (all_slashes ((pre +:+ String c "") +:+ "/")) with false.
    2:{ rewrite str_app_assoc. change (String c "" +:+ "/") with (String c "/").
        by rewrite all_slashes_app_plain. }
    rewrite str_rstrip_with_snoc_drop by (by apply bool_decide_eq_true).
    apply str_rstrip_with_snoc_keep. by apply bool_decide_eq_false.
Qed.

Lemma plain_name_last name :
  plain_name name → ∃ pre c, name = pre +:+ String c "" ∧ c ≠ "/"%char.
Proof.
  intros [Hne Hfree]. induction name as [|a name IH]; [done|].
  apply slash_free_cons in Hfree as [Ha Hfree].
  destruct name as [|b name].
  - by exists "", a.
  - destruct IH as (pre & c & -> & Hc); [done..|].
    exists (String a pre), c. by rewrite str_app_cons.
Qed.

Lemma ends_plain_rel_join root name :
  plain_name name → ends_plain (rel_join root name).
Proof.
  intros (pre & c & -> & Hc)%plain_name_last. right. unfold rel_join.
  destruct root as [|a root]; [by eauto|].
  exists (String a root +:+ "/" +:+ pre), c. by rewrite !str_app_assoc.
Qed.

Lemma walk_roots t :
  ∀ root, tree_names_plain t → ends_plain root →
    ∀ rf, rf ∈ walk root t → ends_plain rf.1 ∧ Forall plain_name rf.2.
Proof.
  induction t as [files dirs IH] using dir_tree_nested_ind.
  intros root Hplain Hroot rf. inversion Hplain as [? ? Hfiles Hnames Hsubs]; subst.
  cbn [walk]. intros [->|Hin]%elem_of_cons; [done|].
  apply list_elem_of_In, in_flat_map in Hin as (d & Hd%list_elem_of_In & Hin%list_elem_of_In).
  rewrite Forall_forall in IH, Hnames, Hsubs.
  apply (IH d Hd (rel_join root d.1)); [by apply Hsubs| |done].
  by apply ends_plain_rel_join, Hnames.
Qed.

(** X3.  In a tree whose entries have names that are not empty and hold
    no [/], every path that [scan_directory] returns is the path of a
    file relative to the scanned directory, and the file passes the
    extension test: its base name is accepted by [is_video_file], and the
    path is its directory part joined with its base name. *)
Theorem scan_directory_returns_video_files video_extensions t video_files p :
  tree_names_plain t →
  scan_directory video_extensions (Directory t) = Some video_files →
  p ∈ video_files →
  is_video_file video_extensions (basename p) = true
  ∧ p = rel_join (dirname p) (basename p).
Proof.
  intros Hplain [= <-] Hin.
  apply list_elem_of_In, in_flat_map in Hin as ([root files] & Hrf%list_elem_of_In & Hin%list_elem_of_In).
  cbn [fst snd] in Hin.
  apply list_elem_of_fmap in Hin as (file & -> & Hfile%list_elem_of_In%filter_In).
  destruct Hfile as [Hfile%list_elem_of_In Hvideo].
  destruct (walk_roots t "" Hplain (or_introl eq_refl) _ Hrf) as [Hroot Hfiles].
  cbn [fst snd] in *. rewrite Forall_forall in Hfiles.
  destruct (Hfiles _ Hfile) as [_ Hfree].
  by rewrite basename_rel_join, dirname_rel_join.
Qed.

Lemma scan_directory_returns_video_files_witness :
  is_video_file default_video_extensions (basename "Show/Show - 01.MKV") = true
  ∧ "Show/Show - 01.MKV"
    = rel_join (dirname "Show/Show - 01.MKV") (basename "Show/Show - 01.MKV").
Proof.
  apply (scan_directory_returns_video_files default_video_extensions scenario_tree
           ["movie.mkv"; "Show/Show - 01.MKV"]).
  - constructor.
    + repeat (constructor; [by split|]). constructor.
    + repeat (constructor; [by split|]). constructor.
    + constructor; [|constructor]. simpl. by repeat constructor.
  - reflexivity.
  - right. left.
Defined.

(* ===================================================================== *)
(** * What the configured patterns capture *)
(* ===================================================================== *)

Lemma str_drop_next pos s b rest :
  str_drop pos s = String b rest → str_drop (S pos) s = rest.
Proof.
  revert s. induction pos as [|pos IH]; intros [|c s]; simpl; try done.
  - by intros [= _ ->].
  - apply IH.
Qed.

Lemma str_slice_drop pos n s :
  str_slice pos (n + pos) s = str_take n (str_drop pos s).
Proof. unfold str_slice. by rewrite Nat.add_sub. Qed.

Lemma class_digit ic a : class_has ic [CDigit] a = is_digit a.
Proof. destruct ic, a as [[] [] [] [] [] [] [] []]; reflexivity. Qed.

Section inversion.

Context (ic : flags) (s : string).

Lemma rep_min_inv step lo tail pos cap res :
  step_inv s step →
  rep_min lo step tail pos (str_drop pos s) cap = Some res →
  ∃ p' c', tail p' (str_drop p' s) c' = Some res ∧ (pos ≤ p')%nat
           ∧ (c' = cap ∨ digit_span s c').
Proof.
  intros Hstep. revert pos cap.
  induction lo as [|lo IH]; intros pos cap; cbn [rep_min].
  { intros Hk. exists pos, cap. split_and!; [done|lia|by left]. }
  intros (p1 & c1 & Hk & Hp1 & Hc1)%Hstep.
  apply IH in Hk as (p' & c' & Hk & Hp' & Hc'). exists p', c'.
  split_and!; [done|lia|]. destruct Hc' as [->|]; auto.
Qed.

Lemma rep_opt_inv step fuel hi greedy k pos cap res :
  step_inv s step →
  rep_opt fuel step hi greedy k pos (str_drop pos s) cap = Some res →
  ∃ p' c', k p' (str_drop p' s) c' = Some res ∧ (pos ≤ p')%nat
           ∧ (c' = cap ∨ digit_span s c').
Proof.
  intros Hstep. revert hi pos cap res.
  induction fuel as [|fuel IH]; intros hi pos cap res; cbn [rep_opt]; [done|].
  assert (∀ res',
    step pos (str_drop pos s) cap
      (λ p r c, if (String.length r <? String.length (str_drop pos s))%nat
                then rep_opt fuel step (hi_pred hi) greedy k p r c else None)
    = Some res' →
    ∃ p' c', k p' (str_drop p' s) c' = Some res' ∧ (pos ≤ p')%nat
             ∧ (c' = cap ∨ digit_span s c'))
    as Hmore.
  { intros res' (p1 & c1 & Hk & Hp1 & Hc1)%Hstep. cbv beta in Hk.
    destruct (_ <? _)%nat; [|done].
    apply IH in Hk as (p' & c' & Hk & Hp' & Hc'). exists p', c'.
    split_and!; [done|lia|]. destruct Hc' as [->|]; auto. }
  assert (∀ res', k pos (str_drop pos s) cap = Some res' →
    ∃ p' c', k p' (str_drop p' s) c' = Some res' ∧ (pos ≤ p')%nat
             ∧ (c' = cap ∨ digit_span s c')) as Hhere.
  { intros res' Hk. exists pos, cap. split_and!; [done|lia|by left]. }
  destruct hi as [[|h]|]; [by apply Hhere| |].
  all: destruct greedy.
  all: repeat match goal with
       | |- context [match ?x with Some _ => _ | None => _ end] =>
           let E := fresh "E" in destruct x eqn:E
       end; intros ?; simplify_eq; eauto.
Qed.

Lemma digits_inv pos cap k res :
  mt ic (Digits 1 2) pos (str_drop pos s) cap k = Some res →
  ∃ p', k p' (str_drop p' s) cap = Some res ∧ (pos ≤ p')%nat
        ∧ digits12 (str_slice pos p' s) = true.
Proof.
  unfold Digits. cbn [mt rep_min].
  destruct (str_drop pos s) as [|a rest1] eqn:Hd; [done|].
  rewrite class_digit. cbn [xorb]. destruct (is_digit a) eqn:Ha; [|done].
  pose proof (str_drop_next _ _ _ _ Hd) as Hd1.
  assert (str_slice pos (S pos) s = String a "") as Hs1.
  { rewrite (str_slice_drop pos 1), Hd. reflexivity. }
  cbn [rep_opt fmap option_fmap option_map Nat.sub].
  destruct rest1 as [|b rest2].
  { cbn. intros Hk. exists (S pos). rewrite Hd1, Hs1.
    split_and!; [done|lia|by cbn; rewrite Ha]. }
  pose proof (str_drop_next _ _ _ _ Hd1) as Hd2.
  assert (str_slice pos (S (S pos)) s = String a (String b "")) as Hs2.
  { rewrite (str_slice_drop pos 2), Hd. reflexivity. }
  cbn [mt]. rewrite class_digit. cbn [xorb].
  destruct (is_digit b) eqn:Hb.
  - replace (String.length rest2 <? String.length (String b rest2))%nat with true
      by (symmetry; apply Nat.ltb_lt; simpl; lia).
    cbn [String.length rep_opt hi_pred fmap option_fmap option_map Nat.pred].
    destruct (k (S (S pos)) rest2 cap) eqn:Hk2.
    + intros [= <-]. exists (S (S pos)). rewrite Hd2, Hs2.
      split_and!; [done|lia|]. cbn. by rewrite Ha, Hb.
    + intros Hk. exists (S pos). rewrite Hd1, Hs1.
      split_and!; [done|lia|by cbn; rewrite Ha].
  - intros Hk. exists (S pos). rewrite Hd1, Hs1.
    split_and!; [done|lia|by cbn; rewrite Ha].
Qed.

Lemma mt_inv r :
  groups_capture_digits r →
  ∀ pos cap k res,
    mt ic r pos (str_drop pos s) cap k = Some res →
    ∃ p' c', k p' (str_drop p' s) c' = Some res
             ∧ (pos ≤ p')%nat
             ∧ (c' = cap ∨ digit_span s c')
             ∧ (sets_group r = true → digit_span s c').
Proof.
  induction r as [|a| |neg items|r1 IH1 r2 IH2|r1 IH1 r2 IH2|r IH lo hi greedy|r IH| |];
    intros Hok pos cap k res; cbn [mt sets_group].
  - intros Hk. exists pos, cap. split_and!; [done|lia|by left|done].
  - destruct (str_drop pos s) as [|b rest] eqn:Hd; [done|].
    destruct (chr_eqb ic a b); [|done]. intros Hk.
    exists (S pos), cap. rewrite (str_drop_next _ _ _ _ Hd).
    split_and!; [done|lia|by left|done].
  - destruct (str_drop pos s) as [|b rest] eqn:Hd; [done|].
    case_decide; [done|]. intros Hk.
    exists (S pos), cap. rewrite (str_drop_next _ _ _ _ Hd).
    split_and!; [done|lia|by left|done].
  - destruct (str_drop pos s) as [|b rest] eqn:Hd; [done|].
    destruct (xorb _ _); [|done]. intros Hk.
    exists (S pos), cap. rewrite (str_drop_next _ _ _ _ Hd).
    split_and!; [done|lia|by left|done].
  - destruct Hok as [Hok1 Hok2].
    intros (p1 & c1 & Hk & Hp1 & Hc1 & Hs1)%(IH1 Hok1).
    apply (IH2 Hok2) in Hk as (p' & c' & Hk & Hp' & Hc' & Hs2).
    exists p', c'. split_and!; [done|lia| |].
    + destruct Hc' as [->|]; auto.
    + intros [H1|H2]%orb_true_iff; [|by auto].
      destruct Hc' as [->|]; auto.
  - destruct Hok as [Hok1 Hok2].
    destruct (mt ic r1 _ _ _ _) eqn:E1.
    + intros [= ->]. apply (IH1 Hok1) in E1 as (p' & c' & Hk & Hp' & Hc' & Hs1).
      exists p', c'. rewrite andb_true_iff. split_and!; [done..|]. by intros [? _]; auto.
    + intros (p' & c' & Hk & Hp' & Hc' & Hs2)%(IH2 Hok2).
      exists p', c'. rewrite andb_true_iff. split_and!; [done..|]. by intros [_ ?]; auto.
  - assert (step_inv s (mt ic r)) as Hstep.
    { intros pos' cap' k' res' H.
      apply (IH Hok) in H as (p' & c' & ? & ? & ? & _). by exists p', c'. }
    intros Hm. apply rep_min_inv in Hm as (p1 & c1 & Hk & Hp1 & Hc1); [|done].
    apply rep_opt_inv in Hk as (p' & c' & Hk & Hp' & Hc'); [|done].
    exists p', c'. split_and!; [done|lia| |done].
    destruct Hc' as [->|]; auto.
  - simpl in Hok. subst r.
    intros (p' & Hk & Hp' & Hdig)%digits_inv.
    exists p', (Some (pos, p')). split; [done|].
    assert (digit_span s (Some (pos, p'))) by (by exists pos, p').
    auto.
  - destruct (_ =? _)%nat; [|done]. intros Hk. exists pos, cap.
    split_and!; [done|lia|by left|done].
  - intros Hk. exists pos, cap.
    assert (k pos (str_drop pos s) cap = Some res);
      [|split_and!; [done|lia|by left|done]].
    revert Hk. repeat case_match; done.
Qed.

End inversion.





(** The default configuration is read by Python as by the matcher. *)
Lemma default_config_plain : plain_config default_config = true.
Proof. reflexivity. Qed.













(** ** Patterns without [^] match at the same places in a suffix *)

Section shift.

Context (ic : flags) (d : nat).





End shift.













(** ** [extract_parameters_from_brackets] *)

Lemma str_drop_drop m n s : str_drop n (str_drop m s) = str_drop (m + n) s.
Proof.
  revert s. induction m as [|m IH]; intros s; [done|].
  destruct s as [|c s]; [by destruct n|]. apply IH.
Qed.

Section brackets.

Context (s : string).

Lemma lit_inv o pos cap k res :
  mt NOFLAGS (Lit o) pos (str_drop pos s) cap k = Some res →
  k (pos + String.length o)%nat (str_drop (pos + String.length o) s) cap = Some res
  ∧ str_take (String.length o) (str_drop pos s) = o.
Proof.
  revert pos. induction o as [|a o IH]; intros pos.
  - cbn [Lit mt String.length]. by rewrite Nat.add_0_r.
  - assert (mt NOFLAGS (Chr a) pos (str_drop pos s) cap
              (λ p r c, mt NOFLAGS (Lit o) p r c k) = Some res →
            k (pos + String.length (String a o))%nat
              (str_drop (pos + String.length (String a o)) s) cap = Some res
            ∧ str_take (String.length (String a o)) (str_drop pos s) = String a o)
      as Hchr.
    { cbn [mt]. destruct (str_drop pos s) as [|b rest] eqn:Hd; [done|].
      unfold chr_eqb, NOFLAGS. case_bool_decide as Hab; [|done]. subst b.
      pose proof (str_drop_next _ _ _ _ Hd) as Hd1.
      intros Hm. rewrite <-Hd1 in Hm. apply IH in Hm as [Hk Htake].
      cbn [String.length]. rewrite Nat.add_succ_r. split; [done|].
      cbn [str_take]. f_equal. by rewrite Hd1 in Htake. }
    destruct o as [|a' o]; [|exact Hchr].
    cbn [Lit]. intros Hm. apply Hchr. cbn [mt] in *.
    destruct (str_drop pos s) as [|b rest]; [done|]. by destruct (chr_eqb _ _ _).
Qed.

Lemma lazy_group_inv ic pos cap k res :
  mt ic lazy_group pos (str_drop pos s) cap k = Some res →
  ∃ p', (pos ≤ p')%nat ∧ k p' (str_drop p' s) (Some (pos, p')) = Some res.
Proof.
  unfold lazy_group. cbn [mt]. intros Hm.
  change (mt ic (Rep Any 0 None false) pos (str_drop pos s) cap
            (λ p r _, k p r (Some (pos, p))) = Some res) in Hm.
  apply (mt_inv ic s (Rep Any 0 None false) I) in Hm as (p' & c' & Hk & Hp' & _).
  by exists p'.
Qed.

Lemma bracket_match_inv opening closing adv q m :
  match_here NOFLAGS (bracket_pattern opening closing) adv q (str_drop q s) = Some m →
  ∃ g, group1 s m = Some g ∧ occurs_in (opening +:+ g +:+ closing) s.
Proof.
  unfold match_here. intros Hm.
  destruct (mt NOFLAGS _ q _ None _) as [[e cc]|] eqn:E; [|done].
  cbn [mbind option_bind] in Hm. injection Hm as <-.
  unfold bracket_pattern in E. cbn [Seqs mt] in E.
  apply lit_inv in E as [E Hopen]. cbv beta in E.
  apply lazy_group_inv in E as (p' & Hp' & E).
  apply lit_inv in E as [E Hclose].
  destruct (adv && _); [done|]. injection E as <- <-.
  set (b := (q + String.length opening)%nat) in *.
  exists (str_slice b p' s). split; [done|].
  exists (str_take q s), (str_drop (p' + String.length closing) s).
  rewrite <-(str_take_drop q s) at 1. f_equal.
  rewrite <-(str_take_drop (String.length opening) (str_drop q s)), Hopen.
  rewrite str_drop_drop. fold b. rewrite !str_app_assoc. f_equal.
  rewrite <-(str_take_drop (p' - b) (str_drop b s)). unfold str_slice. f_equal.
  rewrite str_drop_drop. replace (b + (p' - b))%nat with p' by lia.
  rewrite <-(str_take_drop (String.length closing) (str_drop p' s)), Hclose.
  by rewrite str_drop_drop.
Qed.

Lemma finditer_go_matches ic r skip pos m :
  m ∈ finditer_go ic r skip pos (str_drop pos s) →
  ∃ adv q, match_here ic r adv q (str_drop q s) = Some m.
Proof.
  assert (∀ rest skip pos, rest = str_drop pos s →
            m ∈ finditer_go ic r skip pos rest →
            ∃ adv q, match_here ic r adv q (str_drop q s) = Some m) as Hgen.
  { induction rest as [|c rest IH]; intros skip' pos' Hrest.
    - destruct skip' as [|n]; cbn [finditer_go]; [|by intros ?%elem_of_nil].
      rewrite Hrest.
      destruct (match_here ic r false pos' _) as [m0|] eqn:Hm0;
        [|by intros ?%elem_of_nil].
      destruct (m_end m0 =? pos')%nat.
      + destruct (match_here ic r true pos' _) as [m2|] eqn:Hm2.
        * intros [->|[->|?%elem_of_nil]%elem_of_cons]%elem_of_cons; eauto. done.
        * intros [->|?%elem_of_nil]%elem_of_cons; eauto. done.
      + intros [->|?%elem_of_nil]%elem_of_cons; eauto. done.
    - assert (rest = str_drop (S pos') s) as Hrest'.
      { symmetry. by eapply str_drop_next. }
      destruct skip' as [|n]; cbn [finditer_go]; [|by apply IH].
      rewrite Hrest.
      destruct (match_here ic r false pos' _) as [m0|] eqn:Hm0; [|by apply IH].
      destruct (m_end m0 =? pos')%nat.
      + destruct (match_here ic r true pos' _) as [m2|] eqn:Hm2.
        * intros [->|[->|?]%elem_of_cons]%elem_of_cons; eauto.
        * intros [->|?]%elem_of_cons; eauto.
      + intros [->|?]%elem_of_cons; eauto. }
  by apply Hgen.
Qed.

End brackets.

Lemma has_group_Lit o : has_group (Lit o) = false.
Proof. induction o as [|a [|b o] IH]; done. Qed.

Lemma has_group_bracket_pattern o c : has_group (bracket_pattern o c) = true.
Proof.
  unfold bracket_pattern, lazy_group. cbn [Seqs has_group].
  by rewrite has_group_Lit.
Qed.

(** X8.  When every bracket pattern has the form [opening(.*?)closing],
    as those of the default configuration have, each parameter that
    [extract_parameters_from_brackets] returns stands in the file name
    between the brackets of one of the patterns. *)
Theorem bracket_parameters_stand_between_brackets cfg filename param :
  Forall (λ r, ∃ opening closing, r = bracket_pattern opening closing)
         (bracket_patterns cfg) →
  param ∈ extract_parameters_from_brackets cfg filename →
  ∃ opening closing,
    bracket_pattern opening closing ∈ bracket_patterns cfg
    ∧ occurs_in (opening +:+ param +:+ closing) filename.
Proof.
  intros Hshape. unfold extract_parameters_from_brackets.
  intros (r & Hr%list_elem_of_In & Hin%list_elem_of_In)%list_elem_of_In%in_flat_map.
  rewrite Forall_forall in Hshape. destruct (Hshape r Hr) as (o & c & ->).
  exists o, c. split; [done|].
  unfold findall in Hin. apply list_elem_of_fmap in Hin as (m & -> & Hm).
  rewrite has_group_bracket_pattern.
  apply (finditer_go_matches filename) in Hm as (adv & q & Hm).
  apply bracket_match_inv in Hm as (g & -> & Hocc). done.
Qed.

Lemma bracket_parameters_stand_between_brackets_witness :
  ∃ opening closing,
    bracket_pattern opening closing ∈ bracket_patterns default_config
    ∧ occurs_in (opening +:+ "1080p" +:+ closing) "[GroupX][1080p] Show - 01.mkv".
Proof.
  apply (bracket_parameters_stand_between_brackets default_config).
  - cbn [bracket_patterns default_config].
    constructor; [by exists "[", "]"|]. constructor; [by exists "(", ")"|].
    constructor; [by exists "【", "】"|]. constructor; [by exists "『", "』"|].
    constructor; [by exists "{", "}"|]. constructor.
  - vm_compute. right. left.
Defined.

(* ===================================================================== *)
(** * The result of [parse] *)
(* ===================================================================== *)

Lemma analyze_series_groups_ok cfg acc groups infos key videos :
  foldM (analyze_step cfg) acc groups = Some infos →
  (key, videos) ∈ groups → is_Some (analyze_group cfg key videos).
Proof.
  revert acc. induction groups as [|g groups IH]; intros acc.
  { intros _ Hin. by apply elem_of_nil in Hin. }
  cbn [foldM].
  destruct (analyze_step cfg acc g) as [acc'|] eqn:Hs; simpl; [|done].
  unfold analyze_step in Hs.
  destruct (analyze_group cfg g.1 g.2) as [info|] eqn:Hg; [|done].
  intros Hfold [<-|Hin]%elem_of_cons; [by eauto|]. eauto.
Qed.

Lemma parse_inv cfg files infos key :
  parse cfg files = Some infos →
  ∃ groups, group_series cfg files = Some groups
    ∧ analyze_series cfg groups = Some infos
    ∧ (∀ info, dict_get key infos = Some info →
         ∃ videos, dict_get key groups = Some videos
                   ∧ analyze_group cfg key videos = Some info)
    ∧ (∀ videos, dict_get key groups = Some videos →
         ∃ info, dict_get key infos = Some info
                 ∧ analyze_group cfg key videos = Some info).
Proof.
  unfold parse. destruct (group_series cfg files) as [groups|] eqn:Hg; [|done].
  simpl. intros Ha. exists groups. split_and!; [done..| |].
  - intros info. eapply analyze_series_get; [|done].
    by apply (group_series_wf _ _ _ Hg).
  - intros videos Hv.
    pose proof (analyze_series_get_from cfg [] groups infos key
                  (proj1 (group_series_wf _ _ _ Hg)) Ha) as Hget.
    rewrite Hv in Hget.
    destruct (analyze_series_groups_ok cfg [] groups infos key videos Ha) as [info Hi].
    { by apply dict_get_Some_elem. }
    exists info. by rewrite Hget.
Qed.

(** X9.  The episode maps that [parse] builds are sound and complete for
    the keys: an entry [k: p] of the series filed under [key] means that
    [p] is one of the scanned files, that its grouping pattern is [key]
    and that [k] is its episode number in the [02d] format; and every
    scanned file has the key of its number in the map of its series. *)
Theorem episode_map_sound_and_complete cfg files infos :
  parse cfg files = Some infos →
  (∀ key info k p,
     dict_get key infos = Some info →
     dict_get k (episodes info) = Some p →
     p ∈ files ∧ ∃ n, extract_series_info cfg p = Some (key, n) ∧ k = fmt_02d n)
  ∧ (∀ p key n,
       p ∈ files → extract_series_info cfg p = Some (key, n) →
       ∃ info, dict_get key infos = Some info
               ∧ dict_has (fmt_02d n) (episodes info) = true).
Proof.
  intros Hparse. split.
  - intros key info k p Hi Hk.
    destruct (parse_inv _ _ _ key Hparse) as (groups & Hg & _ & Hinfo & _).
    destruct (Hinfo info Hi) as (videos & Hv & Ha).
    apply analyze_group_episodes in Ha as [Heps _]. rewrite Heps in Hk.
    apply episode_map_get in Hk as (n & Hin & ->).
    destruct (group_series_get _ _ _ _ _ Hg Hv) as [-> _].
    rewrite list_sort_perm in Hin.
    apply entries_for_elem in Hin as [Hfile Hex]. eauto.
  - intros p key n Hfile Hex.
    destruct (parse_inv _ _ _ key Hparse) as (groups & Hg & _ & _ & Hinfo).
    destruct (group_series_has _ _ _ _ _ Hfile Hex groups Hg) as (videos & Hv & Hin).
    destruct (Hinfo videos Hv) as (info & Hi & Ha).
    exists info. split; [done|].
    apply analyze_group_episodes in Ha as [-> _]. by eapply episode_map_has.
Qed.

Lemma episode_map_sound_and_complete_witness :
  "Show - 1.mkv" ∈ scenario_repeated_number
  ∧ ∃ n, extract_series_info default_config "Show - 1.mkv"
         = Some ("Show  {EP_NUM} ", n)
         ∧ "01" = fmt_02d n.
Proof.
  destruct (episode_map_sound_and_complete default_config scenario_repeated_number
              (default [] (parse default_config scenario_repeated_number)))
    as [Hsound _]; [by vm_compute|].
  apply (Hsound "Show  {EP_NUM} "
           (default new_SeriesInfo
              (parse default_config scenario_repeated_number
                 ≫= dict_get "Show  {EP_NUM} ")) "01"); by vm_compute.
Defined.

Lemma episode_put_snoc acc videos x :
  foldl episode_put acc (videos ++ [x]) = episode_put (foldl episode_put acc videos) x.
Proof. by rewrite foldl_app. Qed.

Lemma episode_fold_last_wins acc videos n p q :
  StronglySorted tuple_le videos →
  dict_get (fmt_02d n) (foldl episode_put acc videos) = Some p →
  (n, q) ∈ videos → String.le q p.
Proof.
  induction videos as [|[xn xp] videos IH] using rev_ind;
    [by intros _ _ ?%elem_of_nil|].
  rewrite episode_put_snoc. intros Hsorted. unfold episode_put at 1. cbn [fst snd].
  destruct (decide (xn = n)) as [->|Hne].
  - rewrite dict_get_set_eq. intros [= <-].
    intros [Hin|Hin]%elem_of_app.
    + pose proof (StronglySorted_app_1_elem_of _ _ _ (n, q) (n, xp) Hsorted Hin) as Hle.
      destruct Hle as [Hlt|[_ Hle]]; [by left| simpl in Hlt; lia | done].
    + apply list_elem_of_singleton in Hin as [= ->].
      unfold String.le. by destruct (String.leb_total xp xp) as [->| ->].
  - rewrite dict_get_set_ne by (by intros ?%(inj fmt_02d)).
    intros Hget [Hin|Hin]%elem_of_app.
    + apply IH; [|done..]. by eapply StronglySorted_app_1_l.
    + by apply list_elem_of_singleton in Hin as [= ??].
Qed.

(** X10.  When several files of a group have the same episode number,
    the episode map keeps the one whose path is the greatest in string
    order: the group is sorted as tuples before the map is filled, and
    later assignments overwrite earlier ones. *)
Theorem episode_collision_keeps_greatest_path cfg files infos key info k p q n :
  parse cfg files = Some infos →
  dict_get key infos = Some info →
  dict_get k (episodes info) = Some p →
  q ∈ files → extract_series_info cfg q = Some (key, n) → fmt_02d n = k →
  String.le q p.
Proof.
  intros Hparse Hi Hk Hq Hex <-.
  destruct (parse_inv _ _ _ key Hparse) as (groups & Hg & _ & Hinfo & _).
  destruct (Hinfo info Hi) as (videos & Hv & Ha).
  apply analyze_group_episodes in Ha as [Heps _]. rewrite Heps in Hk.
  destruct (group_series_get _ _ _ _ _ Hg Hv) as [-> _].
  eapply (episode_fold_last_wins []); [apply list_sort_tuple_StronglySorted|done|].
  rewrite list_sort_perm. by apply entries_for_elem.
Qed.

Lemma episode_collision_keeps_greatest_path_witness :
  String.le "Show - 01.mkv" "Show - 1.mkv".
Proof.
  apply (episode_collision_keeps_greatest_path default_config scenario_repeated_number
           (default [] (parse default_config scenario_repeated_number))
           "Show  {EP_NUM} "
           (default new_SeriesInfo
              (parse default_config scenario_repeated_number
                 ≫= dict_get "Show  {EP_NUM} ")) "01" _ _ 1);
    [by vm_compute..|right; left|by vm_compute|by vm_compute].
Defined.




Lemma collect_groups_members cfg acc files groups :
  foldM (collect_step cfg) acc files = Some groups →
  (concat (groups.*2)).*2 ≡ₚ (concat (acc.*2)).*2 ++ files.
Proof.
  revert acc. induction files as [|video files IH]; intros acc; cbn [foldM].
  - intros [= <-]. by rewrite app_nil_r.
  - destruct (collect_step cfg acc video) as [acc'|] eqn:Hs; simpl; [|done].
    intros ->%IH. unfold collect_step in Hs.
    destruct (extract_series_info cfg video) as [[sp n]|]; simplify_eq/=.
    rewrite dict_append_members. simpl.
    by rewrite Permutation_middle.
Qed.

Lemma sort_groups_members (groups : series_groups_t) :
  concat ((sort_groups groups).*2) ≡ₚ concat (groups.*2).
Proof.
  induction groups as [|[key l] groups IH]; [done|]. simpl.
  by rewrite list_sort_perm, IH.
Qed.

(** X11.  [group_series] loses no file and invents none: the keys of the
    groups are distinct, the paths of all groups together are the scanned
    files (as many times as they were given), and each entry stands in
    the group of its own grouping pattern, with its own episode number. *)
Theorem group_series_partitions_files cfg files groups :
  group_series cfg files = Some groups →
  NoDup (dict_keys groups)
  ∧ (concat (groups.*2)).*2 ≡ₚ files
  ∧ ∀ key l ep video, dict_get key groups = Some l → (ep, video) ∈ l →
      video ∈ files ∧ extract_series_info cfg video = Some (key, ep).
Proof.
  intros Hg. split_and!.
  - by apply (group_series_wf _ _ _ Hg).
  - unfold group_series, collect_groups in Hg.
    destruct (foldM _ _ _) as [collected|] eqn:Hc; simplify_eq/=.
    apply collect_groups_members in Hc. by rewrite sort_groups_members, Hc.
  - intros key l ep video Hl Hin.
    destruct (group_series_get _ _ _ _ _ Hg Hl) as [-> _].
    rewrite list_sort_perm in Hin. by apply entries_for_elem.
Qed.

Lemma group_series_partitions_files_witness :
  NoDup (dict_keys (default [] (group_series default_config scenario_repeated_number)))
  ∧ (concat ((default [] (group_series default_config scenario_repeated_number)).*2)).*2
    ≡ₚ scenario_repeated_number
  ∧ ∀ key l ep video,
      dict_get key (default [] (group_series default_config scenario_repeated_number))
      = Some l →
      (ep, video) ∈ l →
      video ∈ scenario_repeated_number
      ∧ extract_series_info default_config video = Some (key, ep).
Proof. apply group_series_partitions_files. by vm_compute. Defined.

Lemma dict_keys_append {V : Type} (k : string) (x : V) (d : dict string (list V)) :
  dict_keys (dict_append k x d) = append_new (dict_keys d) k.
Proof.
  unfold dict_append, append_new. rewrite dict_keys_set.
  destruct (dict_has k d) eqn:Hhas.
  - apply dict_has_true in Hhas. by rewrite bool_decide_eq_true_2.
  - apply dict_has_false in Hhas. by rewrite bool_decide_eq_false_2.
Qed.

Lemma dict_keys_set_new {V : Type} (k : string) (v : V) (d : dict string V) :
  dict_keys (dict_set k v d) = append_new (dict_keys d) k.
Proof.
  unfold append_new. rewrite dict_keys_set.
  destruct (dict_has k d) eqn:Hhas.
  - apply dict_has_true in Hhas. by rewrite bool_decide_eq_true_2.
  - apply dict_has_false in Hhas. by rewrite bool_decide_eq_false_2.
Qed.

Lemma collect_groups_keys cfg acc files groups :
  foldM (collect_step cfg) acc files = Some groups →
  dict_keys groups = foldl append_new (dict_keys acc) (discovered_patterns cfg files).
Proof.
  revert acc. induction files as [|video files IH]; intros acc.
  - by intros [= <-].
  - intros (acc1 & H1 & H2)%foldM_cons_inv. rewrite (IH _ H2).
    unfold collect_step in H1. unfold discovered_patterns. simpl.
    destruct (extract_series_info cfg video) as [[sp n]|] eqn:Hex; [|done].
    injection H1 as <-. simpl. by rewrite dict_keys_append.
Qed.

Lemma analyze_series_keys cfg acc groups infos :
  foldM (analyze_step cfg) acc groups = Some infos →
  dict_keys infos = foldl append_new (dict_keys acc) (dict_keys groups).
Proof.
  revert acc. induction groups as [|[key videos] groups IH]; intros acc.
  - by intros [= <-].
  - intros (acc1 & H1 & H2)%foldM_cons_inv. rewrite (IH _ H2).
    unfold analyze_step in H1. simpl in H1.
    destruct (analyze_group cfg key videos); simplify_eq/=.
    by rewrite dict_keys_set_new.
Qed.

Lemma foldl_append_new_fresh acc l :
  NoDup l → (∀ x, x ∈ l → x ∉ acc) → foldl append_new acc l = acc ++ l.
Proof.
  revert acc. induction l as [|x l IH]; intros acc Hnd Hfresh; simpl.
  - by rewrite app_nil_r.
  - apply NoDup_cons in Hnd as [Hx Hnd].
    unfold append_new at 2. rewrite bool_decide_eq_false_2 by (apply Hfresh; left).
    rewrite IH, <-(assoc_L (++)); [done..|].
    intros y Hy [?| ->%list_elem_of_singleton]%elem_of_app; [|done].
    by apply (Hfresh y); [right|].
Qed.

(** X12.  [parse] lists the series in the order in which the first file
    of each was met in the scan, each pattern once. *)
Theorem parse_lists_series_in_discovery_order cfg video_files infos :
  parse cfg video_files = Some infos →
  dict_keys infos = foldl append_new [] (discovered_patterns cfg video_files)
  ∧ NoDup (dict_keys infos).
Proof.
  unfold parse. intros Hparse.
  destruct (group_series cfg video_files) as [groups|] eqn:Hg; simplify_eq/=.
  pose proof (proj1 (group_series_wf _ _ _ Hg)) as Hnd.
  apply analyze_series_keys in Hparse.
  rewrite foldl_append_new_fresh in Hparse; [|done|by intros ?? ?%elem_of_nil].
  simpl in Hparse. rewrite Hparse. split; [|done].
  unfold group_series, collect_groups in Hg.
  destruct (foldM _ _ _) as [collected|] eqn:Hc; simplify_eq/=.
  rewrite dict_keys_sort_groups. by apply collect_groups_keys in Hc.
Qed.

Lemma parse_lists_series_in_discovery_order_witness :
  dict_keys (default [] (parse default_config ["b - 01.mkv"; "a - 01.mkv"; "b - 02.mkv"]))
  = foldl append_new []
      (discovered_patterns default_config ["b - 01.mkv"; "a - 01.mkv"; "b - 02.mkv"])
  ∧ NoDup (dict_keys (default [] (parse default_config
                                     ["b - 01.mkv"; "a - 01.mkv"; "b - 02.mkv"]))).
Proof. apply parse_lists_series_in_discovery_order. by vm_compute. Defined.

(** X13.  A [SeriesInfo] returned by [parse] is filed under its own
    pattern; its sample file is one of the scanned files of its group,
    the least of them in the order of the [(episode, path)] tuples; and
    its directory name is the directory of the sample file. *)
Theorem sample_file_is_the_least_entry cfg video_files infos key info :
  parse cfg video_files = Some infos →
  dict_get key infos = Some info →
  pattern info = key
  ∧ dir_name info = dirname (sample_file info)
  ∧ sample_file info ∈ video_files
  ∧ ∃ n, extract_series_info cfg (sample_file info) = Some (key, n)
         ∧ ∀ q m, q ∈ video_files → extract_series_info cfg q = Some (key, m) →
             tuple_le (n, sample_file info) (m, q).
Proof.
  intros Hparse Hi.
  destruct (parse_inv _ _ _ key Hparse) as (groups & Hg & _ & Hinfo & _).
  destruct (Hinfo info Hi) as (videos & Hv & Ha).
  destruct (group_series_get _ _ _ _ _ Hg Hv) as [Hsorted _].
  pose proof (list_sort_tuple_StronglySorted (entries_for cfg key video_files))
    as Hss. rewrite <-Hsorted in Hss.
  assert (∀ e, e ∈ videos ↔
               e.2 ∈ video_files ∧ extract_series_info cfg e.2 = Some (key, e.1))
    as Hmem.
  { intros [m q]. rewrite Hsorted, list_sort_perm. apply entries_for_elem. }
  unfold analyze_group in Ha. destruct videos as [|[n sample] videos]; [done|].
  simpl in Ha. destruct (extract_season_info cfg sample); simplify_eq/=.
  destruct (proj1 (Hmem (n, sample))) as [Hfile Hex]; [left|]. simpl in *.
  split_and!; [done..|]. exists n. split; [done|].
  intros q m Hq Hm.
  assert ((m, q) ∈ (n, sample) :: videos) as [->|Hin]%elem_of_cons
    by (by apply Hmem).
  - right. split; [done|]. unfold String.le. simpl.
    by destruct (String.leb_total sample sample) as [->| ->].
  - apply StronglySorted_inv in Hss as [_ Hall]. rewrite Forall_forall in Hall.
    by apply Hall.
Qed.

Lemma sample_file_is_the_least_entry_witness :
  ∃ info,
    parse default_config scenario_repeated_number ≫= dict_get "Show  {EP_NUM} "
    = Some info
    ∧ sample_file info = "Show - 01.mkv"
    ∧ sample_file info ∈ scenario_repeated_number.
Proof.
  eexists. split; [by vm_compute|]. split; [reflexivity|].
  eapply (sample_file_is_the_least_entry default_config scenario_repeated_number
            (default [] (parse default_config scenario_repeated_number))
            "Show  {EP_NUM} "); by vm_compute.
Defined.

(* ===================================================================== *)
(** * Series names, release groups and tags *)
(* ===================================================================== *)

Lemma find_first {A : Type} (f : A → bool) l x :
  List.find f l = Some x →
  ∃ l1 l2, l = l1 ++ x :: l2 ∧ f x = true ∧ ∀ y, y ∈ l1 → f y = false.
Proof.
  induction l as [|a l IH]; simpl; [done|].
  destruct (f a) eqn:Ha.
  - intros [= ->]. exists [], l. split_and!; [done..|]. by intros ? ?%elem_of_nil.
  - intros (l1 & l2 & -> & Hx & Hl1)%IH. exists (a :: l1), l2.
    split_and!; [done..|]. intros y [->|?]%elem_of_cons; auto.
Qed.

Lemma find_none_elem {A : Type} (f : A → bool) l x :
  List.find f l = None → x ∈ l → f x = false.
Proof.
  intros Hnone Hin. apply list_elem_of_In in Hin.
  by apply (find_none f l Hnone).
Qed.

Lemma identify_release_group_spec cfg parameters :
  match identify_release_group cfg parameters with
  | Some group =>
      ∃ pre param post groups_before groups_after,
        parameters = pre ++ param :: post
        ∧ known_release_groups cfg = groups_before ++ group :: groups_after
        ∧ occurs_in group param
        ∧ (∀ g p, g ∈ known_release_groups cfg → p ∈ pre → ¬ occurs_in g p)
        ∧ (∀ g, g ∈ groups_before → ¬ occurs_in g param)
  | None =>
      ∀ g p, g ∈ known_release_groups cfg → p ∈ parameters → ¬ occurs_in g p
  end.
Proof.
  induction parameters as [|param parameters IH]; cbn [identify_release_group].
  - by intros g p _ ?%elem_of_nil.
  - destruct (List.find _ _) as [group|] eqn:Hfind.
    + apply find_first in Hfind as (before & after & Hgroups & Hin & Hbefore).
      exists [], param, parameters, before, after.
      split_and!; [done..| | |].
      * by apply str_in_spec.
      * by intros g p _ ?%elem_of_nil.
      * intros g Hg. by apply str_in_false, Hbefore.
    + assert (∀ g, g ∈ known_release_groups cfg → ¬ occurs_in g param) as Hparam.
      { intros g Hg. by eapply str_in_false, (find_none_elem _ _ g Hfind). }
      destruct (identify_release_group cfg parameters) as [group|].
      * destruct IH as (pre & p & post & before & after & -> & Hgroups & Hocc & Hpre & Hb).
        exists (param :: pre), p, post, before, after.
        split_and!; [done..| |done].
        intros g p' Hg [->|?]%elem_of_cons; auto.
      * intros g p Hg [->|?]%elem_of_cons; auto.
Qed.

Lemma elem_of_append_new l x w : w ∈ append_new l x ↔ w ∈ l ∨ w = x.
Proof.
  unfold append_new. case_bool_decide.
  - split; [auto|]. by intros [?| ->].
  - rewrite elem_of_app, list_elem_of_singleton. done.
Qed.

Lemma append_new_NoDup l x : NoDup l → NoDup (append_new l x).
Proof.
  unfold append_new. case_bool_decide; [done|]. intros Hl.
  apply NoDup_app. split_and!; [done| |apply NoDup_singleton].
  by intros y Hy ->%list_elem_of_singleton.
Qed.

Lemma tag_word_test cfg word :
  existsb (λ tag, str_in tag word) (common_tags cfg) = true ↔ tag_word cfg word.
Proof.
  rewrite existsb_exists. unfold tag_word.
  split; intros (tag & Hin & Hocc); exists tag.
  - by rewrite list_elem_of_In, <-str_in_spec.
  - by rewrite <-list_elem_of_In, str_in_spec.
Qed.

Lemma extract_tags_words cfg tags words :
  let tags' := foldl (λ tags word,
                        if existsb (λ tag, str_in tag word) (common_tags cfg)
                        then append_new tags word else tags) tags words in
  (NoDup tags → NoDup tags')
  ∧ ∀ w, w ∈ tags' ↔ w ∈ tags ∨ (w ∈ words ∧ tag_word cfg w).
Proof.
  revert tags. induction words as [|word words IH]; intros tags; cbn zeta.
  - simpl. split; [done|]. intros w. rewrite elem_of_nil. tauto.
  - cbn [foldl]. destruct (IH (if existsb (λ tag, str_in tag word) (common_tags cfg)
                                  then append_new tags word else tags)) as [Hnd Hel].
    split.
    + intros Ht. apply Hnd. destruct (existsb _ _); [by apply append_new_NoDup|done].
    + intros w. rewrite Hel, elem_of_cons.
      destruct (existsb _ _) eqn:Hex.
      * apply tag_word_test in Hex. rewrite elem_of_append_new. naive_solver.
      * assert (¬ tag_word cfg word) by (by rewrite <-tag_word_test, Hex).
        naive_solver.
Qed.

Lemma extract_tags_spec cfg parameters :
  NoDup (extract_tags cfg parameters)
  ∧ ∀ word, word ∈ extract_tags cfg parameters ↔
      (∃ param, param ∈ parameters ∧ word ∈ str_split param) ∧ tag_word cfg word.
Proof.
  unfold extract_tags.
  assert (∀ tags,
    let tags' := foldl (λ tags param,
                   foldl (λ tags word,
                            if existsb (λ tag, str_in tag word) (common_tags cfg)
                            then append_new tags word else tags)
                         tags (str_split param)) tags parameters in
    (NoDup tags → NoDup tags')
    ∧ ∀ w, w ∈ tags' ↔
        w ∈ tags ∨ ((∃ param, param ∈ parameters ∧ w ∈ str_split param)
                    ∧ tag_word cfg w)) as Hgen.
  { induction parameters as [|param parameters IH]; intros tags; cbn zeta.
    - simpl. split; [done|]. intros w. setoid_rewrite elem_of_nil. naive_solver.
    - cbn [foldl].
      destruct (extract_tags_words cfg tags (str_split param)) as [Hnd1 Hel1].
      cbn zeta in Hnd1, Hel1.
      destruct (IH (foldl (λ tags word,
                            if existsb (λ tag, str_in tag word) (common_tags cfg)
                            then append_new tags word else tags)
                         tags (str_split param))) as [Hnd Hel].
      split; [by auto|].
      intros w. rewrite Hel, Hel1. setoid_rewrite elem_of_cons. naive_solver. }
  destruct (Hgen []) as [Hnd Hel]. split; [apply Hnd, NoDup_nil_2|].
  intros w. rewrite Hel, elem_of_nil. tauto.
Qed.

Lemma first_series_dir_nonempty cfg parts d :
  first_series_dir cfg parts = Some d → d ≠ "" ∧ d ∈ parts ∧ should_ignore cfg d = false.
Proof.
  induction parts as [|part parts IH]; cbn [first_series_dir]; [done|].
  destruct part as [|c part].
  - intros (? & ? & ?)%IH. split_and!; [done| by right | done].
  - destruct (should_ignore cfg (String c part)) eqn:Hig.
    + intros (? & ? & ?)%IH. split_and!; [done| by right | done].
    + intros [= <-]. split_and!; [done| by left | done].
Qed.

(** X14.  [extract_series_name_from_path] never returns the empty string:
    it returns a directory name, a non-empty cleaned file name or
    ["Unknown Series"]. *)
Theorem series_name_never_empty cfg file_path base_name parameters :
  extract_series_name_from_path cfg file_path base_name parameters ≠ "".
Proof.
  unfold extract_series_name_from_path.
  destruct (first_series_dir cfg _) as [d|] eqn:Hd.
  - by apply first_series_dir_nonempty in Hd as [? _].
  - by destruct (str_strip _).
Qed.




(** X16.  [identify_release_group] returns a group exactly when some known
    group occurs in some parameter.  The group returned occurs in the
    first parameter that contains a known group, and is the first such
    group in the order of the configuration. *)
Theorem identify_release_group_first_match cfg parameters :
  match identify_release_group cfg parameters with
  | Some group =>
      ∃ pre param post groups_before groups_after,
        parameters = pre ++ param :: post
        ∧ known_release_groups cfg = groups_before ++ group :: groups_after
        ∧ occurs_in group param
        ∧ (∀ g p, g ∈ known_release_groups cfg → p ∈ pre → ¬ occurs_in g p)
        ∧ (∀ g, g ∈ groups_before → ¬ occurs_in g param)
  | None =>
      ∀ g p, g ∈ known_release_groups cfg → p ∈ parameters → ¬ occurs_in g p
  end.
Proof. apply identify_release_group_spec. Qed.

(** X17.  From ASCII parameters [extract_tags] returns, without
    repetition, exactly the white-space separated words of the parameters
    that contain an entry of the tag vocabulary. *)
Theorem extract_tags_distinct_words cfg parameters :
  Forall (λ param, ascii_text param = true) parameters →
  NoDup (extract_tags cfg parameters)
  ∧ ∀ word, word ∈ extract_tags cfg parameters ↔
      (∃ param, param ∈ parameters ∧ word ∈ str_split param) ∧ tag_word cfg word.
Proof. intros _. apply extract_tags_spec. Qed.

Lemma extract_tags_distinct_words_witness :
  NoDup (extract_tags default_config ["1080p HEVC"; "LoliHouse"])
  ∧ ∀ word, word ∈ extract_tags default_config ["1080p HEVC"; "LoliHouse"] ↔
      (∃ param, param ∈ ["1080p HEVC"; "LoliHouse"] ∧ word ∈ str_split param)
      ∧ tag_word default_config word.
Proof. apply extract_tags_distinct_words. by repeat constructor. Defined.

Lemma add_release_group_groups cfg g :
  ∀ x, x ∈ known_release_groups (add_release_group cfg g)
       ↔ x ∈ known_release_groups cfg ∨ x = g.
Proof.
  intros x. unfold add_release_group. case_bool_decide; simpl.
  - naive_solver.
  - rewrite elem_of_app, list_elem_of_singleton. done.
Qed.

Lemma add_tag_tags cfg t :
  ∀ x, x ∈ common_tags (add_tag cfg t) ↔ x ∈ common_tags cfg ∨ x = t.
Proof.
  intros x. unfold add_tag. case_bool_decide; simpl.
  - naive_solver.
  - rewrite elem_of_app, list_elem_of_singleton. done.
Qed.

(** X18.  [add_release_group] and [add_tag] are idempotent, and the entry
    added takes effect: a parameter list in which the added group occurs
    gets a release group, and a word in which the added tag occurs is
    extracted as a tag. *)
Theorem added_vocabulary_takes_effect cfg entry :
  add_release_group (add_release_group cfg entry) entry = add_release_group cfg entry
  ∧ add_tag (add_tag cfg entry) entry = add_tag cfg entry
  ∧ (∀ parameters param,
       param ∈ parameters → occurs_in entry param →
       is_Some (identify_release_group (add_release_group cfg entry) parameters))
  ∧ (∀ parameters param word,
       param ∈ parameters → word ∈ str_split param → occurs_in entry word →
       word ∈ extract_tags (add_tag cfg entry) parameters).
Proof.
  split_and!.
  - unfold add_release_group at 1. rewrite bool_decide_eq_true_2; [done|].
    apply add_release_group_groups. by right.
  - unfold add_tag at 1. rewrite bool_decide_eq_true_2; [done|].
    apply add_tag_tags. by right.
  - intros parameters param Hin Hocc.
    pose proof (identify_release_group_spec (add_release_group cfg entry) parameters)
      as Hspec.
    destruct (identify_release_group _ parameters) as [g|]; [by eexists|].
    destruct (Hspec entry param); [|done..].
    apply add_release_group_groups. by right.
  - intros parameters param word Hin Hword Hocc.
    apply extract_tags_spec. split; [by eauto|].
    exists entry. split; [|done]. apply add_tag_tags. by right.
Qed.

(* ===================================================================== *)
(** * What the same-season merge returns *)
(* ===================================================================== *)

Lemma dict_kept_keys (d d' : dict string string) k :
  dict_kept d d' → k ∈ dict_keys d → k ∈ dict_keys d'.
Proof.
  intros Hkept [v Hv]%dict_get_is_Some. apply dict_get_is_Some.
  exists v. by apply Hkept.
Qed.

Lemma extends_refl info : extends info info.
Proof. split; [apply grows_refl|done]. Qed.

Lemma extends_trans i1 i2 i3 : extends i1 i2 → extends i2 i3 → extends i1 i3.
Proof.
  intros [[Hk1 He1] Ht1] [[Hk2 He2] Ht2]. split; [split|]; [congruence| |by auto].
  intros k v ?. auto.
Qed.

Lemma extends_absorbs info info' : extends info info' → absorbs info' info.
Proof.
  intros [[_ Hkept] Htags]. split_and!; [|by eauto|done].
  intros k Hk _. by eapply dict_kept_keys.
Qed.

Lemma absorbs_extends base base' info :
  absorbs base info → extends base base' → absorbs base' info.
Proof.
  intros (Hkeys & Hzero & Htags) [[_ Hkept] Htags']. split_and!.
  - intros k Hk Hne. eapply dict_kept_keys; [done|]. auto.
  - intros p (k & Hk)%Hzero. exists k. by apply Hkept.
  - auto.
Qed.

Lemma merge_episode_absorbs eps k v eps' :
  merge_episode eps (k, v) = Some eps' →
  (k ≠ "00" → k ∈ dict_keys eps') ∧ (k = "00" → ∃ k', dict_get k' eps' = Some v).
Proof.
  unfold merge_episode. case_decide as Hk.
  - destruct (next_unknown eps) as [new|]; simpl; [|done]. intros [= <-].
    split; [done|]. intros _. exists new. apply dict_get_set_eq.
  - destruct (dict_has k eps) eqn:Hhas; intros [= <-]; (split; [intros _|done]).
    + by apply dict_has_true.
    + apply dict_get_is_Some. rewrite dict_get_set_eq. by eexists.
Qed.

Lemma merge_episodes_absorb eps items eps' k v :
  foldM merge_episode eps items = Some eps' →
  (k, v) ∈ items →
  (k ≠ "00" → k ∈ dict_keys eps') ∧ (k = "00" → ∃ k', dict_get k' eps' = Some v).
Proof.
  revert eps. induction items as [|item items IH]; intros eps; [by intros _ ?%elem_of_nil|].
  intros (eps1 & H1 & H2)%foldM_cons_inv [<-|Hin]%elem_of_cons; [|by eauto].
  apply merge_episode_absorbs in H1 as [Hkey Hzero].
  apply merge_episodes_kept in H2. split.
  - intros Hne. eapply dict_kept_keys; [done|]. auto.
  - intros (k' & Hk')%Hzero. exists k'. by apply H2.
Qed.

Lemma elem_of_foldl_append_new l xs t :
  t ∈ foldl append_new l xs ↔ t ∈ l ∨ t ∈ xs.
Proof.
  revert l. induction xs as [|x xs IH]; intros l; simpl.
  - rewrite elem_of_nil. tauto.
  - rewrite IH, elem_of_cons. unfold append_new. case_bool_decide.
    + split; [tauto|]. intros [?|[->|?]]; auto.
    + rewrite elem_of_app, list_elem_of_singleton. tauto.
Qed.

Lemma merge_into_spec main_ref (h : heap) r h' main_info info :
  merge_into main_ref h r = Some h' →
  h !! main_ref = Some main_info → h !! r = Some info → r ≠ main_ref →
  ∃ main_info',
    h' = <[main_ref := main_info']> h
    ∧ extends main_info main_info' ∧ absorbs main_info' info.
Proof.
  unfold merge_into. intros Hm Hmain Hr Hne. rewrite Hmain, Hr in Hm.
  cbn [mbind option_bind] in Hm. case_decide; [done|].
  destruct (foldM merge_episode _ _) as [eps|] eqn:Heps; simplify_eq/=.
  eexists. split; [done|].
  pose proof (merge_episodes_kept _ _ _ Heps) as Hkept.
  assert (∀ t, t ∈ tags main_info ∨ t ∈ tags info →
               t ∈ foldl append_new (tags main_info) (tags info)) as Htags.
  { intros t. by rewrite elem_of_foldl_append_new. }
  split.
  - destruct (_ && _); (split; [by split|]); simpl; auto.
  - assert (∀ k, k ∈ dict_keys (episodes info) → k ≠ "00" → k ∈ dict_keys eps)
      as Hkeys.
    { intros k (kv & -> & Hin)%list_elem_of_fmap Hk. destruct kv as [k v].
      by apply (merge_episodes_absorb _ _ _ k v Heps). }
    assert (∀ p, dict_get "00" (episodes info) = Some p →
                 ∃ k, dict_get k eps = Some p) as Hzero.
    { intros p Hp%dict_get_Some_elem.
      by apply (merge_episodes_absorb _ _ _ "00" p Heps). }
    destruct (_ && _); split_and!; simpl; auto.
Qed.

Lemma merge_all_into_spec main_ref (h : heap) refs h' main_info :
  foldM (merge_into main_ref) h refs = Some h' →
  h !! main_ref = Some main_info → main_ref ∉ refs →
  (∀ r, r ∈ refs → is_Some (h !! r)) →
  ∃ main_info',
    h' = <[main_ref := main_info']> h
    ∧ extends main_info main_info'
    ∧ ∀ r info, r ∈ refs → h !! r = Some info → absorbs main_info' info.
Proof.
  revert h main_info. induction refs as [|r refs IH]; intros h main_info.
  - intros [= <-] Hmain _ _. exists main_info. split_and!.
    + by rewrite list_insert_id.
    + apply extends_refl.
    + by intros r info ?%elem_of_nil.
  - intros (h1 & H1 & H2)%foldM_cons_inv Hmain Hnotin Hlive.
    apply not_elem_of_cons in Hnotin as [Hne Hnotin].
    destruct (Hlive r) as [info Hr]; [left|].
    destruct (merge_into_spec _ _ _ _ _ _ H1 Hmain Hr) as (main1 & -> & Hext1 & Habs1);
      [done|].
    destruct (IH _ main1 H2) as (main' & -> & Hext & Habs).
    + apply list_lookup_insert_eq. by eapply lookup_lt_Some.
    + done.
    + intros r' Hr'. rewrite list_lookup_insert_ne by (by intros ->).
      apply Hlive. by right.
    + exists main'. split_and!.
      * by rewrite list_insert_insert_eq.
      * by eapply extends_trans.
      * intros r' info' [->|Hin]%elem_of_cons Hr'.
        -- simplify_eq. by eapply absorbs_extends.
        -- apply (Habs r'); [done|].
           rewrite list_lookup_insert_ne; [done|]. by intros ->.
Qed.

Lemma priority_geb_refl a : priority_geb a a = true.
Proof.
  unfold priority_geb. rewrite Z.eqb_refl. destruct a as [n []]; simpl;
    by rewrite orb_true_r.
Qed.

Lemma priority_geb_trans a b c :
  priority_geb a b = true → priority_geb b c = true → priority_geb a c = true.
Proof.
  unfold priority_geb. destruct a as [a1 a2], b as [b1 b2], c as [c1 c2]. simpl.
  rewrite !orb_true_iff, !andb_true_iff, !Z.ltb_lt, !Z.eqb_eq.
  intros [?|[-> H1]] [?|[-> H2]]; [left; lia..|]. right. split; [done|].
  by destruct a2, b2, c2.
Qed.

Lemma priority_geb_total a b : priority_geb a b = false → priority_geb b a = true.
Proof.
  unfold priority_geb. destruct a as [a1 a2], b as [b1 b2]. simpl.
  rewrite orb_false_iff, andb_false_iff, orb_true_iff, andb_true_iff,
    Z.ltb_ge, Z.ltb_lt, !Z.eqb_neq, Z.eqb_eq.
  intros [Hle [Hne|Himp]].
  - left. lia.
  - destruct (decide (a1 = b1)) as [->|]; [|left; lia].
    right. split; [done|]. by destruct a2, b2.
Qed.

Lemma sort_by_priority_head (h : heap) series_list main others :
  sort_by_priority h series_list = Some (main :: others) →
  ∃ main_info,
    h !! main.2 = Some main_info
    ∧ ∀ pr, pr ∈ series_list →
        ∃ info, h !! pr.2 = Some info
                ∧ priority_geb (priority_key main_info) (priority_key info) = true.
Proof.
  unfold sort_by_priority. intros Hs.
  destruct (mapM _ series_list) as [keyed|] eqn:Hkeyed; simplify_eq/=.
  apply mapM_Some in Hkeyed.
  set (leb := λ a b : Z * bool * (string * ref), priority_geb a.1 b.1) in *.
  assert (∀ y, y ∈ keyed → ∃ info, h !! y.2.2 = Some info ∧ y.1 = priority_key info)
    as Hkey.
  { intros y Hy. apply list_elem_of_lookup in Hy as [i Hi].
    destruct (Forall2_lookup_r _ _ _ _ _ Hkeyed Hi) as (pr & _ & Hpr).
    destruct (h !! pr.2) as [info|] eqn:Hinfo; simplify_eq/=. eauto. }
  assert (∀ pr, pr ∈ series_list → ∃ y, y ∈ keyed ∧ y.2 = pr) as Hall.
  { intros pr Hpr. apply list_elem_of_lookup in Hpr as [i Hi].
    destruct (Forall2_lookup_l _ _ _ _ _ Hkeyed Hi) as (y & Hy & Hpr).
    exists y. split; [by eapply list_elem_of_lookup_2|].
    destruct (h !! pr.2); by simplify_eq/=. }
  assert (StronglySorted (λ a b, leb a b) (list_sort leb keyed)) as Hsorted.
  { apply Sorted_StronglySorted.
    - intros a b c Hab%Is_true_true Hbc%Is_true_true.
      apply Is_true_true. by eapply priority_geb_trans.
    - apply (list_sort_Sorted leb). intros a b. apply priority_geb_total. }
  destruct (list_sort leb keyed) as [|top rest] eqn:Hsort; simplify_eq/=.
  assert (top ∈ keyed) as Htop by (rewrite <-(list_sort_perm leb), Hsort; left).
  destruct (Hkey top Htop) as (main_info & Hmain & Hprio).
  exists main_info. split; [done|].
  intros pr (y & Hy & <-)%Hall.
  destruct (Hkey y Hy) as (info & Hinfo & Hyprio). exists info. split; [done|].
  rewrite <-Hprio, <-Hyprio.
  rewrite <-(list_sort_perm leb), Hsort in Hy.
  apply elem_of_cons in Hy as [->|Hy]; [apply priority_geb_refl|].
  apply StronglySorted_inv in Hsorted as [_ Hall'].
  rewrite Forall_forall in Hall'. apply Is_true_true, (Hall' y Hy).
Qed.

Lemma set_episode_count_extends n info : extends info (set_episode_count n info).
Proof. split; [split|]; [done| by intros ?? |done]. Qed.

Lemma merge_members_spec (h : heap) merged series_list h' merged' :
  merge_members h merged series_list = Some (h', merged') →
  NoDup (series_list.*2) →
  ∃ pick base base',
    pick ∈ series_list
    ∧ merged' = dict_set pick.1 pick.2 merged
    ∧ h !! pick.2 = Some base
    ∧ h' = <[pick.2 := base']> h
    ∧ extends base base'
    ∧ episode_count base' = dict_len (episodes base')
    ∧ ∀ pr, pr ∈ series_list →
        ∃ info, h !! pr.2 = Some info
                ∧ priority_geb (priority_key base) (priority_key info) = true
                ∧ absorbs base' info.
Proof.
  unfold merge_members. intros Hm Hnd.
  destruct (sort_by_priority h series_list) as [sorted|] eqn:Hsort; simplify_eq/=.
  destruct sorted as [|[main_pattern main_ref] others]; simplify_eq/=.
  pose proof (sort_by_priority_perm _ _ _ Hsort) as Hperm.
  destruct (sort_by_priority_head _ _ _ _ Hsort) as (base & Hbase & Hprio).
  simpl in Hbase.
  destruct (foldM _ _ _) as [h1|] eqn:Hfold; simplify_eq/=.
  destruct (h1 !! main_ref) as [main1|] eqn:Hmain1; simplify_eq/=.
  assert (NoDup (main_ref :: others.*2)) as [Hmain Hothers]%NoDup_cons.
  { change (NoDup (((main_pattern, main_ref) :: others).*2)). by rewrite Hperm. }
  destruct (merge_all_into_spec _ _ _ _ base Hfold Hbase Hmain)
    as (main1' & -> & Hext & Habs).
  { intros r (pr & -> & Hpr)%list_elem_of_fmap.
    destruct (Hprio pr) as (info & ? & _); [|by eexists].
    rewrite <-Hperm. by right. }
  rewrite list_lookup_insert_eq in Hmain1 by (by eapply lookup_lt_Some).
  simplify_eq.
  exists (main_pattern, main_ref), base,
    (set_episode_count (dict_len (episodes main1)) main1).
  assert (extends base (set_episode_count (dict_len (episodes main1)) main1)) as Hext'.
  { eapply extends_trans; [done|apply set_episode_count_extends]. }
  split_and!; [by rewrite <-Hperm; left|done|done
               |by rewrite list_insert_insert_eq|done|done|].
  intros pr Hpr. destruct (Hprio pr Hpr) as (info & Hinfo & Hge).
  exists info. split_and!; [done..|].
  rewrite <-Hperm in Hpr. apply elem_of_cons in Hpr as [->|Hpr].
  - simpl in Hinfo. simplify_eq. by apply extends_absorbs.
  - eapply absorbs_extends; [|apply set_episode_count_extends].
    apply (Habs pr.2); [|done]. apply list_elem_of_fmap. eauto.
Qed.

Lemma merge_group_spec (h : heap) merged group h' merged' :
  merge_group (h, merged) group = Some (h', merged') →
  NoDup (group.2.*2) →
  (∀ pr, pr ∈ group.2 → is_Some (h !! pr.2)) →
  ∃ pick base base',
    pick ∈ group.2
    ∧ merged' = dict_set pick.1 pick.2 merged
    ∧ h !! pick.2 = Some base
    ∧ h' = <[pick.2 := base']> h
    ∧ extends base base'
    ∧ ((1 < length group.2)%nat → episode_count base' = dict_len (episodes base'))
    ∧ ∀ pr, pr ∈ group.2 →
        ∃ info, h !! pr.2 = Some info
                ∧ priority_geb (priority_key base) (priority_key info) = true
                ∧ absorbs base' info.
Proof.
  unfold merge_group. intros Hm Hnd Hlive.
  assert (merge_members h merged group.2 = Some (h', merged')
          ∨ ∃ pattern r, group.2 = [(pattern, r)] ∧ h' = h
                         ∧ merged' = dict_set pattern r merged) as [Hmem|Hone].
  { destruct group as [key [|[pattern r] [|pr series_list]]]; cbn [snd] in *;
      [by left| |by left].
    right. exists pattern, r. by simplify_eq. }
  - destruct (merge_members_spec _ _ _ _ _ Hmem Hnd)
      as (pick & base & base' & ? & ? & ? & ? & ? & ? & ?).
    exists pick, base, base'. split_and!; done.
  - destruct Hone as (pattern & r & Hg & -> & ->). rewrite Hg in *.
    destruct (Hlive (pattern, r)) as [info Hinfo]; [left|]. simpl in Hinfo.
    exists (pattern, r), info, info.
    split_and!; [left|done|done|by rewrite list_insert_id|apply extends_refl
                 |simpl; lia|].
    intros pr ->%list_elem_of_singleton. exists info.
    split_and!; [done|apply priority_geb_refl|apply extends_absorbs, extends_refl].
Qed.

Lemma merge_groups_spec (h : heap) merged (groups : same_season_groups) h' merged' :
  foldM merge_group (h, merged) groups = Some (h', merged') →
  NoDup ((concat (groups.*2)).*2) →
  NoDup (dict_keys merged ++ (concat (groups.*2)).*1) →
  (∀ g pr, g ∈ groups → pr ∈ g.2 → is_Some (h !! pr.2)) →
  (∀ r, r ∉ (concat (groups.*2)).*2 → h' !! r = h !! r)
  ∧ (∀ r, r ∉ merged'.*2 → h' !! r = h !! r)
  ∧ ∀ g, g ∈ groups → group_outcome h h' merged' g.2.
Proof.
  revert h merged. induction groups as [|g groups IH]; intros h merged.
  - intros [= <- <-] _ _ _. split_and!; [done..|]. by intros g ?%elem_of_nil.
  - intros ([h1 merged1] & Hstep & Hrest)%foldM_cons_inv Hrefs Hpatterns Hlive.
    rewrite fmap_cons in Hrefs. rewrite fmap_cons in Hpatterns.
    cbn [concat] in Hrefs, Hpatterns.
    rewrite fmap_app in Hrefs. rewrite fmap_app in Hpatterns.
    apply NoDup_app in Hrefs as (Hg_refs & Hdisj_refs & Hrest_refs).
    destruct (merge_group_spec _ _ _ _ _ Hstep Hg_refs)
      as (pick & base & base' & Hpick & -> & Hbase & -> & Hext & Hcount & Hmembers).
    { intros pr ?. apply (Hlive g); [left|done]. }
    assert (NoDup (dict_keys (dict_set pick.1 pick.2 merged)
                   ++ (concat (groups.*2)).*1)) as Hpatterns1.
    { apply NoDup_app in Hpatterns as (Hm & Hdisj & Hnd).
      apply NoDup_app in Hnd as (Hg & Hdisj' & Hgs).
      assert (pick.1 ∉ dict_keys merged) as Hfresh.
      { intros Hin. apply (Hdisj _ Hin), elem_of_app. left.
        by apply list_elem_of_fmap_2. }
      rewrite dict_set_fresh by done.
      unfold dict_keys. rewrite fmap_app. apply NoDup_app. split_and!; [| |done].
      - apply NoDup_app. split_and!; [done| |apply NoDup_singleton].
        by intros ? ? ->%list_elem_of_singleton.
      - intros p [Hin| ->%list_elem_of_singleton]%elem_of_app Hp.
        + apply (Hdisj _ Hin), elem_of_app. by right.
        + apply (Hdisj' pick.1); [|done]. by apply list_elem_of_fmap_2. }
    assert (pick.2 ∉ (concat (groups.*2)).*2) as Hpick_rest.
    { apply Hdisj_refs. by apply list_elem_of_fmap_2. }
    assert (∀ r, r ∈ (concat (groups.*2)).*2 →
                 (<[pick.2 := base']> h) !! r = h !! r) as Hsame.
    { intros r Hr. apply list_lookup_insert_ne. by intros <-. }
    destruct (IH _ _ Hrest Hrest_refs Hpatterns1) as (Hframe & Hframe' & Hgroups).
    { intros g' pr Hg' Hpr.
      rewrite Hsame.
      - apply (Hlive g'); [by right|done].
      - apply list_elem_of_fmap_2. eapply elem_of_concat_member; [done|].
        by apply list_elem_of_fmap_2. }
    assert (pick ∈ merged') as Hpick_merged.
    { destruct (merge_groups_picks _ _ _ _ _ Hrest Hpatterns1) as (picks & -> & _).
      apply elem_of_app. left.
      pose proof (dict_get_Some_elem pick.1 pick.2 (dict_set pick.1 pick.2 merged)
                    (dict_get_set_eq _ _ _)) as Hin.
      by destruct pick. }
    split_and!.
    + intros r Hr. rewrite fmap_cons in Hr. cbn [concat] in Hr.
      rewrite fmap_app in Hr. apply not_elem_of_app in Hr as [Hr1 Hr2].
      rewrite Hframe by done.
      apply list_lookup_insert_ne. intros <-.
      by apply Hr1, list_elem_of_fmap_2.
    + intros r Hr. rewrite Hframe' by done.
      apply list_lookup_insert_ne. intros <-.
      by apply Hr, list_elem_of_fmap_2.
    + intros g' [->|Hg']%elem_of_cons.
      * exists pick, base, base'. split_and!; [done|done|done| |done..].
        -- rewrite Hframe by done. apply list_lookup_insert_eq.
           by eapply lookup_lt_Some.
      * destruct (Hgroups g' Hg')
          as (pick' & base1 & base1' & Hpick' & Hin & Hbase1 & Hbase1' & Hext1 & Hcount1 & Hmem1).
        assert (∀ pr, pr ∈ g'.2 → pr.2 ∈ (concat (groups.*2)).*2) as Hin_rest.
        { intros pr Hpr. apply list_elem_of_fmap_2.
          eapply elem_of_concat_member; [done|]. by apply list_elem_of_fmap_2. }
        exists pick', base1, base1'. split_and!; [done|done| |done|done|done|].
        -- by rewrite <-Hsame by auto.
        -- intros pr Hpr. destruct (Hmem1 pr Hpr) as (info & Hinfo & ?).
           exists info. split; [|done]. by rewrite <-Hsame by auto.
Qed.

Lemma merge_same_season_series_outcome (h : heap) series_info h' merged :
  merge_same_season_series h series_info = Some (h', merged) →
  NoDup (dict_keys series_info) → NoDup (series_info.*2) →
  ∃ groups : same_season_groups,
    NoDup (dict_keys groups)
    ∧ concat (groups.*2) ≡ₚ series_info
    ∧ (∀ g pr, g ∈ groups → pr ∈ g.2 →
         ∃ info, h !! pr.2 = Some info ∧ key_of info = g.1)
    ∧ (∀ r, r ∉ merged.*2 → h' !! r = h !! r)
    ∧ ∀ g, g ∈ groups → group_outcome h h' merged g.2.
Proof.
  intros Hm Hpatterns Hrefs. unfold merge_same_season_series in Hm.
  destruct (group_by_key h series_info) as [groups|] eqn:Hg; simplify_eq/=.
  unfold group_by_key in Hg.
  destruct (group_by_key_inv h series_info [] groups Hg)
    as (Hkeys & Hperm & Hmem); [constructor|by intros ?? ?%elem_of_nil|].
  simpl in Hperm.
  destruct (merge_groups_spec _ _ _ _ _ Hm) as (_ & Hframe & Hgroups).
  - by rewrite Hperm.
  - simpl. by rewrite Hperm.
  - intros g pr Hgin Hpr. destruct (Hmem g pr Hgin Hpr) as (info & -> & _). by eexists.
  - exists groups. split_and!; done.
Qed.

Lemma group_of_member (groups : same_season_groups) series_info pr :
  concat (groups.*2) ≡ₚ series_info → pr ∈ series_info →
  ∃ g, g ∈ groups ∧ pr ∈ g.2.
Proof.
  intros Hperm Hpr. rewrite <-Hperm in Hpr. clear Hperm.
  induction groups as [|g groups IH]; [by apply elem_of_nil in Hpr|].
  rewrite fmap_cons in Hpr. cbn [concat] in Hpr.
  apply elem_of_app in Hpr as [Hpr|Hpr].
  - exists g. split; [left|done].
  - destruct (IH Hpr) as (g' & ? & ?). exists g'. split; [by right|done].
Qed.

(** X19.  [merge_same_season_series], given distinct patterns and distinct
    objects, keeps for every input series a series of the same name,
    directory and season, one of the input, whose priority key (episode
    count, then having a numbered episode) before the merge was at least
    that of the input series. *)
Theorem merge_same_season_base_has_top_priority
    (h : heap) series_info h' merged pattern r info :
  merge_same_season_series h series_info = Some (h', merged) →
  NoDup (dict_keys series_info) → NoDup (series_info.*2) →
  (pattern, r) ∈ series_info → h !! r = Some info →
  ∃ base_pattern base_ref base,
    (base_pattern, base_ref) ∈ merged
    ∧ (base_pattern, base_ref) ∈ series_info
    ∧ h !! base_ref = Some base
    ∧ key_of base = key_of info
    ∧ priority_geb (priority_key base) (priority_key info) = true.
Proof.
  intros Hm Hpatterns Hrefs Hin Hinfo.
  destruct (merge_same_season_series_outcome _ _ _ _ Hm Hpatterns Hrefs)
    as (groups & _ & Hperm & Hmem & _ & Hout).
  destruct (group_of_member _ _ _ Hperm Hin) as (g & Hg & Hpr).
  destruct (Hout g Hg) as ([bp br] & base & base' & Hpick & Hmerged & Hbase & _ & _ & _ & Hall).
  destruct (Hall _ Hpr) as (info' & Hinfo' & Hge & _).
  cbn [fst snd] in *. rewrite Hinfo in Hinfo'. injection Hinfo' as <-.
  exists bp, br, base. split_and!; [done| |done| |done].
  - rewrite <-Hperm. apply (elem_of_concat_member _ g.2); [done|].
    by apply list_elem_of_fmap_2.
  - destruct (Hmem g _ Hg Hpick) as (? & ? & Hk1).
    destruct (Hmem g _ Hg Hpr) as (? & ? & Hk2). cbn [fst snd] in *. congruence.
Qed.

Lemma merge_same_season_base_has_top_priority_witness :
  ∃ base_pattern base_ref base,
    (base_pattern, base_ref) ∈ scenario_c_merged.2
    ∧ (base_pattern, base_ref) ∈ scenario_c_series
    ∧ scenario_c_files !! base_ref = Some base
    ∧ key_of base = ("Show", "Show", 1)
    ∧ priority_geb (priority_key base) (1, false) = true.
Proof.
  refine (merge_same_season_base_has_top_priority scenario_c_files scenario_c_series
            scenario_c_merged.1 scenario_c_merged.2 "unnumbered" 1%nat
            (default new_SeriesInfo (scenario_c_files !! 1%nat)) _ _ _ _ _);
    [by vm_compute|compute_done|compute_done|right; left|by vm_compute].
Defined.

(** X20.  After [merge_same_season_series] the series kept for a key holds
    every numbered episode key of every input series of that key, the
    file of every unnumbered episode ["00"] under some key, and every
    tag. *)
Theorem merge_same_season_base_absorbs_members
    (h : heap) series_info h' merged pattern r info :
  merge_same_season_series h series_info = Some (h', merged) →
  NoDup (dict_keys series_info) → NoDup (series_info.*2) →
  (pattern, r) ∈ series_info → h !! r = Some info →
  ∃ base_pattern base_ref base',
    (base_pattern, base_ref) ∈ merged
    ∧ h' !! base_ref = Some base'
    ∧ key_of base' = key_of info
    ∧ absorbs base' info.
Proof.
  intros Hm Hpatterns Hrefs Hin Hinfo.
  destruct (merge_same_season_series_outcome _ _ _ _ Hm Hpatterns Hrefs)
    as (groups & _ & Hperm & Hmem & _ & Hout).
  destruct (group_of_member _ _ _ Hperm Hin) as (g & Hg & Hpr).
  destruct (Hout g Hg)
    as ([bp br] & base & base' & Hpick & Hmerged & Hbase & Hbase' & [[Hkey _] _] & _ & Hall).
  destruct (Hall _ Hpr) as (info' & Hinfo' & _ & Habs).
  cbn [fst snd] in *. rewrite Hinfo in Hinfo'. injection Hinfo' as <-.
  exists bp, br, base'. split_and!; [done..| |done].
  destruct (Hmem g _ Hg Hpick) as (? & ? & Hk1).
  destruct (Hmem g _ Hg Hpr) as (? & ? & Hk2). cbn [fst snd] in *. congruence.
Qed.

Lemma merge_same_season_base_absorbs_members_witness :
  ∃ base_pattern base_ref base',
    (base_pattern, base_ref) ∈ scenario_c_merged.2
    ∧ scenario_c_merged.1 !! base_ref = Some base'
    ∧ key_of base' = ("Show", "Show", 1)
    ∧ absorbs base' (default new_SeriesInfo (scenario_c_files !! 1%nat)).
Proof.
  refine (merge_same_season_base_absorbs_members scenario_c_files scenario_c_series
            scenario_c_merged.1 scenario_c_merged.2 "unnumbered" 1%nat
            (default new_SeriesInfo (scenario_c_files !! 1%nat)) _ _ _ _ _);
    [by vm_compute|compute_done|compute_done|right; left|by vm_compute].
Defined.

(** X21.  When two different input series have the same name, directory
    and season, the series kept for them has its [episode_count] set to
    the size of its episode map. *)
Theorem merge_same_season_recounts_merged_groups
    (h : heap) series_info h' merged p1 r1 info1 p2 r2 info2 :
  merge_same_season_series h series_info = Some (h', merged) →
  NoDup (dict_keys series_info) → NoDup (series_info.*2) →
  (p1, r1) ∈ series_info → (p2, r2) ∈ series_info → r1 ≠ r2 →
  h !! r1 = Some info1 → h !! r2 = Some info2 → key_of info1 = key_of info2 →
  ∃ base_pattern base_ref base',
    (base_pattern, base_ref) ∈ merged
    ∧ h' !! base_ref = Some base'
    ∧ key_of base' = key_of info1
    ∧ episode_count base' = dict_len (episodes base').
Proof.
  intros Hm Hpatterns Hrefs Hin1 Hin2 Hne Hinfo1 Hinfo2 Hkey.
  destruct (merge_same_season_series_outcome _ _ _ _ Hm Hpatterns Hrefs)
    as (groups & Hkeys & Hperm & Hmem & _ & Hout).
  destruct (group_of_member _ _ _ Hperm Hin1) as (g1 & Hg1 & Hpr1).
  destruct (group_of_member _ _ _ Hperm Hin2) as (g2 & Hg2 & Hpr2).
  assert (g1 = g2) as <-.
  { destruct (Hmem g1 _ Hg1 Hpr1) as (? & ? & Hk1).
    destruct (Hmem g2 _ Hg2 Hpr2) as (? & ? & Hk2). cbn [fst snd] in *.
    destruct g1 as [k1 l1], g2 as [k2 l2]. cbn [fst snd] in *.
    assert (k1 = k2) as <- by congruence.
    f_equal. apply (dict_get_elem_NoDup _ _ _ Hkeys) in Hg1, Hg2. congruence. }
  destruct (Hout g1 Hg1)
    as ([bp br] & base & base' & Hpick & Hmerged & Hbase & Hbase' & [[Hk _] _] & Hcount & _).
  exists bp, br, base'. split_and!; [done..| |].
  - destruct (Hmem g1 _ Hg1 Hpick) as (? & ? & Hk1).
    destruct (Hmem g1 _ Hg1 Hpr1) as (? & ? & Hk2). cbn [fst snd] in *. congruence.
  - apply Hcount. destruct (g1.2) as [|a [|b l]]; simpl; [|exfalso|lia].
    + by apply elem_of_nil in Hpr1.
    + apply list_elem_of_singleton in Hpr1, Hpr2. congruence.
Qed.

Lemma merge_same_season_recounts_merged_groups_witness :
  ∃ base_pattern base_ref base',
    (base_pattern, base_ref) ∈ scenario_c_merged.2
    ∧ scenario_c_merged.1 !! base_ref = Some base'
    ∧ key_of base' = ("Show", "Show", 1)
    ∧ episode_count base' = dict_len (episodes base').
Proof.
  refine (merge_same_season_recounts_merged_groups scenario_c_files scenario_c_series
            scenario_c_merged.1 scenario_c_merged.2
            "numbered" 0%nat (default new_SeriesInfo (scenario_c_files !! 0%nat))
            "unnumbered" 1%nat (default new_SeriesInfo (scenario_c_files !! 1%nat))
            _ _ _ _ _ _ _ _ _);
    [by vm_compute|compute_done|compute_done|left|right; left|done
     |by vm_compute|by vm_compute|by vm_compute].
Defined.

(** X22.  [merge_same_season_series] writes to no object but those it
    returns: in particular the series folded into another one are left as
    they were. *)
Theorem merge_same_season_writes_only_bases (h : heap) series_info h' merged r :
  merge_same_season_series h series_info = Some (h', merged) →
  NoDup (dict_keys series_info) → NoDup (series_info.*2) →
  r ∉ merged.*2 → h' !! r = h !! r.
Proof.
  intros Hm Hpatterns Hrefs.
  destruct (merge_same_season_series_outcome _ _ _ _ Hm Hpatterns Hrefs)
    as (groups & _ & _ & _ & Hframe & _).
  apply Hframe.
Qed.

Lemma merge_same_season_writes_only_bases_witness :
  scenario_c_merged.1 !! 1%nat = scenario_c_files !! 1%nat.
Proof.
  apply (merge_same_season_writes_only_bases scenario_c_files scenario_c_series
           scenario_c_merged.1 scenario_c_merged.2 1%nat);
    [by vm_compute|compute_done|compute_done|].
  vm_compute. by intros [= ]%list_elem_of_singleton.
Defined.

(** X23.  The result of [merge_same_season_series] is a part of its
    input, and holds one series per name, directory and season: the keys
    of the returned series are pairwise distinct. *)
Theorem merge_same_season_one_series_per_key (h : heap) series_info h' merged :
  merge_same_season_series h series_info = Some (h', merged) →
  NoDup (dict_keys series_info) →
  (∀ pr, pr ∈ merged → pr ∈ series_info)
  ∧ ∃ infos, Forall2 (λ pr info, h' !! pr.2 = Some info) merged infos
             ∧ NoDup (key_of <$> infos).
Proof.
  intros Hm Hpatterns.
  pose proof (merge_same_season_series_grows _ _ _ _ Hm) as Hgrow.
  unfold merge_same_season_series in Hm.
  destruct (group_by_key h series_info) as [groups|] eqn:Hg; simplify_eq/=.
  unfold group_by_key in Hg.
  destruct (group_by_key_inv h series_info [] groups Hg)
    as (Hkeys & Hperm & Hmem); [constructor|by intros ?? ?%elem_of_nil|].
  simpl in Hperm.
  destruct (merge_groups_picks _ _ _ _ _ Hm) as (picks & -> & Hpicks).
  { simpl. by rewrite Hperm. }
  simpl. split.
  - intros pr Hpr. rewrite <-Hperm.
    apply list_elem_of_lookup in Hpr as [i Hi].
    destruct (Forall2_lookup_r _ _ _ _ _ Hpicks Hi) as (g & Hgi & Hin).
    apply (elem_of_concat_member _ g.2); [done|].
    apply list_elem_of_fmap_2. by eapply list_elem_of_lookup_2.
  - destruct (picks_infos h h' groups picks Hpicks Hmem Hgrow) as (infos & Hinfos & Hk).
    exists infos. split; [done|]. by rewrite Hk.
Qed.

Lemma merge_same_season_one_series_per_key_witness :
  (∀ pr, pr ∈ scenario_c_merged.2 → pr ∈ scenario_c_series)
  ∧ ∃ infos,
      Forall2 (λ pr info, scenario_c_merged.1 !! pr.2 = Some info)
              scenario_c_merged.2 infos
      ∧ NoDup (key_of <$> infos).
Proof.
  apply (merge_same_season_one_series_per_key scenario_c_files);
    [by vm_compute|compute_done].
Defined.

(** X24.  [merge_same_season_series] is idempotent: applied to its own
    result it returns that result and changes no object. *)
Theorem merging_twice_is_merging_once (h : heap) series_info h' merged :
  NoDup (dict_keys series_info) →
  merge_same_season_series h series_info = Some (h', merged) →
  merge_same_season_series h' merged = Some (h', merged).
Proof. apply merge_same_season_series_twice. Qed.

Lemma merging_twice_is_merging_once_witness :
  merge_same_season_series scenario_c_merged.1 scenario_c_merged.2
  = Some (scenario_c_merged.1, scenario_c_merged.2).
Proof.
  apply (merging_twice_is_merging_once scenario_c_files scenario_c_series);
    [compute_done|by vm_compute].
Defined.

(** X25.  When the same [SeriesInfo] object is listed under two patterns,
    the merge folds the object into itself.  With an unnumbered episode
    ["00"] the loop inserts into the dict it iterates over and raises;
    without one nothing is merged, the first pattern is kept and the
    episode count is set to the size of the episode map. *)
Theorem merging_an_object_with_itself (h : heap) p1 p2 r info :
  p1 ≠ p2 → h !! r = Some info →
  merge_same_season_series h [(p1, r); (p2, r)]
  = if dict_has "00" (episodes info) then None
    else Some (<[r := set_episode_count (dict_len (episodes info)) info]> h,
               [(p1, r)]).
Proof.
  intros _ Hr. unfold merge_same_season_series, group_by_key.
  cbn [foldM fst snd]. rewrite Hr. simpl.
  unfold dict_append. cbn [dict_get default app dict_set].
  rewrite !decide_True by done. cbn [default app dict_set].
  rewrite ?decide_True by done. simpl.
  unfold merge_members, sort_by_priority. simpl. rewrite !Hr. simpl.
  rewrite priority_geb_refl. simpl.
  unfold merge_into. rewrite Hr. simpl. rewrite decide_True by done.
  destruct (dict_has "00" (episodes info)); [done|].
  simpl. by rewrite Hr.
Qed.

Lemma merging_an_object_with_itself_witness :
  merge_same_season_series scenario_unnumbered [("a", 0%nat); ("b", 0%nat)] = None.
Proof.
  exact (merging_an_object_with_itself scenario_unnumbered "a" "b" 0%nat _
           ltac:(done) eq_refl).
Defined.

(* ===================================================================== *)
(** * What the cross-season merge returns *)
(* ===================================================================== *)

Lemma refreshed_refl info : refreshed info info.
Proof. by split_and!. Qed.

Lemma heap_refreshed_refl h : heap_refreshed h h.
Proof. intros r info ?. exists info. split; [done|apply refreshed_refl]. Qed.

Lemma heap_refreshed_trans h1 h2 h3 :
  heap_refreshed h1 h2 → heap_refreshed h2 h3 → heap_refreshed h1 h3.
Proof.
  intros H12 H23 r i1 Hr.
  destruct (H12 _ _ Hr) as (i2 & Hr2 & ? & ? & ? & ? & Hk2).
  destruct (H23 _ _ Hr2) as (i3 & Hr3 & ? & ? & ? & ? & Hk3).
  exists i3. split; [done|]. split_and!; [congruence..|auto].
Qed.

Lemma dict_set_keys_mono {V : Type} (k k' : string) (v : V) d :
  k' ∈ dict_keys d → k' ∈ dict_keys (dict_set k v d).
Proof.
  rewrite dict_keys_set. destruct (dict_has k d); [done|].
  intros ?. apply elem_of_app. by left.
Qed.

Lemma dict_update_keys (d other : dict string string) k :
  k ∈ dict_keys d ∨ k ∈ dict_keys other → k ∈ dict_keys (dict_update d other).
Proof.
  revert d. induction other as [|[k0 v0] other IH]; intros d.
  - intros [?|?%elem_of_nil]; done.
  - rewrite dict_update_cons. intros [Hd|Ho]; apply IH.
    + left. by apply dict_set_keys_mono.
    + unfold dict_keys in Ho. rewrite fmap_cons in Ho.
      apply elem_of_cons in Ho as [->|?]; [left|by right].
      apply dict_get_is_Some. rewrite dict_get_set_eq. by eexists.
Qed.

Lemma foldl_append_new_NoDup l xs : NoDup l → NoDup (foldl append_new l xs).
Proof.
  revert l. induction xs as [|x xs IH]; intros l Hl; [done|]. simpl.
  by apply IH, append_new_NoDup.
Qed.

(** What a successful call of [add_season] returns. *)
Lemma add_season_spec (h : heap) self r h' self' :
  add_season h self r = Some (h', self') →
  ∃ season_info e season_info',
    h !! r = Some season_info
    ∧ dict_get (season_or_1 (season season_info)) (seasons self') = Some e
    ∧ h' !! e = Some season_info'
    ∧ (∀ k, k ∈ dict_keys (episodes season_info) →
            k ∈ dict_keys (episodes season_info'))
    ∧ heap_refreshed h h'
    ∧ (∀ r', r' ≠ e → h' !! r' = h !! r')
    ∧ (∀ n, n ≠ season_or_1 (season season_info) →
            dict_get n (seasons self') = dict_get n (seasons self))
    ∧ (∀ e0, dict_get (season_or_1 (season season_info)) (seasons self) = Some e0 →
             e = e0)
    ∧ (dict_get (season_or_1 (season season_info)) (seasons self) = None → e = r)
    ∧ (NoDup (dict_keys (seasons self)) → NoDup (dict_keys (seasons self')))
    ∧ season_count self' = dict_len (seasons self')
    ∧ b_series_name self'
      = match b_series_name self with
        | EmptyString => series_name season_info
        | n => n
        end
    ∧ (∀ g, g ∈ release_groups self' ↔
            g ∈ release_groups self ∨ (release_group season_info = Some g ∧ g ≠ ""))
    ∧ (NoDup (release_groups self) → NoDup (release_groups self'))
    ∧ (∀ t, t ∈ b_tags self' ↔ t ∈ b_tags self ∨ t ∈ tags season_info)
    ∧ (NoDup (b_tags self) → NoDup (b_tags self')).
Proof.
  unfold add_season. intros Ha.
  destruct (h !! r) as [season_info|] eqn:Hr; simplify_eq/=.
  assert (∀ g, g ∈ match release_group season_info with
                   | Some g =>
                       if truthy (Some g) && negb (bool_decide (g ∈ release_groups self))
                       then release_groups self ++ [g] else release_groups self
                   | None => release_groups self
                   end ↔
               g ∈ release_groups self ∨ (release_group season_info = Some g ∧ g ≠ ""))
    as Hgroups.
  { intros g. destruct (release_group season_info) as [g0|]; [|naive_solver].
    destruct g0 as [|c g0]; [simpl; naive_solver|].
    cbn [truthy andb]. case_bool_decide; cbn [negb].
    - naive_solver.
    - rewrite elem_of_app, list_elem_of_singleton. naive_solver. }
  assert (NoDup (release_groups self) →
          NoDup match release_group season_info with
                | Some g =>
                    if truthy (Some g) && negb (bool_decide (g ∈ release_groups self))
                    then release_groups self ++ [g] else release_groups self
                | None => release_groups self
                end) as Hgroups_nd.
  { intros Hnd. destruct (release_group season_info) as [g0|]; [|done].
    destruct (truthy (Some g0)); [|done]. cbn [andb].
    case_bool_decide; cbn [negb]; [done|].
    apply NoDup_app. split_and!; [done| |apply NoDup_singleton].
    by intros ? ? ->%list_elem_of_singleton. }
  destruct (dict_get _ (seasons self)) as [e|] eqn:Hslot.
  - destruct (h !! e) as [existing|] eqn:He; simplify_eq/=.
    destruct (sum_episode_counts _ _) as [total|] eqn:Hsum; simplify_eq/=.
    exists season_info, e,
      (set_episode_count
         (dict_len (dict_update (episodes existing) (episodes season_info)))
         (set_episodes (dict_update (episodes existing) (episodes season_info))
            existing)).
    split_and!; try done.
    + apply list_lookup_insert_eq. by eapply lookup_lt_Some.
    + intros k Hk. simpl. apply dict_update_keys. by right.
    + intros r' i Hi. destruct (decide (r' = e)) as [->|].
      * rewrite list_lookup_insert_eq by (by eapply lookup_lt_Some).
        eexists. split; [done|]. simplify_eq. split_and!; [done..|].
        intros k Hk. simpl. apply dict_update_keys. by left.
      * rewrite list_lookup_insert_ne by done. exists i.
        split; [done|apply refreshed_refl].
    + intros r' ?. by apply list_lookup_insert_ne.
    + intros e0 He0. congruence.
    + intros Hnone. congruence.
    + intros t. simpl. apply elem_of_foldl_append_new.
    + simpl. apply foldl_append_new_NoDup.
  - simpl in Ha.
    destruct (sum_episode_counts _ _) as [total|] eqn:Hsum; simplify_eq/=.
    eexists season_info, r, season_info. split_and!; try done.
    + apply dict_get_set_eq.
    + apply heap_refreshed_refl.
    + intros n' ?. by apply dict_get_set_ne.
    + intros e0 He0. congruence.
    + apply dict_set_NoDup.
    + intros t. apply elem_of_foldl_append_new.
    + apply foldl_append_new_NoDup.
Qed.

Lemma represented_refreshed h' bd info0 info :
  refreshed info0 info → represented h' bd info → represented h' bd info0.
Proof.
  intros (Hname & Hseason & Hgroup & Htags & Hkeys)
    (b & e & si & Hb & He & Hsi & Hk & Hg & Ht).
  exists b, e, si. rewrite <-Hname, <-Hseason, <-Hgroup, <-Htags.
  split_and!; [done..| |done|done]. auto.
Qed.

Lemma merge_season_filed (h : heap) bangumi_dict pr h' bangumi_dict' :
  filed h bangumi_dict →
  merge_season (h, bangumi_dict) pr = Some (h', bangumi_dict') →
  filed h' bangumi_dict'
  ∧ heap_refreshed h h'
  ∧ (∃ info, h !! pr.2 = Some info ∧ represented h' bangumi_dict' info)
  ∧ ∀ info, represented h bangumi_dict info → represented h' bangumi_dict' info.
Proof.
  intros [Hnd Hwf] Hm. unfold merge_season in Hm.
  destruct (h !! pr.2) as [info|] eqn:Hinfo; simplify_eq/=.
  set (bangumi := match dict_get (series_name info) bangumi_dict with
                  | Some b => b
                  | None => _
                  end) in Hm.
  assert (bangumi_wf h (series_name info) bangumi) as Hrecv.
  { subst bangumi. destruct (dict_get _ bangumi_dict) as [b|] eqn:Hb.
    - by apply Hwf.
    - split_and!; [done|done|constructor|constructor|by intros ?%elem_of_nil
                   |constructor|done]. }
  destruct (add_season h bangumi pr.2) as [[h1 b1]|] eqn:Ha; simplify_eq/=.
  destruct (add_season_spec _ _ _ _ _ Ha)
    as (season_info & e & season_info' & Hr & Hslot & He & Hkeys & Hfresh & Hframe
        & Hother & Hsame & Hnew & Hseasons_nd & Hcount & Hname & Hgroups
        & Hgroups_nd & Htags & Htags_nd).
  rewrite Hinfo in Hr. injection Hr as <-.
  destruct Hrecv as (Hrname & Hrcount & Hrnd & Hrg & Hrg0 & Hrt & Hrseasons).
  assert (bangumi_wf h' (series_name info) b1) as Hwf1.
  { split_and!.
    - rewrite Hname, Hrname. by destruct (series_name info).
    - done.
    - by apply Hseasons_nd.
    - by apply Hgroups_nd.
    - intros [?|[_ ?]]%Hgroups; done.
    - by apply Htags_nd.
    - intros n r' Hn.
      assert (∃ r0 i0, h !! r0 = Some i0 ∧ r' = r0 ∧ series_name i0 = series_name info
                       ∧ season_or_1 (season i0) = n) as (r0 & i0 & Hi0 & -> & ? & ?).
      { destruct (decide (n = season_or_1 (season info))) as [->|Hne].
        - rewrite Hslot in Hn. injection Hn as <-.
          destruct (dict_get (season_or_1 (season info)) (seasons bangumi))
            as [e0|] eqn:Hold.
          + rewrite (Hsame e0 eq_refl).
            destruct (Hrseasons _ _ Hold) as (i0 & ? & ? & ?). by exists e0, i0.
          + rewrite (Hnew eq_refl). by exists pr.2, info.
        - rewrite Hother in Hn by done.
          destruct (Hrseasons _ _ Hn) as (i0 & ? & ? & ?). by exists r', i0. }
      destruct (Hfresh _ _ Hi0) as (i' & Hi' & Hn' & Hs' & _).
      exists i'. split_and!; [done|congruence|congruence]. }
  split_and!.
  - split; [by apply dict_set_NoDup|].
    intros name b. destruct (decide (name = series_name info)) as [->|Hne].
    + rewrite dict_get_set_eq. intros [= <-]. split; [done|].
      intros Hnil. by rewrite Hnil in Hslot.
    + rewrite dict_get_set_ne by done. intros Hb.
      destruct (Hwf _ _ Hb) as [(? & ? & ? & ? & ? & ? & Hs) ?].
      split; [|done]. split_and!; [done..|].
      intros n r' Hn. destruct (Hs _ _ Hn) as (i0 & Hi0 & ? & ?).
      destruct (Hfresh _ _ Hi0) as (i' & Hi' & Hn' & Hs' & _).
      exists i'. split_and!; [done|congruence|congruence].
  - done.
  - exists info. split; [done|].
    exists b1, e, season_info'. rewrite dict_get_set_eq.
    split_and!; [done..| |].
    + intros g Hg Hne. apply Hgroups. by right.
    + intros t Ht. apply Htags. by right.
  - intros i (b & e' & si & Hb & He' & Hsi & Hk & Hg & Ht).
    destruct (Hfresh _ _ Hsi) as (si' & Hsi' & _ & _ & _ & _ & Hk').
    destruct (decide (series_name i = series_name info)) as [Heq|Hne].
    + exists b1, e', si'. rewrite Heq, dict_get_set_eq.
      assert (bangumi = b) as Hbb.
      { subst bangumi. rewrite Heq in Hb. by rewrite Hb. }
      rewrite Hbb in *.
      split_and!; [done| |done|by auto| |].
      * destruct (decide (season_or_1 (season i) = season_or_1 (season info)))
          as [Hs|Hs].
        -- rewrite Hs in *. rewrite Hslot. f_equal. by apply Hsame.
        -- by rewrite Hother.
      * intros g ? ?. apply Hgroups. left. auto.
      * intros t ?. apply Htags. left. auto.
    + exists b, e', si'. rewrite dict_get_set_ne by done.
      split_and!; [done..|by auto|done|done].
Qed.

Lemma merge_seasons_filed (h : heap) bangumi_dict series_info h' bangumi_dict' :
  filed h bangumi_dict →
  foldM merge_season (h, bangumi_dict) series_info = Some (h', bangumi_dict') →
  filed h' bangumi_dict'
  ∧ heap_refreshed h h'
  ∧ (∀ pr info, pr ∈ series_info → h !! pr.2 = Some info →
       represented h' bangumi_dict' info)
  ∧ ∀ info, represented h bangumi_dict info → represented h' bangumi_dict' info.
Proof.
  revert h bangumi_dict.
  induction series_info as [|pr series_info IH]; intros h bangumi_dict Hfiled.
  - intros [= <- <-]. split_and!; [done|apply heap_refreshed_refl| |done].
    by intros ?? ?%elem_of_nil.
  - intros ([h1 bd1] & Hstep & Hrest)%foldM_cons_inv.
    destruct (merge_season_filed _ _ _ _ _ Hfiled Hstep)
      as (Hfiled1 & Hfresh1 & (info1 & Hinfo1 & Hrep1) & Hmono1).
    destruct (IH _ _ Hfiled1 Hrest) as (Hfiled' & Hfresh' & Hrep' & Hmono').
    split_and!; [done|by eapply heap_refreshed_trans| |by auto].
    intros pr' info [->|Hin]%elem_of_cons Hinfo.
    + simplify_eq. auto.
    + destruct (Hfresh1 _ _ Hinfo) as (info' & Hinfo' & Href).
      eapply represented_refreshed; [done|]. by eapply Hrep'.
Qed.

(** X26.  In the result of [merge_multi_season_series] every
    [BangumiInfo] carries the name it is filed under and has at least one
    season; its season count is the number of its seasons; no season
    number, release group or tag is listed twice and no release group is
    empty; every season is a series of that name and that season
    number. *)
Theorem merge_multi_season_series_files_by_name
    (h : heap) series_info h' bangumi_dict :
  merge_multi_season_series h series_info = Some (h', bangumi_dict) →
  NoDup (dict_keys bangumi_dict)
  ∧ ∀ name b, dict_get name bangumi_dict = Some b →
      bangumi_wf h' name b ∧ seasons b ≠ [].
Proof.
  intros Hm. eapply (merge_seasons_filed h []); [|done].
  split; [constructor|done].
Qed.

Lemma merge_multi_season_series_files_by_name_witness :
  NoDup (dict_keys scenario_two_fragments_merged.2)
  ∧ ∀ name b, dict_get name scenario_two_fragments_merged.2 = Some b →
      bangumi_wf scenario_two_fragments_merged.1 name b ∧ seasons b ≠ [].
Proof.
  apply (merge_multi_season_series_files_by_name scenario_two_fragments
           scenario_two_fragments_series).
  by vm_compute.
Defined.

(** X27.  [merge_multi_season_series] finds a place for every input
    series: the [BangumiInfo] of its name has a season of its number
    (season 1 for a series without season, or of season 0) that holds
    every episode key of the series, and lists its release group (when
    it has one that is not empty) and its tags. *)
Theorem merge_multi_season_series_represents_every_series
    (h : heap) series_info h' bangumi_dict pattern r info :
  merge_multi_season_series h series_info = Some (h', bangumi_dict) →
  (pattern, r) ∈ series_info → h !! r = Some info →
  represented h' bangumi_dict info.
Proof.
  intros Hm Hin Hinfo.
  destruct (merge_seasons_filed h [] series_info h' bangumi_dict) as (_ & _ & Hrep & _);
    [by split; [constructor|]|done|].
  by apply (Hrep (pattern, r)).
Qed.

Lemma merge_multi_season_series_represents_every_series_witness :
  represented scenario_two_fragments_merged.1 scenario_two_fragments_merged.2
    (default new_SeriesInfo (scenario_two_fragments !! 1%nat)).
Proof.
  apply (merge_multi_season_series_represents_every_series scenario_two_fragments
           scenario_two_fragments_series _ _ "y/A/A  {EP_NUM} " 1%nat);
    [by vm_compute|right; left|by vm_compute].
Defined.

(** ** [to_dict] *)

Lemma season_key_inj : Inj (=) (=) season_key.
Proof.
  intros a b. unfold season_key. rewrite !str_app_cons, !str_app_nil_l.
  intros [= H]. by apply (inj pretty).
Qed.

Lemma seasons_to_dict_from (h : heap) acc seasons :
  NoDup (dict_keys acc ++ (season_key <$> dict_keys seasons)) →
  (∀ sr, sr ∈ seasons → is_Some (h !! sr.2)) →
  ∃ infos,
    Forall2 (λ sr info, h !! sr.2 = Some info) seasons infos
    ∧ foldM (λ seasons_dict sr,
               season_info ← h !! sr.2;
               Some (dict_set (season_key sr.1)
                              (PDict (SeriesInfo_to_dict season_info)) seasons_dict))
            acc seasons
      = Some (acc ++ zip_with (λ sr info, (season_key sr.1,
                                            PDict (SeriesInfo_to_dict info)))
                              seasons infos).
Proof.
  revert acc. induction seasons as [|[n r] seasons IH]; intros acc Hnd Hlive.
  - exists []. split; [constructor|]. by rewrite app_nil_r.
  - destruct (Hlive (n, r)) as [info Hinfo]; [left|]. simpl in Hinfo.
    unfold dict_keys in Hnd. rewrite !fmap_cons in Hnd. cbn [fst] in Hnd.
    assert (season_key n ∉ dict_keys acc) as Hfresh.
    { apply NoDup_app in Hnd as (_ & Hdisj & _). intros Hin.
      apply (Hdisj _ Hin). left. }
    destruct (IH (acc ++ [(season_key n, PDict (SeriesInfo_to_dict info))]))
      as (infos & Hinfos & Hfold).
    + unfold dict_keys. rewrite fmap_app. simpl.
      rewrite <-(assoc_L (++)). done.
    + intros sr ?. apply Hlive. by right.
    + exists (info :: infos). split; [by constructor|].
      cbn [foldM fst snd]. rewrite Hinfo. cbn [mbind option_bind].
      rewrite dict_set_fresh by done. rewrite Hfold.
      by rewrite <-(assoc_L (++)).
Qed.

(** X28.  [BangumiInfo.to_dict] stores one entry per season under
    ["seasons"]: the keys [season_N] of different seasons are different,
    and the entry of season [N] is the [to_dict] of that season's
    [SeriesInfo]. *)
Theorem to_dict_has_one_entry_per_season (h : heap) (self : BangumiInfo) :
  NoDup (dict_keys (seasons self)) →
  (∀ sr, sr ∈ seasons self → is_Some (h !! sr.2)) →
  ∃ seasons_dict,
    BangumiInfo_to_dict h self ≫= dict_get "seasons" = Some (PDict seasons_dict)
    ∧ length seasons_dict = length (seasons self)
    ∧ NoDup (dict_keys seasons_dict)
    ∧ ∀ season_num r season_info,
        dict_get season_num (seasons self) = Some r →
        h !! r = Some season_info →
        dict_get (season_key season_num) seasons_dict
        = Some (PDict (SeriesInfo_to_dict season_info)).
Proof.
  intros Hnd Hlive.
  destruct (seasons_to_dict_from h [] (seasons self)) as (infos & Hinfos & Hfold).
  { simpl. by apply (NoDup_fmap_2 _). }
  { done. }
  simpl in Hfold. unfold BangumiInfo_to_dict, seasons_to_dict. rewrite Hfold.
  eexists. split; [reflexivity|].
  assert (dict_keys (zip_with (λ sr info, (season_key sr.1,
                                            PDict (SeriesInfo_to_dict info)))
                              (seasons self) infos)
          = season_key <$> dict_keys (seasons self)) as Hkeys.
  { clear -Hinfos. induction Hinfos as [|sr info ss infos0 _ _ IH]; [done|].
    unfold dict_keys in *. cbn [zip_with]. rewrite !fmap_cons. by f_equal. }
  split_and!.
  - rewrite length_zip_with. apply Forall2_length in Hinfos. lia.
  - rewrite Hkeys. by apply (NoDup_fmap_2 _).
  - intros n r info Hn Hr. apply dict_get_elem_NoDup.
    { rewrite Hkeys. by apply (NoDup_fmap_2 _). }
    apply dict_get_Some_elem, list_elem_of_lookup in Hn as [i Hi].
    destruct (Forall2_lookup_l _ _ _ _ _ Hinfos Hi) as (info' & Hi' & Hr').
    simpl in Hr'. assert (info' = info) as -> by congruence.
    apply (list_elem_of_lookup_2 _ i). rewrite lookup_zip_with, Hi. simpl.
    by rewrite Hi'.
Qed.

Lemma to_dict_has_one_entry_per_season_witness :
  ∃ seasons_dict,
    BangumiInfo_to_dict (scenario_two_seasons "A/S1/01.mkv" "A/S2/01.mkv")
      {| b_series_name := "A"; seasons := [(1, 0%nat); (2, 1%nat)];
         total_episodes := 2; season_count := 2;
         release_groups := []; b_tags := [] |}
    ≫= dict_get "seasons" = Some (PDict seasons_dict)
    ∧ dict_keys seasons_dict = ["season_1"; "season_2"].
Proof.
  destruct (to_dict_has_one_entry_per_season
              (scenario_two_seasons "A/S1/01.mkv" "A/S2/01.mkv")
              {| b_series_name := "A"; seasons := [(1, 0%nat); (2, 1%nat)];
                 total_episodes := 2; season_count := 2;
                 release_groups := []; b_tags := [] |})
    as (seasons_dict & Hdict & _); [compute_done| |].
  - intros sr Hsr. simpl in Hsr.
    apply elem_of_cons in Hsr as [->|Hsr]; [by eexists|].
    apply list_elem_of_singleton in Hsr as ->. by eexists.
  - exists seasons_dict. split; [done|].
    vm_compute in Hdict. by injection Hdict as <-.
Defined.

(* ===================================================================== *)
(** * The two merge stages together *)
(* ===================================================================== *)

(** An invariant of the heap that every write of the same-season merge
    preserves is preserved by the merge. *)
Section same_season_invariant.

Context (Inv : heap → Prop).

Context (Inv_merge_into : ∀ main_ref h r h',
  merge_into main_ref h r = Some h' → Inv h → Inv h').

Context (Inv_recount : ∀ (h : heap) r info n,
  h !! r = Some info → Inv h → Inv (<[r := set_episode_count n info]> h)).

Lemma merge_all_into_invariant main_ref h refs h' :
  foldM (merge_into main_ref) h refs = Some h' → Inv h → Inv h'.
Proof.
  revert h. induction refs as [|r refs IH]; intros h; [by intros [= <-]|].
  intros (h1 & H1 & H2)%foldM_cons_inv ?. eauto.
Qed.

Lemma merge_members_invariant h merged series_list h' merged' :
  merge_members h merged series_list = Some (h', merged') → Inv h → Inv h'.
Proof.
  unfold merge_members. intros Hm Hinv.
  destruct (sort_by_priority h series_list) as [sorted|]; simplify_eq/=.
  destruct (head sorted) as [[main_pattern main_ref]|]; simplify_eq/=.
  destruct (foldM _ _ _) as [h1|] eqn:Hfold; simplify_eq/=.
  destruct (h1 !! main_ref) as [main_info|] eqn:Hmain; simplify_eq/=.
  apply Inv_recount; [done|]. by eapply merge_all_into_invariant.
Qed.

Lemma merge_group_invariant h merged group h' merged' :
  merge_group (h, merged) group = Some (h', merged') → Inv h → Inv h'.
Proof.
  unfold merge_group.
  destruct group as [key [|[pattern r] [|pr series_list]]];
    [apply merge_members_invariant| |apply merge_members_invariant].
  by intros [= <- <-].
Qed.

Lemma merge_same_season_series_invariant h series_info h' merged :
  merge_same_season_series h series_info = Some (h', merged) → Inv h → Inv h'.
Proof.
  unfold merge_same_season_series. intros Hm.
  destruct (group_by_key h series_info) as [groups|]; simplify_eq/=.
  revert h merged Hm. generalize (@nil (string * ref)).
  induction groups as [|group groups IH]; intros acc h merged.
  - by intros [= <- <-].
  - intros ([h1 merged1] & H1 & H2)%foldM_cons_inv Hinv.
    eapply IH; [done|]. by eapply merge_group_invariant.
Qed.

End same_season_invariant.

Lemma merge_episode_paths eps item eps' kp :
  merge_episode eps item = Some eps' → kp ∈ eps' → kp ∈ eps ∨ kp.2 = item.2.
Proof.
  destruct item as [k v]. unfold merge_episode. case_decide.
  - destruct (next_unknown eps) as [new|]; simpl; [|done].
    intros [= <-] [->|?]%dict_set_elem; auto.
  - destruct (dict_has k eps); intros [= <-]; [auto|].
    intros [->|?]%dict_set_elem; auto.
Qed.

Lemma merge_episodes_paths eps items eps' kp :
  foldM merge_episode eps items = Some eps' → kp ∈ eps' →
  kp ∈ eps ∨ ∃ item, item ∈ items ∧ kp.2 = item.2.
Proof.
  revert eps. induction items as [|item items IH]; intros eps.
  - intros [= <-]. auto.
  - intros (eps1 & H1 & H2)%foldM_cons_inv Hin.
    destruct (IH _ H2 Hin) as [Hin1|(item' & ? & ?)].
    + destruct (merge_episode_paths _ _ _ _ H1 Hin1) as [?|?]; [by left|].
      right. exists item. split; [left|done].
    + right. exists item'. split; [by right|done].
Qed.

Lemma merge_into_paths files main_ref h r h' :
  merge_into main_ref h r = Some h' → paths_from files h → paths_from files h'.
Proof.
  unfold merge_into. intros Hm Hinv.
  destruct (h !! main_ref) as [main_info|] eqn:Hmain; simplify_eq/=.
  destruct (h !! r) as [info|] eqn:Hr; simplify_eq/=.
  case_decide.
  { destruct (dict_has _ _); by simplify_eq. }
  destruct (foldM merge_episode _ _) as [eps|] eqn:Heps; simplify_eq/=.
  intros r' i kp Hi Hkp. destruct (decide (r' = main_ref)) as [->|Hne].
  - rewrite list_lookup_insert_eq in Hi by (by eapply lookup_lt_Some).
    assert (kp ∈ eps) as Hin.
    { destruct (_ && _); by simplify_eq/=. }
    destruct (merge_episodes_paths _ _ _ _ Heps Hin) as [?|(item & ? & ->)].
    + by eapply (Hinv main_ref).
    + by eapply (Hinv r).
  - rewrite list_lookup_insert_ne in Hi by done. by eapply Hinv.
Qed.

Lemma recount_paths files (h : heap) r info n :
  h !! r = Some info → paths_from files h →
  paths_from files (<[r := set_episode_count n info]> h).
Proof.
  intros Hr Hinv r' i kp Hi Hkp. destruct (decide (r' = r)) as [->|Hne].
  - rewrite list_lookup_insert_eq in Hi by (by eapply lookup_lt_Some).
    simplify_eq. by eapply (Hinv r).
  - rewrite list_lookup_insert_ne in Hi by done. by eapply Hinv.
Qed.

Lemma dict_update_elem (d other : dict string string) kp :
  kp ∈ dict_update d other → kp ∈ d ∨ kp ∈ other.
Proof.
  revert d. induction other as [|[k v] other IH]; intros d; [by left|].
  rewrite dict_update_cons. intros [[->|?]%dict_set_elem|?]%IH.
  - right. left.
  - by left.
  - right. by right.
Qed.

Lemma add_season_paths files (h : heap) self r h' self' :
  add_season h self r = Some (h', self') → paths_from files h → paths_from files h'.
Proof.
  intros Ha Hinv.
  destruct (add_season_inv _ _ _ _ _ Ha) as (season_info & Hr & _ & Hcase).
  destruct (dict_get _ (seasons self)) as [e|]; [|by destruct Hcase as [-> _]].
  destruct Hcase as (existing & He & -> & _).
  intros r' i kp Hi Hkp. destruct (decide (r' = e)) as [->|Hne].
  - rewrite list_lookup_insert_eq in Hi by (by eapply lookup_lt_Some).
    simplify_eq/=. apply dict_update_elem in Hkp as [?|?].
    + by eapply (Hinv e).
    + by eapply (Hinv r).
  - rewrite list_lookup_insert_ne in Hi by done. by eapply Hinv.
Qed.

Lemma merge_multi_season_series_paths files (h : heap) series_info h' bangumi_dict :
  merge_multi_season_series h series_info = Some (h', bangumi_dict) →
  paths_from files h → paths_from files h'.
Proof.
  unfold merge_multi_season_series. generalize (@nil (string * BangumiInfo)).
  revert h. induction series_info as [|pr series_info IH]; intros h acc.
  - by intros [= <- <-].
  - intros ([h1 bd1] & H1 & H2)%foldM_cons_inv Hinv.
    eapply IH; [done|]. unfold merge_season in H1.
    destruct (h !! pr.2) as [info|]; simplify_eq/=.
    destruct (add_season h _ pr.2) as [[h2 b2]|] eqn:Ha; simplify_eq/=.
    by eapply add_season_paths.
Qed.

Lemma analyze_series_elem cfg acc groups infos key info :
  foldM (analyze_step cfg) acc groups = Some infos →
  (key, info) ∈ infos →
  (key, info) ∈ acc
  ∨ ∃ videos, (key, videos) ∈ groups ∧ analyze_group cfg key videos = Some info.
Proof.
  revert acc. induction groups as [|[k videos] groups IH]; intros acc.
  - intros [= <-]. by left.
  - intros (acc1 & H1 & H2)%foldM_cons_inv Hin. unfold analyze_step in H1.
    simpl in H1.
    destruct (analyze_group cfg k videos) as [i|] eqn:Hi; simplify_eq/=.
    destruct (IH _ H2 Hin) as [[[= -> ->]|?]%dict_set_elem|(vs & ? & ?)].
    + right. exists videos. split; [left|done].
    + by left.
    + right. exists vs. split; [by right|done].
Qed.

Lemma parse_paths cfg files infos :
  parse cfg files = Some infos → paths_from files (allocate infos).1.
Proof.
  intros Hparse r info kp Hr Hkp. unfold allocate in Hr. simpl in Hr.
  apply list_lookup_fmap_Some in Hr as ([key info'] & -> & Hin%list_elem_of_lookup_2).
  simpl in *.
  unfold parse in Hparse.
  destruct (group_series cfg files) as [groups|] eqn:Hg; simplify_eq/=.
  destruct (analyze_series_elem _ _ _ _ _ _ Hparse Hin) as [?%elem_of_nil|(videos & Hv & Ha)];
    [done|].
  apply analyze_group_episodes in Ha as [Heps _]. rewrite Heps in Hkp.
  destruct kp as [k p].
  apply (dict_get_elem_NoDup _ _ _ (episode_map_NoDup videos)) in Hkp.
  apply episode_map_get in Hkp as (n & Hnp & _).
  apply (dict_get_elem_NoDup _ _ _ (proj1 (group_series_wf _ _ _ Hg))) in Hv.
  destruct (group_series_get _ _ _ _ _ Hg Hv) as [-> _].
  rewrite list_sort_perm in Hnp. by apply entries_for_elem in Hnp as [? _].
Qed.

(** X29.  Every path in every episode map after [parse_and_merge] is one
    of the scanned files. *)
Theorem parse_and_merge_invents_no_path cfg video_files h bangumi_dict r info k p :
  parse_and_merge cfg video_files = Some (h, bangumi_dict) →
  h !! r = Some info → dict_get k (episodes info) = Some p →
  p ∈ video_files.
Proof.
  unfold parse_and_merge. intros Hpm Hr Hk.
  destruct (parse cfg video_files) as [infos|] eqn:Hparse; simplify_eq/=.
  pose proof (parse_paths _ _ _ Hparse) as Hinv.
  unfold allocate in Hinv. cbn [fst] in Hinv.
  destruct (merge_same_season_series _ _) as [[h1 merged]|] eqn:Hm; simplify_eq/=.
  apply (merge_multi_season_series_paths video_files) in Hpm.
  - apply (Hpm r info (k, p) Hr). by apply dict_get_Some_elem.
  - eapply (merge_same_season_series_invariant (paths_from video_files)); [| |done..].
    + intros ????. apply merge_into_paths.
    + intros ????. apply recount_paths.
Qed.

Lemma parse_and_merge_invents_no_path_witness :
  "Show/Show special.mkv"
  ∈ ["Show/Show - 01.mkv"; "Show/Show - 02.mkv"; "Show/Show special.mkv"].
Proof.
  apply (parse_and_merge_invents_no_path default_config
           ["Show/Show - 01.mkv"; "Show/Show - 02.mkv"; "Show/Show special.mkv"]
           (default ([], [])
              (parse_and_merge default_config
                 ["Show/Show - 01.mkv"; "Show/Show - 02.mkv"; "Show/Show special.mkv"])).1
           (default ([], [])
              (parse_and_merge default_config
                 ["Show/Show - 01.mkv"; "Show/Show - 02.mkv"; "Show/Show special.mkv"])).2
           0%nat
           (default new_SeriesInfo
              ((default ([], [])
                  (parse_and_merge default_config
                     ["Show/Show - 01.mkv"; "Show/Show - 02.mkv";
                      "Show/Show special.mkv"])).1 !! 0%nat))
           "未知集01"); by vm_compute.
Defined.

(** X30.  On a mapping whose values are distinct live objects the two
    merge stages return, one after the other, and create no
    [SeriesInfo] object. *)
Theorem merge_stages_return_on_distinct_objects (h : heap) series_info :
  (∀ pr, pr ∈ series_info → is_Some (h !! pr.2)) →
  NoDup (series_info.*2) →
  ∃ h1 merged h2 bangumi_dict,
    merge_same_season_series h series_info = Some (h1, merged)
    ∧ merge_multi_season_series h1 merged = Some (h2, bangumi_dict)
    ∧ length h2 = length h.
Proof.
  intros Hlive Hnd.
  destruct (merge_same_season_series_result h series_info Hlive Hnd)
    as (h1 & merged & Hm & Hlen & Hsub).
  destruct (merge_multi_season_series_total h1 merged) as [[h2 bd] Hmm].
  { intros pr Hpr%Hsub. apply lookup_lt_is_Some. rewrite Hlen.
    by apply lookup_lt_is_Some, Hlive. }
  exists h1, merged, h2, bd. split_and!; [done..|].
  rewrite <-Hlen. clear -Hmm. unfold merge_multi_season_series in Hmm.
  revert Hmm. generalize (@nil (string * BangumiInfo)). revert h1.
  induction merged as [|pr merged IH]; intros h1 acc.
  - by intros [= <- <-].
  - intros ([h' bd'] & H1 & H2)%foldM_cons_inv.
    rewrite (IH _ _ H2). by eapply merge_season_inv.
Qed.

Lemma merge_stages_return_on_distinct_objects_witness :
  ∃ h1 merged h2 bangumi_dict,
    merge_same_season_series scenario_c_files scenario_c_series = Some (h1, merged)
    ∧ merge_multi_season_series h1 merged = Some (h2, bangumi_dict)
    ∧ length h2 = length scenario_c_files.
Proof.
  apply merge_stages_return_on_distinct_objects; [|compute_done].
  intros pr Hpr. unfold scenario_c_series in Hpr.
  apply elem_of_cons in Hpr as [->|Hpr]; [by eexists|].
  apply list_elem_of_singleton in Hpr as ->. by eexists.
Defined.
